(** * Overshoot inference worker

    A shallow embedding of [src/overshoot/inference_worker.py]: the
    difficulty classifier, the tier parameter lookup, the retrying single
    call, the token stream, the batch call with its per-item fallback and
    the cluster status call, followed by the properties they satisfy. *)

From Stdlib Require Import String Ascii List ZArith QArith Lia Bool Arith DecimalString
  Permutation.
Import ListNotations.
Local Open Scope string_scope.

(** ** The Python built-ins the worker relies on

    A [string] is a sequence of code points below 256; on those,
    [str.lower], [float], [repr] and the decimal digits are exactly the
    functions below. *)
Module Py.

Definition lower_char (c : ascii) : ascii :=
  let n := nat_of_ascii c in
  if ((65 <=? n) && (n <=? 90)
      || (192 <=? n) && (n <=? 222) && negb (n =? 215))%nat
  then ascii_of_nat (n + 32) else c.

(** [s.lower()] *)
Fixpoint lower (s : string) : string :=
  match s with
  | EmptyString => EmptyString
  | String c r => String (lower_char c) (lower r)
  end.

(** [needle in hay] on strings: [needle] occurs at some offset of [hay]. *)
Fixpoint contains (needle hay : string) : bool :=
  String.prefix needle hay ||
  match hay with
  | EmptyString => false
  | String _ r => contains needle r
  end.

(** [any(p(x) for x in xs)] *)
Definition any {A} (p : A -> bool) (xs : list A) : bool := existsb p xs.

(** [s.replace(old, "")] for a one-character [old]. *)
Fixpoint remove_char (old : ascii) (s : string) : string :=
  match s with
  | EmptyString => EmptyString
  | String c r =>
      if Ascii.eqb c old then remove_char old r
      else String c (remove_char old r)
  end.

(** [str(n)] for an [int]. *)
Definition str_int (z : Z) : string := NilZero.string_of_int (Z.to_int z).

(** *** [float(s)]

    A float is a binary64 number, kept as the fraction it is equal to (the
    sign of a zero, which [==] does not see, is not kept), an infinity or a
    NaN. [None] stands for [ValueError]. *)
Inductive pyfloat :=
| Finite (q : Q)
| Infinite (negative : bool)
| NaN.

(** The white space [float] strips: the six ASCII characters C calls
    white space and, since [float] turns the other Unicode spaces into a
    blank first, NEL and the no-break space. The separators 28 to 31, which
    [str.isspace] accepts, are not among them. *)
Definition is_space (c : ascii) : bool :=
  let n := nat_of_ascii c in
  ((9 <=? n) && (n <=? 13) || (n =? 32) || (n =? 133) || (n =? 160))%nat.

Definition digit_of (c : ascii) : option N :=
  let n := N_of_ascii c in
  if ((48 <=? n) && (n <=? 57))%N then Some (n - 48)%N else None.

Fixpoint lstrip (l : list ascii) : list ascii :=
  match l with
  | c :: r => if is_space c then lstrip r else l
  | [] => []
  end.

Definition strip (l : list ascii) : list ascii :=
  rev (lstrip (rev (lstrip l))).

(** The tail [(["_"] digit)*] of a digit part: the digits read so far as a
    number, how many they are, and what follows. *)
Fixpoint digits_tail (acc : N) (cnt : nat) (l : list ascii)
  : N * nat * list ascii :=
  match l with
  | c :: r =>
      match digit_of c with
      | Some d => digits_tail (acc * 10 + d) (S cnt) r
      | None =>
          if Ascii.eqb c "_" then
            match r with
            | c' :: r' =>
                match digit_of c' with
                | Some d => digits_tail (acc * 10 + d) (S cnt) r'
                | None => (acc, cnt, l)
                end
            | [] => (acc, cnt, l)
            end
          else (acc, cnt, l)
      end
  | [] => (acc, cnt, l)
  end.

(** [digitpart ::= digit (["_"] digit)*] *)
Definition digitpart (acc : N) (cnt : nat) (l : list ascii)
  : option (N * nat * list ascii) :=
  match l with
  | c :: r =>
      match digit_of c with
      | Some d => Some (digits_tail (acc * 10 + d) (S cnt) r)
      | None => None
      end
  | [] => None
  end.

(** [number ::= [digitpart] "." digitpart | digitpart ["."]]: the digits as
    one number, the count of those after the point, and what follows. *)
Definition number (l : list ascii) : option (N * nat * list ascii) :=
  match digitpart 0 0 l with
  | Some (m, _, rest) =>
      match rest with
      | c :: after =>
          if Ascii.eqb c "." then
            match digitpart m 0 after with
            | Some r => Some r
            | None => Some (m, 0%nat, after)
            end
          else Some (m, 0%nat, rest)
      | [] => Some (m, 0%nat, [])
      end
  | None =>
      match l with
      | c :: after => if Ascii.eqb c "." then digitpart 0 0 after else None
      | [] => None
      end
  end.

(** An optional sign: is it negative, and what follows. *)
Definition sign (l : list ascii) : bool * list ascii :=
  match l with
  | c :: r =>
      if Ascii.eqb c "-" then (true, r)
      else if Ascii.eqb c "+" then (false, r)
      else (false, l)
  | [] => (false, l)
  end.

(** [exponent ::= ("e" | "E") [sign] digitpart], up to the end. *)
Definition exponent (l : list ascii) : option Z :=
  match l with
  | [] => Some 0%Z
  | c :: r =>
      if Ascii.eqb c "e" || Ascii.eqb c "E" then
        let (neg, r') := sign r in
        match digitpart 0 0 r' with
        | Some (e, _, []) => Some (if neg then (- Z.of_N e)%Z else Z.of_N e)
        | _ => None
        end
      else None
  end.

(** [n / d] rounded to the nearest integer, a tie going to the even one
    ([0 <= n], [0 < d]). *)
Definition half_even (n d : Z) : Z :=
  let q := (n / d)%Z in
  let r := (n mod d)%Z in
  if (2 * r <? d)%Z then q
  else if (d <? 2 * r)%Z then (q + 1)%Z
  else if Z.even q then q else (q + 1)%Z.

(** [2 ^ k <= n / d] ([0 < d]). *)
Definition at_least_pow2 (n d k : Z) : bool :=
  if (0 <=? k)%Z then (d * 2 ^ k <=? n)%Z else (d <=? n * 2 ^ (- k))%Z.

(** The binary64 number nearest to [n / d] ([0 <= n], [0 < d]), a tie going
    to the even significand: 53 bits at the binary exponent of [n / d],
    which is at least -1022; [None] when the result is 2^1024 or more. *)
Definition binary64 (n d : Z) : option Q :=
  if (n =? 0)%Z then Some 0
  else
    let lg := (Z.log2 n - Z.log2 d)%Z in
    let e := if at_least_pow2 n d lg then lg else (lg - 1)%Z in
    let k := (Z.max e (-1022) - 52)%Z in
    if (0 <=? k)%Z then
      let v := (half_even n (d * 2 ^ k) * 2 ^ k)%Z in
      if (2 ^ 1024 <=? v)%Z then None else Some (v # 1)
    else
      Some (Qred (half_even (n * 2 ^ (- k)) d # Z.to_pos (2 ^ (- k)))).

(** The float written as the digits [m] times ten to the [e]. *)
Definition rounded (neg : bool) (m : N) (e : Z) : pyfloat :=
  let n := if (0 <=? e)%Z then (Z.of_N m * 10 ^ e)%Z else Z.of_N m in
  let d := if (0 <=? e)%Z then 1%Z else (10 ^ (- e))%Z in
  match binary64 n d with
  | Some q => Finite (if neg then - q else q)
  | None => Infinite neg
  end.

Definition float (s : string) : option pyfloat :=
  let (neg, body) := sign (strip (list_ascii_of_string s)) in
  let word := lower (string_of_list_ascii body) in
  if String.eqb word "inf" || String.eqb word "infinity" then Some (Infinite neg)
  else if String.eqb word "nan" then Some NaN
  else
    match number body with
    | Some (m, frac, rest) =>
        match exponent rest with
        | Some e => Some (rounded neg m (e - Z.of_nat frac))
        | None => None
        end
    | None => None
    end.

(** *** Decoded JSON and other dynamic values

    A float is identified by its [repr]; a dict is the list of its items
    in insertion order, a key being looked up from the front. *)
#[warnings="-register-all"]
Inductive pyvalue :=
| PNone
| PBool (b : bool)
| PInt (z : Z)
| PFloat (repr : string)
| PStr (s : string)
| PList (items : list pyvalue)
| PDict (fields : list (string * pyvalue)).

Definition type_name (v : pyvalue) : string :=
  match v with
  | PNone => "NoneType"
  | PBool _ => "bool"
  | PInt _ => "int"
  | PFloat _ => "float"
  | PStr _ => "str"
  | PList _ => "list"
  | PDict _ => "dict"
  end.

(** [c.isprintable()] *)
Definition printable (c : ascii) : bool :=
  let n := nat_of_ascii c in
  ((32 <=? n) && (n <? 127) || (161 <=? n) && negb (n =? 173))%nat.

Definition hex_digit (n : nat) : ascii :=
  ascii_of_nat (if (n <? 10)%nat then 48 + n else 87 + n).

(** One character inside [repr(s)]: the quote in use and the backslash
    take a backslash, tab, line feed and carriage return are written with
    their letter, any other unprintable character as its two hexadecimal
    digits. *)
Definition escape_char (quote c : ascii) : string :=
  let backslash := "092"%char in
  if Ascii.eqb c quote || Ascii.eqb c backslash then
    String backslash (String c EmptyString)
  else if Ascii.eqb c "009" then String backslash "t"
  else if Ascii.eqb c "010" then String backslash "n"
  else if Ascii.eqb c "013" then String backslash "r"
  else if printable c then String c EmptyString
  else
    let n := nat_of_ascii c in
    String backslash
      (String "x" (String (hex_digit (n / 16))
                     (String (hex_digit (n mod 16)) EmptyString))).

Fixpoint escape (quote : ascii) (s : string) : string :=
  match s with
  | EmptyString => EmptyString
  | String c r => escape_char quote c ++ escape quote r
  end.

Fixpoint has_char (c : ascii) (s : string) : bool :=
  match s with
  | EmptyString => false
  | String x r => Ascii.eqb x c || has_char c r
  end.

(** [repr(s)] of a string: between double quotes when [s] holds a single
    quote and no double quote, between single quotes otherwise. *)
Definition repr_str (s : string) : string :=
  let quote :=
    if has_char "'" s && negb (has_char "034" s) then "034"%char else "'"%char in
  String quote (escape quote s ++ String quote EmptyString).

Fixpoint repr (v : pyvalue) : string :=
  match v with
  | PNone => "None"
  | PBool true => "True"
  | PBool false => "False"
  | PInt z => str_int z
  | PFloat r => r
  | PStr s => repr_str s
  | PList items =>
      "[" ++ (fix go (l : list pyvalue) : string :=
                match l with
                | [] => ""
                | x :: r =>
                    repr x ++ match r with [] => "" | _ => ", " ++ go r end
                end) items ++ "]"
  | PDict fields =>
      "{" ++ (fix go (l : list (string * pyvalue)) : string :=
                match l with
                | [] => ""
                | (k, x) :: r =>
                    repr_str k ++ ": " ++ repr x
                    ++ match r with [] => "" | _ => ", " ++ go r end
                end) fields ++ "}"
  end.

(** [str(v)], also what an f-string prints for [{v}]. *)
Definition str (v : pyvalue) : string :=
  match v with
  | PStr s => s
  | _ => repr v
  end.

(** *** Exceptions: the class and [str(e)]. *)
Inductive exn_class :=
| HTTPError          (* httpx.HTTPError and its subclasses *)
| JSONDecodeError
| KeyError
| TypeError
| IndexError
| ValueError
| AttributeError
| Exception.         (* a plain [Exception(msg)] *)

Record exn := Exn { cls : exn_class; msg : string }.

Inductive result (A : Type) :=
| Ok (a : A)
| Raised (e : exn).
Arguments Ok {A} a.
Arguments Raised {A} e.

Fixpoint lookup (k : string) (fields : list (string * pyvalue)) : option pyvalue :=
  match fields with
  | [] => None
  | (k', v) :: r => if String.eqb k k' then Some v else lookup k r
  end.

(** [v[k]] for a string key [k]. *)
Definition getitem (v : pyvalue) (k : string) : result pyvalue :=
  match v with
  | PDict fields =>
      match lookup k fields with
      | Some x => Ok x
      | None => Raised (Exn KeyError (repr_str k))
      end
  | PList _ =>
      Raised (Exn TypeError "list indices must be integers or slices, not str")
  | PStr _ =>
      Raised (Exn TypeError "string indices must be integers, not 'str'")
  | _ =>
      Raised (Exn TypeError ("'" ++ type_name v ++ "' object is not subscriptable"))
  end.

(** [v.get(k, default)] *)
Definition get (v : pyvalue) (k : string) (default : pyvalue) : result pyvalue :=
  match v with
  | PDict fields =>
      match lookup k fields with
      | Some x => Ok x
      | None => Ok default
      end
  | _ =>
      Raised (Exn AttributeError
                ("'" ++ type_name v ++ "' object has no attribute 'get'"))
  end.

Definition is_str (k : string) (v : pyvalue) : bool :=
  match v with
  | PStr s => String.eqb s k
  | _ => false
  end.

(** [k in v] for a string [k]. *)
Definition member (k : string) (v : pyvalue) : result bool :=
  match v with
  | PDict fields =>
      Ok (match lookup k fields with Some _ => true | None => false end)
  | PList items => Ok (existsb (is_str k) items)
  | PStr s => Ok (contains k s)
  | _ =>
      Raised (Exn TypeError
                ("argument of type '" ++ type_name v ++ "' is not iterable"))
  end.

(** The items [for x in v] goes through. *)
Definition iter (v : pyvalue) : result (list pyvalue) :=
  match v with
  | PList items => Ok items
  | PDict fields => Ok (map (fun kv => PStr (fst kv)) fields)
  | PStr s => Ok (map (fun c => PStr (String c EmptyString)) (list_ascii_of_string s))
  | _ => Raised (Exn TypeError ("'" ++ type_name v ++ "' object is not iterable"))
  end.

(** [l[i:j]] *)
Definition slice {A} (l : list A) (i j : nat) : list A :=
  firstn (j - i) (skipn i l).

(** [range(0, stop, step)]; [None] stands for the [ValueError] of a zero
    step. *)
Definition range_step (stop : nat) (step : Z) : option (list nat) :=
  if (step =? 0)%Z then None
  else if (step <? 0)%Z then Some []
  else
    let k := Z.to_nat step in
    Some (map (fun q => q * k)%nat (seq 0 ((stop + k - 1) / k))).

End Py.
Export Py.

(** ** Data model *)

(** [class DifficultyLevel(Enum)] *)
Inductive DifficultyLevel := EASY | MEDIUM | HARD | EXPERT.

(** [DifficultyLevel.value] *)
Definition value (d : DifficultyLevel) : string :=
  match d with
  | EASY => "easy"
  | MEDIUM => "medium"
  | HARD => "hard"
  | EXPERT => "expert"
  end.

(** [class InferenceRequest]; [difficulty] may hold [None], which [infer]
    tests for. *)
Record InferenceRequest := {
  prompt : string;
  difficulty : option DifficultyLevel;
  session_id : option string;
  user_id : option string;
  context : option (list (string * pyvalue));
  stream : bool;
  temperature : option Q;
  max_tokens : option Z
}.

(** [InferenceRequest(prompt=p)]: the dataclass defaults. *)
Definition InferenceRequest_default (p : string) : InferenceRequest :=
  {| prompt := p;
     difficulty := Some MEDIUM;
     session_id := None;
     user_id := None;
     context := None;
     stream := false;
     temperature := None;
     max_tokens := None |}.

(** [latency_ms] is either measured between two clock readings
    (microseconds) or a value copied from elsewhere. *)
Inductive latency :=
| Elapsed (start stop : Z)
| Reported (v : pyvalue).

(** [class InferenceResponse] *)
Record InferenceResponse := {
  text : pyvalue;
  model : pyvalue;
  cluster_id : pyvalue;
  latency_ms : latency;
  tokens_generated : pyvalue;
  difficulty_used : option DifficultyLevel;
  timestamp : Z
}.

(** One entry of [config["inference"]["test_time_scaling"]["difficulty_levels"]]. *)
Record tier := {
  tier_temperature : Q;
  tier_max_tokens : Z;
  tier_num_passes : Z;
  tier_timeout : string
}.

(** The worker: what [__init__] leaves in [self.config] and [self.model]. *)
Record OvershootInferenceWorker := {
  difficulty_levels : list (string * tier);
  batch_size : Z;
  self_model : string
}.

(** The dict [_get_inference_params] returns. *)
Record params := {
  params_temperature : Q;
  params_max_tokens : Z;
  params_num_passes : Z;
  params_timeout : string
}.

(** The JSON bodies sent. *)
Record payload := {
  p_model : string;
  p_prompt : string;
  p_temperature : Q;
  p_max_tokens : Z;
  p_stream : bool;
  p_num_passes : Z;
  p_context : list (string * pyvalue);
  p_session_id : option string;
  p_user_id : option string
}.

Record batch_item := {
  b_prompt : string;
  b_temperature : Q;
  b_max_tokens : Z;
  b_context : list (string * pyvalue);
  b_session_id : option string;
  b_user_id : option string
}.

Record batch_payload := {
  bp_model : string;
  bp_requests : list batch_item
}.

Inductive body :=
| Single (p : payload)
| Batch (b : batch_payload).

(** ** The outside world *)

(** What the worker does that can be seen from outside, in order. *)
Inductive event :=
| Post (path : string) (json : body) (timeout : pyfloat)
| Stream (path : string) (json : body) (timeout : pyfloat)
| Get (path : string)
| Sleep (seconds : Z).

(** [response.json()]: the body decodes or [json.JSONDecodeError] is
    raised with this message. *)
Inductive decoded :=
| NotJson (err : string)
| Json (v : pyvalue).

(** A call either raises an [httpx.HTTPError] (in the transport or in
    [raise_for_status]) or comes back with a body. *)
Inductive reply :=
| Failed (err : string)
| Replied (b : decoded).

(** One line of a streamed body: empty, undecodable, or decoded. *)
Inductive line :=
| Blank
| Garbage (raw : string)
| Record_ (data : pyvalue).

(** A streamed call fails before any line, or delivers lines and then ends
    or breaks with an [httpx.HTTPError]. *)
Inductive stream_reply :=
| StreamFailed (err : string)
| Lines (ls : list line) (broken : option string).

(** The remote service and the clock: the reply to the [n]-th call, and the
    [n]-th reading of [datetime.now()]. *)
Record Outside := {
  on_call : nat -> event -> reply;
  on_stream : nat -> event -> stream_reply;
  clock : nat -> Z
}.

(** Requests are objects: the heap maps an address to the request there. *)
Definition ref := nat.

Record World := {
  heap : ref -> InferenceRequest;
  calls : nat;
  ticks : nat;
  trace : list event
}.

(** ** Computations that read and change the world and may raise *)

Definition M (A : Type) : Type := World -> result A * World.

Definition ret {A} (a : A) : M A := fun w => (Ok a, w).
Definition raise {A} (e : exn) : M A := fun w => (Raised e, w).
Definition lift {A} (r : result A) : M A := fun w => (r, w).

Definition bind {A B} (m : M A) (k : A -> M B) : M B :=
  fun w =>
    match m w with
    | (Ok a, w') => k a w'
    | (Raised e, w') => (Raised e, w')
    end.

(** [try: m  except Exception as e: h e] *)
Definition catch {A} (m : M A) (h : exn -> M A) : M A :=
  fun w =>
    match m w with
    | (Ok a, w') => (Ok a, w')
    | (Raised e, w') => h e w'
    end.

Declare Scope M_scope.
Delimit Scope M_scope with M.
Notation "x <- m ;; k" := (bind m (fun x => k))
  (at level 61, m at next level, right associativity) : M_scope.
Notation "m ;;; k" := (bind m (fun _ => k))
  (at level 61, right associativity) : M_scope.
Local Open Scope M_scope.

Definition get_request (r : ref) : M InferenceRequest :=
  fun w => (Ok (heap w r), w).

Definition put_request (r : ref) (q : InferenceRequest) : M unit :=
  fun w =>
    (Ok tt,
     {| heap := fun r' => if Nat.eqb r' r then q else heap w r';
        calls := calls w; ticks := ticks w; trace := trace w |}).

(** [request.difficulty = d] *)
Definition set_difficulty (r : ref) (d : DifficultyLevel) : M unit :=
  q <- get_request r ;;
  put_request r
    {| prompt := prompt q; difficulty := Some d; session_id := session_id q;
       user_id := user_id q; context := context q; stream := stream q;
       temperature := temperature q; max_tokens := max_tokens q |}.

(** [request.stream = True] *)
Definition set_stream (r : ref) : M unit :=
  q <- get_request r ;;
  put_request r
    {| prompt := prompt q; difficulty := difficulty q; session_id := session_id q;
       user_id := user_id q; context := context q; stream := true;
       temperature := temperature q; max_tokens := max_tokens q |}.

Definition emit (e : event) : M unit :=
  fun w =>
    (Ok tt,
     {| heap := heap w; calls := calls w; ticks := ticks w;
        trace := (trace w ++ [e])%list |}).

(** [datetime.now()] *)
Definition now (out : Outside) : M Z :=
  fun w =>
    (Ok (clock out (ticks w)),
     {| heap := heap w; calls := calls w; ticks := S (ticks w);
        trace := trace w |}).

(** A remote call: it is recorded and the service answers. *)
Definition call (out : Outside) (e : event) : M reply :=
  fun w =>
    (Ok (on_call out (calls w) e),
     {| heap := heap w; calls := S (calls w); ticks := ticks w;
        trace := (trace w ++ [e])%list |}).

Definition call_stream (out : Outside) (e : event) : M stream_reply :=
  fun w =>
    (Ok (on_stream out (calls w) e),
     {| heap := heap w; calls := S (calls w); ticks := ticks w;
        trace := (trace w ++ [e])%list |}).

(** [await asyncio.sleep(n)] *)
Definition sleep (n : Z) : M unit := emit (Sleep n).

(** [response.json()] *)
Definition json_of (b : decoded) : M pyvalue :=
  match b with
  | Json v => ret v
  | NotJson err => raise (Exn JSONDecodeError err)
  end.

(** [float(t.replace("s", ""))] *)
Definition parse_timeout (t : string) : M pyfloat :=
  match Py.float (remove_char "s" t) with
  | Some f => ret f
  | None =>
      raise (Exn ValueError
               ("could not convert string to float: "
                ++ repr_str (remove_char "s" t)))
  end.

(** ** Difficulty classifier *)

Definition expert_keywords : list string :=
  ["prove"; "derive"; "theorem"; "advanced"; "complex"].
Definition hard_keywords : list string :=
  ["solve"; "calculate"; "explain"; "why"; "how"].
Definition medium_keywords : list string :=
  ["what"; "define"; "describe"].

(** [OvershootInferenceWorker._determine_difficulty]; the [context]
    argument is accepted and never read, as in the source. *)
Definition _determine_difficulty (prompt : string)
    (context : option (list (string * pyvalue))) : DifficultyLevel :=
  let prompt_lower := Py.lower prompt in
  if Py.any (fun keyword => Py.contains keyword prompt_lower) expert_keywords then EXPERT
  else if Py.any (fun keyword => Py.contains keyword prompt_lower) hard_keywords then HARD
  else if Py.any (fun keyword => Py.contains keyword prompt_lower) medium_keywords then MEDIUM
  else EASY.

(** ** The worker's methods *)

Section Worker.

Variable self : OvershootInferenceWorker.
Variable out : Outside.

Fixpoint find_tier (k : string) (levels : list (string * tier)) : option tier :=
  match levels with
  | [] => None
  | (k', t) :: r => if String.eqb k k' then Some t else find_tier k r
  end.

Definition tier_params (difficulty_config : tier) : params :=
  {| params_temperature := tier_temperature difficulty_config;
     params_max_tokens := tier_max_tokens difficulty_config;
     params_num_passes := tier_num_passes difficulty_config;
     params_timeout := tier_timeout difficulty_config |}.

(** [_get_inference_params]: the tier's entry, or [KeyError]. *)
Definition _get_inference_params (d : DifficultyLevel) : M params :=
  match find_tier (value d) (difficulty_levels self) with
  | Some difficulty_config => ret (tier_params difficulty_config)
  | None => raise (Exn KeyError (repr_str (value d)))
  end.

(** [if request.difficulty is None: request.difficulty = ...], giving the
    difficulty the request holds afterwards. *)
Definition resolve_difficulty (request : ref) : M DifficultyLevel :=
  q <- get_request request ;;
  match difficulty q with
  | None =>
      let d := _determine_difficulty (prompt q) (context q) in
      set_difficulty request d ;;; ret d
  | Some d => ret d
  end.

(** [x or {}] for an optional dict. *)
Definition or_empty (c : option (list (string * pyvalue))) : list (string * pyvalue) :=
  match c with
  | Some (kv :: r) => kv :: r
  | _ => []
  end.

Definition option_str (o : option string) : string :=
  match o with
  | Some s => s
  | None => "None"
  end.

(** [if request.temperature is not None: params["temperature"] = ...] and
    the same for [max_tokens]. *)
Definition with_overrides (q : InferenceRequest) (p : params) : params :=
  {| params_temperature :=
       match temperature q with Some t => t | None => params_temperature p end;
     params_max_tokens :=
       match max_tokens q with Some m => m | None => params_max_tokens p end;
     params_num_passes := params_num_passes p;
     params_timeout := params_timeout p |}.

(** The payload of [infer] and [infer_stream], which differ in the stream
    flag they send. *)
Definition inference_payload (q : InferenceRequest) (p : params) (flag : bool)
  : payload :=
  {| p_model := self_model self;
     p_prompt := prompt q;
     p_temperature := params_temperature p;
     p_max_tokens := params_max_tokens p;
     p_stream := flag;
     p_num_passes := params_num_passes p;
     p_context := or_empty (context q);
     p_session_id := session_id q;
     p_user_id := user_id q |}.

(** The retry loop of [infer]: [n] iterations are left, the next one has
    index [attempt]. *)
Fixpoint infer_attempts (request : ref) (json : payload) (p : params)
    (start_time : Z) (retries : Z) (n : nat) (attempt : Z)
    (last_error : option string) : M InferenceResponse :=
  match n with
  | O =>
      raise (Exn Exception
               ("Inference failed after " ++ str_int retries ++ " attempts: "
                ++ option_str last_error))
  | S n' =>
      timeout <- parse_timeout (params_timeout p) ;;
      response <- call out (Post "/v1/inference" (Single json) timeout) ;;
      match response with
      | Replied b =>
          data <- json_of b ;;
          t <- now out ;;
          text_ <- lift (getitem data "text") ;;
          model_ <- lift (get data "model" (PStr (self_model self))) ;;
          cluster <- lift (get data "cluster_id" (PStr "unknown")) ;;
          tokens <- lift (get data "tokens_generated" (PInt 0)) ;;
          q <- get_request request ;;
          stamp <- now out ;;
          ret {| text := text_; model := model_; cluster_id := cluster;
                 latency_ms := Elapsed start_time t;
                 tokens_generated := tokens;
                 difficulty_used := difficulty q;
                 timestamp := stamp |}
      | Failed e =>
          if (attempt <? retries - 1)%Z then
            sleep (2 ^ attempt) ;;;
            infer_attempts request json p start_time retries n'
              (attempt + 1)%Z (Some e)
          else raise (Exn HTTPError e)
      end
  end.

(** [infer(request, retries)] *)
Definition infer (request : ref) (retries : Z) : M InferenceResponse :=
  d <- resolve_difficulty request ;;
  p <- _get_inference_params d ;;
  q <- get_request request ;;
  let p := with_overrides q p in
  let json := inference_payload q p (stream q) in
  start_time <- now out ;;
  infer_attempts request json p start_time retries (Z.to_nat retries) 0%Z None.

(** The default [retries=3]. *)
Definition infer_default (request : ref) : M InferenceResponse := infer request 3.

(** What the generator of [infer_stream] has done when it stops: the tokens
    yielded so far, and whether it ended or raised. *)
Definition streamed : Type := list pyvalue * result unit.

(** The body of [async for line in response.aiter_lines()] on the lines
    received, a broken transport ending them with [broken]. *)
Fixpoint stream_lines (ls : list line) (broken : option string) : streamed :=
  match ls with
  | [] =>
      match broken with
      | Some e => ([], Raised (Exn Exception ("Stream inference failed: " ++ e)))
      | None => ([], Ok tt)
      end
  | Blank :: rest => stream_lines rest broken
  | Garbage _ :: rest => stream_lines rest broken
  | Record_ data :: rest =>
      match member "token" data with
      | Raised e => ([], Raised e)
      | Ok true =>
          match getitem data "token" with
          | Raised e => ([], Raised e)
          | Ok tok =>
              let (toks, r) := stream_lines rest broken in (tok :: toks, r)
          end
      | Ok false =>
          match member "error" data with
          | Raised e => ([], Raised e)
          | Ok true =>
              match getitem data "error" with
              | Raised e => ([], Raised e)
              | Ok err => ([], Raised (Exn Exception ("Stream error: " ++ str err)))
              end
          | Ok false => stream_lines rest broken
          end
      end
  end.

(** [infer_stream(request)], run until the generator stops. *)
Definition infer_stream (request : ref) : World -> streamed * World :=
  fun w =>
    match
      (set_stream request ;;;
       d <- resolve_difficulty request ;;
       p <- _get_inference_params d ;;
       q <- get_request request ;;
       let json := inference_payload q p true in
       timeout <- parse_timeout (params_timeout p) ;;
       call_stream out (Stream "/v1/inference/stream" (Single json) timeout)) w
    with
    | (Raised e, w') => (([], Raised e), w')
    | (Ok (StreamFailed e), w') =>
        (([], Raised (Exn Exception ("Stream inference failed: " ++ e))), w')
    | (Ok (Lines ls broken), w') => (stream_lines ls broken, w')
    end.

(** [grouped_requests[difficulty].append(req)], creating the list first when
    the key is new; keys stay in insertion order. *)
Fixpoint group_append (grouped : list (string * list ref)) (k : string) (req : ref)
  : list (string * list ref) :=
  match grouped with
  | [] => [(k, [req])]
  | (k', g) :: rest =>
      if String.eqb k k' then (k', (g ++ [req])%list) :: rest
      else (k', g) :: group_append rest k req
  end.

(** The first loop of [batch_infer]. *)
Fixpoint group_requests (requests : list ref) (grouped : list (string * list ref))
  : M (list (string * list ref)) :=
  match requests with
  | [] => ret grouped
  | req :: rest =>
      d <- resolve_difficulty req ;;
      group_requests rest (group_append grouped (value d) req)
  end.

(** One entry of the batch payload. *)
Definition batch_entry (req : ref) : M batch_item :=
  q <- get_request req ;;
  d <- match difficulty q with
       | Some d => ret d
       | None => raise (Exn AttributeError "'NoneType' object has no attribute 'value'")
       end ;;
  pt <- _get_inference_params d ;;
  pm <- _get_inference_params d ;;
  ret {| b_prompt := prompt q;
         b_temperature := params_temperature pt;
         b_max_tokens := params_max_tokens pm;
         b_context := or_empty (context q);
         b_session_id := session_id q;
         b_user_id := user_id q |}.

Fixpoint batch_entries (batch : list ref) : M (list batch_item) :=
  match batch with
  | [] => ret []
  | req :: rest =>
      item <- batch_entry req ;;
      items <- batch_entries rest ;;
      ret (item :: items)
  end.

(** [for j, result in enumerate(data["results"])] *)
Fixpoint batch_results (batch : list ref) (j : nat) (results : list pyvalue)
    (all_responses : list InferenceResponse) : M (list InferenceResponse) :=
  match results with
  | [] => ret all_responses
  | result_ :: rest =>
      text_ <- lift (getitem result_ "text") ;;
      model_ <- lift (get result_ "model" (PStr (self_model self))) ;;
      cluster <- lift (get result_ "cluster_id" (PStr "unknown")) ;;
      lat <- lift (get result_ "latency_ms" (PInt 0)) ;;
      tokens <- lift (get result_ "tokens_generated" (PInt 0)) ;;
      q <- match nth_error batch j with
           | Some req => get_request req
           | None => raise (Exn IndexError "list index out of range")
           end ;;
      stamp <- now out ;;
      batch_results batch (S j) rest
        (all_responses ++
         [{| text := text_; model := model_; cluster_id := cluster;
             latency_ms := Reported lat; tokens_generated := tokens;
             difficulty_used := difficulty q; timestamp := stamp |}])%list
  end.

(** The response put in place of a request whose single call raised. *)
Definition error_response (q : InferenceRequest) (e2 : exn) (stamp : Z)
  : InferenceResponse :=
  {| text := PStr ("Error: " ++ msg e2);
     model := PStr (self_model self);
     cluster_id := PStr "error";
     latency_ms := Reported (PInt 0);
     tokens_generated := PInt 0;
     difficulty_used := difficulty q;
     timestamp := stamp |}.

(** The [except httpx.HTTPError] branch: every request of the chunk on its
    own. *)
Fixpoint fallback (batch : list ref) (all_responses : list InferenceResponse)
  : M (list InferenceResponse) :=
  match batch with
  | [] => ret all_responses
  | req :: rest =>
      resp <- catch (infer_default req)
                (fun e2 =>
                   q <- get_request req ;;
                   stamp <- now out ;;
                   ret (error_response q e2 stamp)) ;;
      fallback rest (all_responses ++ [resp])%list
  end.

(** One chunk of a group. *)
Definition batch_chunk (batch : list ref) (all_responses : list InferenceResponse)
  : M (list InferenceResponse) :=
  items <- batch_entries batch ;;
  let batch_payload := {| bp_model := self_model self; bp_requests := items |} in
  response <- call out (Post "/v1/inference/batch" (Batch batch_payload)
                          (Finite 60)) ;;
  match response with
  | Replied b =>
      data <- json_of b ;;
      results <- lift (getitem data "results") ;;
      results <- lift (iter results) ;;
      batch_results batch 0 results all_responses
  | Failed _ => fallback batch all_responses
  end.

Fixpoint batch_chunks (req_group : list ref) (starts : list nat) (size : Z)
    (all_responses : list InferenceResponse) : M (list InferenceResponse) :=
  match starts with
  | [] => ret all_responses
  | i :: rest =>
      all_responses <-
        batch_chunk (slice req_group i (i + Z.to_nat size)) all_responses ;;
      batch_chunks req_group rest size all_responses
  end.

(** [for difficulty, req_group in grouped_requests.items()] *)
Fixpoint batch_groups (grouped : list (string * list ref))
    (all_responses : list InferenceResponse) : M (list InferenceResponse) :=
  match grouped with
  | [] => ret all_responses
  | (_, req_group) :: rest =>
      starts <- match range_step (length req_group) (batch_size self) with
                | Some l => ret l
                | None => raise (Exn ValueError "range() arg 3 must not be zero")
                end ;;
      all_responses <- batch_chunks req_group starts (batch_size self) all_responses ;;
      batch_groups rest all_responses
  end.

(** [batch_infer(requests)] *)
Definition batch_infer (requests : list ref) : M (list InferenceResponse) :=
  grouped_requests <- group_requests requests [] ;;
  batch_groups grouped_requests [].

(** [get_cluster_status()] *)
Definition get_cluster_status : M pyvalue :=
  response <- call out (Get "/v1/clusters/status") ;;
  match response with
  | Replied b => json_of b
  | Failed e => ret (PDict [("error", PStr e); ("clusters", PList [])])
  end.

End Worker.

(** ** Vocabulary of the statements *)

(** [matches kws s]: some keyword of [kws] occurs in the lower-cased [s]. *)
Definition matches (kws : list string) (prompt : string) : Prop :=
  exists kw, In kw kws /\ Py.contains kw (Py.lower prompt) = true.

(** The difficulty a dispatch works with: the one the request holds, or the
    classification of its prompt when it holds none. *)
Definition resolved (q : InferenceRequest) : DifficultyLevel :=
  match difficulty q with
  | Some d => d
  | None => _determine_difficulty (prompt q) (context q)
  end.

(** [k] attempts [ev] starting at index [attempt], a wait of [2^i] after
    attempt [i] and none after the last. *)
Fixpoint backoff (ev : event) (k : nat) (attempt : Z) : list event :=
  match k with
  | O => []
  | S O => [ev]
  | S k' => ev :: Sleep (2 ^ attempt) :: backoff ev k' (attempt + 1)
  end.

(** What a dispatch may do to a request object: nothing but fill in a
    missing difficulty with the classification of the prompt, and set the
    stream flag. *)
Definition keeps (q q' : InferenceRequest) : Prop :=
  prompt q' = prompt q /\ context q' = context q
  /\ session_id q' = session_id q /\ user_id q' = user_id q
  /\ temperature q' = temperature q /\ max_tokens q' = max_tokens q
  /\ (difficulty q' = difficulty q
      \/ (difficulty q = None
          /\ difficulty q' = Some (_determine_difficulty (prompt q) (context q)))).

Definition evolves (w w' : World) : Prop :=
  forall r, keeps (heap w r) (heap w' r).

(** A response that reports a failure. *)
Definition degraded (resp : InferenceResponse) : Prop :=
  (exists e, text resp = PStr ("Error: " ++ e))
  /\ cluster_id resp = PStr "error"
  /\ latency_ms resp = Reported (PInt 0)
  /\ tokens_generated resp = PInt 0.

(** A body the batch endpoint may answer a chunk of [n] requests with: one
    object holding a text per request. *)
Definition aligned (n : nat) (v : pyvalue) : Prop :=
  exists fields results,
    v = PDict fields /\ lookup "results" fields = Some (PList results)
    /\ length results = n
    /\ Forall (fun r => exists fs t, r = PDict fs /\ lookup "text" fs = Some t) results.

(** A sample of the scaling table, for the examples. *)
Definition sample_worker : OvershootInferenceWorker :=
  {| difficulty_levels :=
       [("easy", {| tier_temperature := 1 # 10; tier_max_tokens := 256;
                    tier_num_passes := 1; tier_timeout := "10s" |});
        ("medium", {| tier_temperature := 3 # 10; tier_max_tokens := 512;
                      tier_num_passes := 1; tier_timeout := "30s" |});
        ("hard", {| tier_temperature := 5 # 10; tier_max_tokens := 1024;
                    tier_num_passes := 2; tier_timeout := "60s" |});
        ("expert", {| tier_temperature := 7 # 10; tier_max_tokens := 2048;
                      tier_num_passes := 3; tier_timeout := "120s" |})];
     batch_size := 2;
     self_model := "overshoot-default" |}.

(** The same table with an unreadable timeout for the medium tier. *)
Definition misconfigured_worker : OvershootInferenceWorker :=
  {| difficulty_levels :=
       [("easy", {| tier_temperature := 1 # 10; tier_max_tokens := 256;
                    tier_num_passes := 1; tier_timeout := "10s" |});
        ("medium", {| tier_temperature := 3 # 10; tier_max_tokens := 512;
                      tier_num_passes := 1; tier_timeout := "30x" |})];
     batch_size := 2;
     self_model := "overshoot-default" |}.

(** A service that answers every call with a body that is not JSON. *)
Definition garbling : Outside :=
  {| on_call := fun _ _ => Replied (NotJson "Expecting value: line 1 column 1 (char 0)");
     on_stream := fun _ _ => Lines [] None;
     clock := fun n => Z.of_nat n |}.

(** A service no call to which succeeds. *)
Definition unreachable : Outside :=
  {| on_call := fun _ _ => Failed "connection refused";
     on_stream := fun _ _ => StreamFailed "connection refused";
     clock := fun n => Z.of_nat n |}.

(** A world holding the request [q] at every address, nothing done yet. *)
Definition fresh (q : InferenceRequest) : World :=
  {| heap := fun _ => q; calls := 0; ticks := 0; trace := [] |}.

(** A computation that makes no remote call and leaves no event. *)
Definition quiet {A} (m : M A) : Prop :=
  forall w, trace (snd (m w)) = trace w /\ calls (snd (m w)) = calls w.

(** A computation that treats every request object as [keeps] allows. *)
Definition stable {A} (m : M A) : Prop :=
  forall w, evolves w (snd (m w)).

(** What a dispatch of the requests [rs] leaves on the heap: those that held
    no difficulty hold the classification of their prompt, a difficulty held
    before is the one held after, and prompts and contexts are untouched. *)
Definition settles (rs : list ref) (w w' : World) : Prop :=
  (forall r, In r rs -> difficulty (heap w r) = None ->
     difficulty (heap w' r)
     = Some (_determine_difficulty (prompt (heap w r)) (context (heap w r))))
  /\ (forall r d, difficulty (heap w r) = Some d -> difficulty (heap w' r) = Some d)
  /\ (forall r, prompt (heap w' r) = prompt (heap w r)
                /\ context (heap w' r) = context (heap w r)).

(** Every request of [rs] holds a difficulty. *)
Definition ready (w : World) (rs : list ref) : Prop :=
  forall r, In r rs -> difficulty (heap w r) <> None.

(** No call to the service succeeds. *)
Definition all_fail (out : Outside) : Prop :=
  forall i ev, exists e, on_call out i ev = Failed e.

(** Every batch call fails or is answered with one result per request. *)
Definition batch_replies_aligned (out : Outside) : Prop :=
  forall i path b t,
    (exists e, on_call out i (Post path (Batch b) t) = Failed e)
    \/ (exists v, on_call out i (Post path (Batch b) t) = Replied (Json v)
                  /\ aligned (length (bp_requests b)) v).

(** A service that answers every call with an empty list of results. *)
Definition forgetful : Outside :=
  {| on_call := fun _ _ => Replied (Json (PDict [("results", PList [])]));
     on_stream := fun _ _ => Lines [] None;
     clock := fun n => Z.of_nat n |}.

(** The requests of all groups, group after group. *)
Definition members (grouped : list (string * list ref)) : list ref :=
  concat (map snd grouped).

(** The outcome [x] of a step run from [w] with [acc] collected so far: it
    returns [acc] with [n] more responses, all degraded when no call
    succeeds, and has treated the requests as [keeps] allows. *)
Definition yields (out : Outside) (n : nat) (acc : list InferenceResponse)
    (w : World) (x : result (list InferenceResponse) * World) : Prop :=
  exists rs,
    fst x = Ok (acc ++ rs)%list /\ length rs = n
    /\ (all_fail out -> Forall degraded rs)
    /\ evolves w (snd x).

(** Every difficulty has an entry in the table. *)
Definition tiers_complete (self : OvershootInferenceWorker) : Prop :=
  forall d, find_tier (value d) (difficulty_levels self) <> None.

(** A request that asks for its own temperature and token budget. *)
Definition overriding_request : InferenceRequest :=
  {| prompt := "Hello";
     difficulty := Some EASY;
     session_id := None;
     user_id := None;
     context := None;
     stream := false;
     temperature := Some (9 # 10);
     max_tokens := Some 64%Z |}.

(** A request built with [difficulty=None]. *)
Definition unclassified_request (p : string) : InferenceRequest :=
  {| prompt := p;
     difficulty := None;
     session_id := None;
     user_id := None;
     context := None;
     stream := false;
     temperature := None;
     max_tokens := None |}.

(** The value of [fields.get(k, default)]. *)
Definition field_or (fields : list (string * pyvalue)) (k : string)
    (default : pyvalue) : pyvalue :=
  match lookup k fields with
  | Some x => x
  | None => default
  end.

(** The seconds waited in a run of events. *)
Fixpoint slept (evs : list event) : Z :=
  match evs with
  | [] => 0
  | Sleep n :: rest => n + slept rest
  | _ :: rest => slept rest
  end.

(** A service whose first [n] calls fail and whose later calls are answered
    with [v]. *)
Definition flaky (n : nat) (v : pyvalue) : Outside :=
  {| on_call := fun i _ => if (i <? n)%nat then Failed "read timeout"
                           else Replied (Json v);
     on_stream := fun _ _ => StreamFailed "read timeout";
     clock := fun n => (Z.of_nat n * 1000)%Z |}.

(** A table with no entry for the medium tier. *)
Definition partial_worker : OvershootInferenceWorker :=
  {| difficulty_levels :=
       [("easy", {| tier_temperature := 1 # 10; tier_max_tokens := 256;
                    tier_num_passes := 1; tier_timeout := "10s" |})];
     batch_size := 2;
     self_model := "overshoot-default" |}.

(** A computation that changes no request outside [rs] and no stream flag. *)
Definition confined {A} (rs : list ref) (m : M A) : Prop :=
  forall w r,
    (~ In r rs -> heap (snd (m w)) r = heap w r)
    /\ stream (heap (snd (m w)) r) = stream (heap w r).

(** Two states of a request that differ at most in the difficulty held. *)
Definition same_but_difficulty (q q' : InferenceRequest) : Prop :=
  prompt q' = prompt q /\ context q' = context q
  /\ session_id q' = session_id q /\ user_id q' = user_id q
  /\ temperature q' = temperature q /\ max_tokens q' = max_tokens q
  /\ stream q' = stream q.

(** The group a request belongs to: the name of its resolved difficulty. *)
Definition key_of (w : World) (r : ref) : string := value (resolved (heap w r)).

(** [grouped_requests[k]], empty when the key is absent. *)
Fixpoint group_of (k : string) (grouped : list (string * list ref)) : list ref :=
  match grouped with
  | [] => []
  | (k', g) :: rest => if String.eqb k k' then g else group_of k rest
  end.

(** An event a batch dispatch may leave: a batch call goes to the batch
    endpoint under the fixed timeout with the worker's model and between one
    and [batch_size] entries; single calls and waits are not constrained. *)
Definition chunk_sized (self : OvershootInferenceWorker) (ev : event) : Prop :=
  match ev with
  | Post path (Batch b) tmo =>
      path = "/v1/inference/batch" /\ tmo = Finite 60
      /\ bp_model b = self_model self
      /\ (1 <= length (bp_requests b) <= Z.to_nat (batch_size self))%nat
  | Post path (Single json) tmo =>
      path = "/v1/inference" /\ p_model json = self_model self
      /\ exists d t,
           find_tier (value d) (difficulty_levels self) = Some t
           /\ Py.float (remove_char "s" (tier_timeout t)) = Some tmo
  | Sleep _ => True
  | _ => False
  end.

(** A computation all of whose events satisfy [P]. *)
Definition emits {A} (P : event -> Prop) (m : M A) : Prop :=
  forall w, exists evs,
    trace (snd (m w)) = (trace w ++ evs)%list /\ Forall P evs.

(** The worker with another chunk size. *)
Definition with_batch_size (self : OvershootInferenceWorker) (n : Z)
  : OvershootInferenceWorker :=
  {| difficulty_levels := difficulty_levels self;
     batch_size := n;
     self_model := self_model self |}.

(** The payloads of the batch calls among some events, in order. *)
Fixpoint batch_posts (evs : list event) : list batch_payload :=
  match evs with
  | [] => []
  | Post _ (Batch b) _ :: rest => b :: batch_posts rest
  | _ :: rest => batch_posts rest
  end.

(** The entry a batch payload holds for the request [q]: its prompt, context
    and identifiers with the temperature and token budget of its tier. *)
Definition sent_as (self : OvershootInferenceWorker) (q : InferenceRequest)
    (item : batch_item) : Prop :=
  exists t,
    find_tier (value (resolved q)) (difficulty_levels self) = Some t
    /\ item = {| b_prompt := prompt q;
                 b_temperature := tier_temperature t;
                 b_max_tokens := tier_max_tokens t;
                 b_context := or_empty (context q);
                 b_session_id := session_id q;
                 b_user_id := user_id q |}.

(** The response built from one result of a batch answer. *)
Definition answers (self : OvershootInferenceWorker) (res : pyvalue)
    (resp : InferenceResponse) : Prop :=
  exists fs t,
    res = PDict fs /\ lookup "text" fs = Some t
    /\ text resp = t
    /\ model resp = field_or fs "model" (PStr (self_model self))
    /\ cluster_id resp = field_or fs "cluster_id" (PStr "unknown")
    /\ latency_ms resp = Reported (field_or fs "latency_ms" (PInt 0))
    /\ tokens_generated resp = field_or fs "tokens_generated" (PInt 0).

(** The outcome [x] of a step run from [w] with [acc] collected so far: it
    returns [acc] with one response per request of [answered], each
    recording the difficulty of its request, in order; its batch calls carry
    the entries of the requests of [sent], in order. *)
Definition serves (self : OvershootInferenceWorker) (answered sent : list ref)
    (acc : list InferenceResponse) (w : World)
    (x : result (list InferenceResponse) * World) : Prop :=
  exists rs evs,
    fst x = Ok (acc ++ rs)%list
    /\ map difficulty_used rs = map (fun r => Some (resolved (heap w r))) answered
    /\ trace (snd x) = (trace w ++ evs)%list
    /\ Forall2 (fun r item => sent_as self (heap w r) item) sent
         (concat (map bp_requests (batch_posts evs)))
    /\ evolves w (snd x).

(** A result of a batch answer that can be turned into a response: an object
    holding a text. *)
Definition has_text (res : pyvalue) : Prop :=
  exists fs t, res = PDict fs /\ lookup "text" fs = Some t.

(** A service that answers every call with the results [results]. *)
Definition answering (results : list pyvalue) : Outside :=
  {| on_call := fun _ _ => Replied (Json (PDict [("results", PList results)]));
     on_stream := fun _ _ => Lines [] None;
     clock := fun n => Z.of_nat n |}.

(** A line that cannot end the stream: an empty or undecodable one, or an
    object that holds a token or holds no error. *)
Definition passes (l : line) : Prop :=
  match l with
  | Blank => True
  | Garbage _ => True
  | Record_ (PDict fs) => lookup "token" fs <> None \/ lookup "error" fs = None
  | Record_ _ => False
  end.

(** The token a line hands to the consumer, if any. *)
Definition token_of (l : line) : list pyvalue :=
  match l with
  | Record_ (PDict fs) =>
      match lookup "token" fs with
      | Some t => [t]
      | None => []
      end
  | _ => []
  end.

(** A decoded line that makes the stream raise [TypeError]: a number, a
    boolean or null, or a string or list in which "token" is found. *)
Definition breaks_stream (v : pyvalue) : Prop :=
  match v with
  | PNone | PBool _ | PInt _ | PFloat _ => True
  | PStr s => Py.contains "token" s = true
  | PList items => existsb (is_str "token") items = true
  | PDict _ => False
  end.

(** The place of a difficulty in the order the classifier tests them. *)
Definition rank (d : DifficultyLevel) : nat :=
  match d with
  | EASY => 0
  | MEDIUM => 1
  | HARD => 2
  | EXPERT => 3
  end.

(** A service whose streams deliver the lines [ls]. *)
Definition streaming (ls : list line) (broken : option string) : Outside :=
  {| on_call := fun _ _ => Failed "connection refused";
     on_stream := fun _ _ => Lines ls broken;
     clock := fun n => Z.of_nat n |}.

(** ** The compliance checker ([src/kairo/compliance_check.py])

    The rule table is the decoded [guardrails.json]: a rule or check is an
    object whose entries, where present, have the types the checker expects
    (strings, lists of strings, booleans, integers); [None] stands for a key
    that is absent. *)
Module Kairo.

(** [class ViolationSeverity(Enum)] *)
Inductive ViolationSeverity := LOW | MEDIUM | HIGH | CRITICAL.

(** [class Action(Enum)] *)
Inductive Action := ALLOW | WARN | BLOCK.

(** [Action.value] *)
Definition action_value (a : Action) : string :=
  match a with
  | ALLOW => "allow"
  | WARN => "warn"
  | BLOCK => "block"
  end.

(** [ViolationSeverity(s)]: the member with that value, or [ValueError]. *)
Definition severity_of (s : string) : result ViolationSeverity :=
  if String.eqb s "low" then Ok LOW
  else if String.eqb s "medium" then Ok MEDIUM
  else if String.eqb s "high" then Ok HIGH
  else if String.eqb s "critical" then Ok CRITICAL
  else Raised (Exn ValueError (repr_str s ++ " is not a valid ViolationSeverity")).

(** One entry of [violations]. *)
Record Violation := {
  v_rule_id : string;
  v_rule_name : string;
  v_severity : string;
  v_description : string;
  v_details : string
}.

(** [class ComplianceResult] *)
Record ComplianceResult := {
  is_compliant : bool;
  violations : list Violation;
  action : Action;
  message : option string;
  confidence : Q
}.

(** A check of a rule: the entries [_execute_check] reads. *)
Record Check := {
  type_ : option string;
  pattern : option string;
  flags : option string;
  keywords : option (list string);
  case_sensitive : option bool;
  min_length : option Z;
  max_length : option Z;
  service : option string
}.

(** A rule; [check] is [None] when the key is absent or holds an empty
    object, [checks] is empty when the key is absent. *)
Record Rule := {
  id : option string;
  name : option string;
  severity : option string;
  description : option string;
  rule_action : option string;
  rule_message : option string;
  check : option Check;
  checks : list Check
}.

(** The dict a check returns: ["compliant"] and, sometimes, ["details"]. *)
Record Outcome := {
  compliant : bool;
  details : option string
}.

Definition passed : Outcome := {| compliant := true; details := None |}.

Definition failed (d : string) : Outcome :=
  {| compliant := false; details := Some d |}.

(** [o == s] for an optional string [o]. *)
Definition equals (o : option string) (s : string) : bool :=
  match o with
  | Some x => String.eqb x s
  | None => false
  end.

(** [d[k]] for a key the code requires. *)
Definition required (o : option string) (k : string) : result string :=
  match o with
  | Some x => Ok x
  | None => Raised (Exn KeyError (repr_str k))
  end.

(** The keyword loop of [_execute_check]: the first keyword found. *)
Fixpoint first_keyword (kws : list string) (sensitive : bool) (text_to_check : string)
  : option string :=
  match kws with
  | [] => None
  | keyword :: rest =>
      if sensitive then
        if Py.contains keyword text_to_check then Some keyword
        else first_keyword rest sensitive text_to_check
      else
        if Py.contains (Py.lower keyword) (Py.lower text_to_check) then Some keyword
        else first_keyword rest sensitive text_to_check
  end.

(** [_severity_priority] *)
Definition _severity_priority (s : ViolationSeverity) : Z :=
  match s with
  | LOW => 1
  | MEDIUM => 2
  | HIGH => 3
  | CRITICAL => 4
  end.

(** [max(l, key=key)] of a list that starts with [best]: the first element
    whose key is the largest. *)
Fixpoint max_by {A} (key : A -> Z) (best : A) (l : list A) : A :=
  match l with
  | [] => best
  | x :: rest =>
      if (key best <? key x)%Z then max_by key x rest else max_by key best rest
  end.

(** What the loop of [check_compliance] carries from rule to rule. *)
Record Progress := {
  so_far : list Violation;
  highest_severity : option ViolationSeverity;
  current : Action
}.

Section Checker.

(** [re.search(pattern, text, re.IGNORECASE if ignore_case else 0)], as the
    truth value of its result; it raises on a pattern that does not
    compile. *)
Variable re_search : string -> string -> bool -> result bool.

(** [_execute_check] *)
Definition _execute_check (c : Check) (user_input ai_output : string)
    (context : option (list (string * pyvalue))) : result Outcome :=
  let check_type := type_ c in
  if equals check_type "regex" then
    let fl := match flags c with Some f => f | None => "" end in
    let ignore_case := Py.contains "i" fl in
    match pattern c with
    | None =>
        Raised (Exn TypeError "first argument must be string or compiled pattern")
    | Some pat =>
        match re_search pat ai_output ignore_case with
        | Raised e => Raised e
        | Ok true => Ok (failed ("Pattern matched: " ++ pat))
        | Ok false => Ok passed
        end
    end
  else if equals check_type "keyword" then
    let kws := match keywords c with Some l => l | None => [] end in
    let sensitive := match case_sensitive c with Some b => b | None => true end in
    let text_to_check := user_input ++ " " ++ ai_output in
    match first_keyword kws sensitive text_to_check with
    | Some keyword => Ok (failed ("Keyword detected: " ++ keyword))
    | None => Ok passed
    end
  else if equals check_type "length" then
    let lo := match min_length c with Some n => n | None => 0%Z end in
    let n := Z.of_nat (String.length ai_output) in
    if (n <? lo)%Z then
      Ok (failed ("Output too short: " ++ str_int n ++ " < " ++ str_int lo))
    else
      match max_length c with
      | Some hi =>
          if (hi <? n)%Z then
            Ok (failed ("Output too long: " ++ str_int n ++ " > " ++ str_int hi))
          else Ok passed
      | None => Ok passed
      end
  else if equals check_type "external" then
    if equals (service c) "seda_verification" then
      Ok {| compliant := true;
            details := Some "SEDA verification would be performed here" |}
    else Ok passed
  else Ok passed.

(** The loop over ["checks"]: the first check that fails decides. *)
Fixpoint all_checks (cs : list Check) (user_input ai_output : string)
    (context : option (list (string * pyvalue))) : result Outcome :=
  match cs with
  | [] => Ok passed
  | c :: rest =>
      match _execute_check c user_input ai_output context with
      | Raised e => Raised e
      | Ok r =>
          if compliant r then all_checks rest user_input ai_output context
          else Ok r
      end
  end.

(** [_check_rule] *)
Definition _check_rule (rule : Rule) (user_input ai_output : string)
    (context : option (list (string * pyvalue))) : result Outcome :=
  match check rule with
  | Some check_config => _execute_check check_config user_input ai_output context
  | None => all_checks (checks rule) user_input ai_output context
  end.

(** One turn of the loop of [check_compliance]. *)
Definition check_one (rule : Rule) (user_input ai_output : string)
    (context : option (list (string * pyvalue))) (st : Progress)
  : result Progress :=
  match _check_rule rule user_input ai_output context with
  | Raised e => Raised e
  | Ok rule_result =>
      if compliant rule_result then Ok st
      else
        match required (id rule) "id" with
        | Raised e => Raised e
        | Ok rid =>
        match required (name rule) "name" with
        | Raised e => Raised e
        | Ok rname =>
        match required (severity rule) "severity" with
        | Raised e => Raised e
        | Ok rsev =>
        match required (description rule) "description" with
        | Raised e => Raised e
        | Ok rdesc =>
            let v := {| v_rule_id := rid; v_rule_name := rname;
                        v_severity := rsev; v_description := rdesc;
                        v_details := match details rule_result with
                                     | Some d => d
                                     | None => ""
                                     end |} in
            match severity_of rsev with
            | Raised e => Raised e
            | Ok sev =>
                let act :=
                  match sev with
                  | CRITICAL | HIGH =>
                      if equals (rule_action rule) "block" then BLOCK else current st
                  | MEDIUM =>
                      match current st with
                      | BLOCK => BLOCK
                      | a => if equals (rule_action rule) "warn" then WARN else a
                      end
                  | LOW => current st
                  end in
                let hi :=
                  match highest_severity st with
                  | None => Some sev
                  | Some h =>
                      if (_severity_priority h <? _severity_priority sev)%Z
                      then Some sev else Some h
                  end in
                Ok {| so_far := (so_far st ++ [v])%list;
                      highest_severity := hi;
                      current := act |}
            end
        end end end end
  end.

Fixpoint check_all (rules : list Rule) (user_input ai_output : string)
    (context : option (list (string * pyvalue))) (st : Progress)
  : result Progress :=
  match rules with
  | [] => Ok st
  | rule :: rest =>
      match check_one rule user_input ai_output context st with
      | Raised e => Raised e
      | Ok st' => check_all rest user_input ai_output context st'
      end
  end.

(** The priority [max] orders the violations by; their severities have
    passed [ViolationSeverity(...)] in the loop already. *)
Definition violation_priority (v : Violation) : Z :=
  match severity_of (v_severity v) with
  | Ok s => _severity_priority s
  | Raised _ => 0%Z
  end.

(** The second loop: the message of the first rule with the given id. *)
Fixpoint find_message (rules : list Rule) (rid : string) : result (option string) :=
  match rules with
  | [] => Ok None
  | rule :: rest =>
      match required (id rule) "id" with
      | Raised e => Raised e
      | Ok x =>
          if String.eqb x rid then
            Ok (Some match rule_message rule with
                     | Some m => m
                     | None => "Compliance violation detected"
                     end)
          else find_message rest rid
      end
  end.

(** [check_compliance] on the rules [rules] of the checker. *)
Definition check_compliance (rules : list Rule) (user_input ai_output : string)
    (context : option (list (string * pyvalue))) : result ComplianceResult :=
  match check_all rules user_input ai_output context
          {| so_far := []; highest_severity := None; current := ALLOW |} with
  | Raised e => Raised e
  | Ok st =>
      match
        match so_far st with
        | [] => Ok None
        | v :: vs =>
            let highest_priority_violation := max_by violation_priority v vs in
            find_message rules (v_rule_id highest_priority_violation)
        end
      with
      | Raised e => Raised e
      | Ok msg =>
          Ok {| is_compliant := match so_far st with [] => true | _ => false end;
                violations := so_far st;
                action := current st;
                message := msg;
                confidence := 1 |}
      end
  end.

End Checker.

Definition jailbreak_keywords : list string :=
  ["ignore previous instructions"; "forget your instructions"; "act as if";
   "pretend to be"; "you are now"; "system override"; "developer mode";
   "jailbreak"].

(** [check_jailbreak_attempt] *)
Definition check_jailbreak_attempt (user_input : string) : bool :=
  let user_input_lower := Py.lower user_input in
  Py.any (fun keyword => Py.contains keyword user_input_lower) jailbreak_keywords.

Definition step_indicators : list string :=
  ["step 1"; "step 2"; "first"; "second"; "next"; "then";
   "let's break this down"; "here's how"; "we can solve this";
   "to solve this"; "the process"; "reasoning"].

(** [requires_step_by_step] *)
Definition requires_step_by_step (ai_output : string) : bool :=
  let output_lower := Py.lower ai_output in
  Py.any (fun indicator => Py.contains indicator output_lower) step_indicators.

End Kairo.

(** ** Vocabulary of the compliance statements *)

(** The rule fails on the exchange: its check returns a result that is not
    compliant. *)
Definition violates (re_search : string -> string -> bool -> result bool)
    (user_input ai_output : string) (context : option (list (string * pyvalue)))
    (rule : Kairo.Rule) : bool :=
  match Kairo._check_rule re_search rule user_input ai_output context with
  | Ok r => negb (Kairo.compliant r)
  | Raised _ => false
  end.

(** A rule of high or critical severity whose action is ["block"]. *)
Definition blocking (rule : Kairo.Rule) : bool :=
  (Kairo.equals (Kairo.severity rule) "high"
   || Kairo.equals (Kairo.severity rule) "critical")
  && Kairo.equals (Kairo.rule_action rule) "block".

(** A rule of medium severity whose action is ["warn"]. *)
Definition warning (rule : Kairo.Rule) : bool :=
  Kairo.equals (Kairo.severity rule) "medium"
  && Kairo.equals (Kairo.rule_action rule) "warn".

(** The action after a violation of [rule], from the action before it. *)
Definition escalate (rule : Kairo.Rule) (a : Kairo.Action) : Kairo.Action :=
  if blocking rule then Kairo.BLOCK
  else if warning rule then
    match a with Kairo.BLOCK => Kairo.BLOCK | _ => Kairo.WARN end
  else a.

(** The violation [v] is the record of the failure of [rule]. *)
Definition recorded (re_search : string -> string -> bool -> result bool)
    (user_input ai_output : string) (context : option (list (string * pyvalue)))
    (rule : Kairo.Rule) (v : Kairo.Violation) : Prop :=
  Kairo.id rule = Some (Kairo.v_rule_id v)
  /\ Kairo.name rule = Some (Kairo.v_rule_name v)
  /\ Kairo.severity rule = Some (Kairo.v_severity v)
  /\ Kairo.description rule = Some (Kairo.v_description v)
  /\ exists r,
       Kairo._check_rule re_search rule user_input ai_output context = Ok r
       /\ Kairo.v_details v
          = match Kairo.details r with Some d => d | None => "" end.

(** The message a rule carries, or the default one. *)
Definition message_of (rule : Kairo.Rule) : string :=
  match Kairo.rule_message rule with
  | Some m => m
  | None => "Compliance violation detected"
  end.

(** The result for an exchange no rule objects to. *)
Definition clean : Kairo.ComplianceResult :=
  {| Kairo.is_compliant := true;
     Kairo.violations := [];
     Kairo.action := Kairo.ALLOW;
     Kairo.message := None;
     Kairo.confidence := 1 |}.

(** A check passes on the exchange. *)
Definition check_passes (re_search : string -> string -> bool -> result bool)
    (user_input ai_output : string) (context : option (list (string * pyvalue)))
    (c : Kairo.Check) : Prop :=
  exists r,
    Kairo._execute_check re_search c user_input ai_output context = Ok r
    /\ Kairo.compliant r = true.

(** The four strings [ViolationSeverity] accepts. *)
Definition valid_severity (s : string) : bool :=
  String.eqb s "low" || String.eqb s "medium"
  || String.eqb s "high" || String.eqb s "critical".

(** A keyword check. *)
Definition keyword_check (kws : option (list string)) (sensitive : option bool)
  : Kairo.Check :=
  {| Kairo.type_ := Some "keyword"; Kairo.pattern := None; Kairo.flags := None;
     Kairo.keywords := kws; Kairo.case_sensitive := sensitive;
     Kairo.min_length := None; Kairo.max_length := None;
     Kairo.service := None |}.

(** A length check. *)
Definition length_check (lo hi : option Z) : Kairo.Check :=
  {| Kairo.type_ := Some "length"; Kairo.pattern := None; Kairo.flags := None;
     Kairo.keywords := None; Kairo.case_sensitive := None;
     Kairo.min_length := lo; Kairo.max_length := hi;
     Kairo.service := None |}.

(** A rule with one check. *)
Definition rule_with (rid sev : string) (act msg : option string)
    (c : Kairo.Check) : Kairo.Rule :=
  {| Kairo.id := Some rid; Kairo.name := Some rid; Kairo.severity := Some sev;
     Kairo.description := Some rid; Kairo.rule_action := act;
     Kairo.rule_message := msg; Kairo.check := Some c; Kairo.checks := [] |}.

(** A regular-expression engine that finds nothing. *)
Definition no_match (pat text : string) (ignore_case : bool) : result bool :=
  Ok false.

(** A small rule table: a blocking keyword rule, a warning length rule and
    a low-severity keyword rule. *)
Definition sample_rules : list Kairo.Rule :=
  [rule_with "no_bomb" "high" (Some "block") (Some "Blocked.")
     (keyword_check (Some ["bomb"]) (Some false));
   rule_with "short" "medium" (Some "warn") None (length_check None (Some 3%Z));
   rule_with "mild" "low" (Some "block") (Some "Mind the greeting.")
     (keyword_check (Some ["hello"]) None)].

(** The verdict of [sample_rules] on the input "hi" and the output "hello". *)
Definition sample_verdict : Kairo.ComplianceResult :=
  {| Kairo.is_compliant := false;
     Kairo.violations :=
       [{| Kairo.v_rule_id := "short"; Kairo.v_rule_name := "short";
           Kairo.v_severity := "medium"; Kairo.v_description := "short";
           Kairo.v_details := "Output too long: 5 > 3" |};
        {| Kairo.v_rule_id := "mild"; Kairo.v_rule_name := "mild";
           Kairo.v_severity := "low"; Kairo.v_description := "mild";
           Kairo.v_details := "Keyword detected: hello" |}];
     Kairo.action := Kairo.WARN;
     Kairo.message := Some "Compliance violation detected";
     Kairo.confidence := 1 |}.

(** The checks [_check_rule] runs for a rule: ["check"] alone when the rule
    has one, its ["checks"] otherwise. *)
Definition effective_checks (rule : Kairo.Rule) : list Kairo.Check :=
  match Kairo.check rule with
  | Some c => [c]
  | None => Kairo.checks rule
  end.

(** None of the checks the rule runs is a keyword check. *)
Definition keyword_free (rule : Kairo.Rule) : Prop :=
  Forall (fun c => Kairo.equals (Kairo.type_ c) "keyword" = false)
         (effective_checks rule).

(** A rule with the four entries a violation record needs, a severity that
    [ViolationSeverity] accepts, and a pattern in each regex check it runs. *)
Definition well_formed (rule : Kairo.Rule) : Prop :=
  Kairo.id rule <> None /\ Kairo.name rule <> None
  /\ Kairo.description rule <> None
  /\ (exists s, Kairo.severity rule = Some s /\ valid_severity s = true)
  /\ Forall (fun c => Kairo.equals (Kairo.type_ c) "regex" = true ->
                      Kairo.pattern c <> None)
            (effective_checks rule).

(** The text as a keyword check compares it: as it is, or lower-cased when
    the check is not case sensitive. *)
Definition folded (sensitive : bool) (s : string) : string :=
  if sensitive then s else Py.lower s.

(** A rule that lacks every descriptive entry and runs the checks [cs]. *)
Definition bare_rule (cs : list Kairo.Check) : Kairo.Rule :=
  {| Kairo.id := None; Kairo.name := None; Kairo.severity := None;
     Kairo.description := None; Kairo.rule_action := None;
     Kairo.rule_message := None; Kairo.check := None; Kairo.checks := cs |}.

(** A regex check without a pattern. *)
Definition patternless : Kairo.Check :=
  {| Kairo.type_ := Some "regex"; Kairo.pattern := None; Kairo.flags := None;
     Kairo.keywords := None; Kairo.case_sensitive := None;
     Kairo.min_length := None; Kairo.max_length := None;
     Kairo.service := None |}.

(** The table of [sample_worker] with the unit letter in the middle of the
    timeout of the medium tier. *)
Definition misplaced_unit_worker : OvershootInferenceWorker :=
  {| difficulty_levels :=
       [("easy", {| tier_temperature := 1 # 10; tier_max_tokens := 256;
                    tier_num_passes := 1; tier_timeout := "10s" |});
        ("medium", {| tier_temperature := 3 # 10; tier_max_tokens := 512;
                      tier_num_passes := 1; tier_timeout := "3s0" |})];
     batch_size := 2;
     self_model := "overshoot-default" |}.

(** ** Facts about the built-ins *)

Lemma prefix_app (n b : string) : String.prefix n (n ++ b) = true.
Proof.
  induction n as [|c n IH]; simpl; [now destruct b|].
  now destruct (ascii_dec c c).
Qed.

Lemma prefix_inv (n h : string) :
  String.prefix n h = true -> exists b, h = n ++ b.
Proof.
  revert h; induction n as [|c n IH]; intros h H.
  - now exists h.
  - destruct h as [|d h]; simpl in H; [discriminate|].
    destruct (ascii_dec c d) as [->|]; [|discriminate].
    destruct (IH _ H) as [b ->]. now exists b.
Qed.

Lemma contains_app (pre kw post : string) :
  Py.contains kw (pre ++ kw ++ post) = true.
Proof.
  induction pre as [|c pre IH].
  - pose proof (prefix_app kw post) as P. cbn [append].
    destruct (kw ++ post); cbn [Py.contains]; rewrite P; reflexivity.
  - simpl. rewrite IH. apply orb_true_r.
Qed.

Lemma contains_inv (kw s : string) :
  Py.contains kw s = true -> exists pre post, s = pre ++ kw ++ post.
Proof.
  induction s as [|c s IH]; cbn [Py.contains]; intros H.
  - rewrite orb_false_r in H. destruct (prefix_inv _ _ H) as [b Hb].
    now exists "", b.
  - apply orb_true_iff in H as [H|H].
    + destruct (prefix_inv _ _ H) as [b Hb]. exists "", b. exact Hb.
    + destruct (IH H) as (pre & post & ->). now exists (String c pre), post.
Qed.

Lemma contains_iff (kw s : string) :
  Py.contains kw s = true <-> exists pre post, s = pre ++ kw ++ post.
Proof.
  split; [apply contains_inv|]. intros (pre & post & ->). apply contains_app.
Qed.

Lemma lower_app (a b : string) : Py.lower (a ++ b) = Py.lower a ++ Py.lower b.
Proof. induction a as [|c a IH]; simpl; [reflexivity|]. now rewrite IH. Qed.

Lemma any_true_iff {A} (p : A -> bool) (xs : list A) :
  Py.any p xs = true <-> exists x, In x xs /\ p x = true.
Proof. apply existsb_exists. Qed.

Lemma any_matches (kws : list string) (prompt : string) :
  Py.any (fun keyword => Py.contains keyword (Py.lower prompt)) kws = true
  <-> matches kws prompt.
Proof. apply any_true_iff. Qed.

Lemma any_not_matches (kws : list string) (prompt : string) :
  Py.any (fun keyword => Py.contains keyword (Py.lower prompt)) kws = false
  <-> ~ matches kws prompt.
Proof.
  rewrite <- any_matches. destruct (Py.any _ kws); split; congruence.
Qed.

(** Every keyword of the three tables is already lower case. *)
Lemma keywords_lower (kw : string) :
  In kw (expert_keywords ++ hard_keywords ++ medium_keywords) -> Py.lower kw = kw.
Proof.
  simpl. intros H.
  repeat (destruct H as [<-|H]; [reflexivity|]). contradiction.
Qed.

(** The classifier, case by case. *)
Lemma classify_cases prompt context :
  (matches expert_keywords prompt -> _determine_difficulty prompt context = EXPERT)
  /\ (~ matches expert_keywords prompt -> matches hard_keywords prompt ->
      _determine_difficulty prompt context = HARD)
  /\ (~ matches expert_keywords prompt -> ~ matches hard_keywords prompt ->
      matches medium_keywords prompt -> _determine_difficulty prompt context = MEDIUM)
  /\ (~ matches expert_keywords prompt -> ~ matches hard_keywords prompt ->
      ~ matches medium_keywords prompt -> _determine_difficulty prompt context = EASY).
Proof.
  unfold _determine_difficulty.
  repeat split; intros;
    repeat match goal with
      | H : matches _ _ |- _ => apply any_matches in H; rewrite H
      | H : ~ matches _ _ |- _ => apply any_not_matches in H; rewrite H
      end; reflexivity.
Qed.

(** A keyword found in the prompt as written is found after lower-casing. *)
Lemma keyword_survives_lower (kws : list string) (prompt pre kw post : string) :
  In kw kws -> Py.lower kw = kw -> prompt = pre ++ kw ++ post -> matches kws prompt.
Proof.
  intros Hin Hkw ->. exists kw. split; [exact Hin|].
  rewrite !lower_app, Hkw. apply contains_app.
Qed.

(** ** The classifier *)

(** C5: the classifier tests the lower-cased prompt against the expert, hard
    and medium keywords in that order and falls through to easy; an expert
    keyword wins whatever else the prompt contains, a prompt matching no
    keyword is easy, and the result depends on the prompt alone. *)
Theorem determine_difficulty_precedence prompt context :
  (matches expert_keywords prompt ->
   _determine_difficulty prompt context = EXPERT)
  /\ (forall pre kw post, In kw expert_keywords -> prompt = pre ++ kw ++ post ->
      _determine_difficulty prompt context = EXPERT)
  /\ (~ matches expert_keywords prompt -> matches hard_keywords prompt ->
      _determine_difficulty prompt context = HARD)
  /\ (~ matches expert_keywords prompt -> ~ matches hard_keywords prompt ->
      matches medium_keywords prompt ->
      _determine_difficulty prompt context = MEDIUM)
  /\ (~ matches (expert_keywords ++ hard_keywords ++ medium_keywords) prompt ->
      _determine_difficulty prompt context = EASY)
  /\ (forall context', _determine_difficulty prompt context'
                       = _determine_difficulty prompt context).
Proof.
  destruct (classify_cases prompt context) as (He & Hh & Hm & Hz).
  split; [exact He|]. split; [|split; [exact Hh|split; [exact Hm|split]]].
  - intros pre kw post Hin Heq. apply He.
    apply (keyword_survives_lower _ prompt pre kw post Hin); [|exact Heq].
    apply keywords_lower, in_or_app. now left.
  - intros Hnone. apply Hz; intros (kw & Hin & Hc); apply Hnone; exists kw;
      (split; [|exact Hc]); rewrite !in_app_iff; auto.
  - reflexivity.
Qed.

Lemma determine_difficulty_precedence_witness :
  matches expert_keywords "Prove what a complex number is"
  /\ _determine_difficulty "Prove what a complex number is" None = EXPERT
  /\ ~ matches (expert_keywords ++ hard_keywords ++ medium_keywords) "Hello there"
  /\ _determine_difficulty "Hello there" None = EASY.
Proof.
  assert (H1 : matches expert_keywords "Prove what a complex number is").
  { exists "prove". split; [simpl; auto | reflexivity]. }
  assert (H2 : ~ matches (expert_keywords ++ hard_keywords ++ medium_keywords)
                 "Hello there").
  { apply any_not_matches. reflexivity. }
  split; [exact H1|]. split.
  - exact (proj1 (determine_difficulty_precedence _ None) H1).
  - split; [exact H2|].
    exact (proj1 (proj2 (proj2 (proj2 (proj2
             (determine_difficulty_precedence _ None))))) H2).
Defined.

(** C6, as the code has it: the lower-cased prompt "what is 6 * 7?" contains
    the medium keyword "what" and no expert or hard keyword, so the prompt is
    classified medium. *)
Theorem six_times_seven_is_medium :
  matches medium_keywords "What is 6 * 7?"
  /\ ~ matches expert_keywords "What is 6 * 7?"
  /\ ~ matches hard_keywords "What is 6 * 7?"
  /\ _determine_difficulty "What is 6 * 7?" None = MEDIUM.
Proof.
  split; [exists "what"; split; [simpl; auto | reflexivity]|].
  split; [apply any_not_matches; reflexivity|].
  split; [apply any_not_matches; reflexivity|reflexivity].
Qed.

(** C6 as stated fails: the prompt does match a medium keyword and is not
    classified easy. *)
Lemma six_times_seven_not_easy :
  ~ (~ matches medium_keywords "What is 6 * 7?"
     /\ _determine_difficulty "What is 6 * 7?" None = EASY).
Proof. intros [_ H]. discriminate H. Qed.

(** C10: a keyword counts wherever its letters occur in the lower-cased
    prompt, also inside a longer word: the prompt is given the tier of such
    a keyword when no keyword of a higher tier occurs. *)
Theorem keyword_matches_inside_words prompt context (pre kw post : string) :
  Py.lower prompt = pre ++ kw ++ post ->
  (In kw expert_keywords -> _determine_difficulty prompt context = EXPERT)
  /\ (In kw hard_keywords -> ~ matches expert_keywords prompt ->
      _determine_difficulty prompt context = HARD)
  /\ (In kw medium_keywords -> ~ matches expert_keywords prompt ->
      ~ matches hard_keywords prompt ->
      _determine_difficulty prompt context = MEDIUM).
Proof.
  intros Heq.
  assert (Hc : Py.contains kw (Py.lower prompt) = true)
    by (rewrite Heq; apply contains_app).
  destruct (classify_cases prompt context) as (He & Hh & Hm & _).
  split; [|split].
  - intros Hin. apply He. now exists kw.
  - intros Hin Hne. apply Hh; [assumption|]. now exists kw.
  - intros Hin Hne Hnh. apply Hm; try assumption. now exists kw.
Qed.

Lemma keyword_matches_inside_words_witness :
  Py.lower "Showing up" = "s" ++ "how" ++ "ing up"
  /\ In "how" hard_keywords
  /\ ~ matches expert_keywords "Showing up"
  /\ _determine_difficulty "Showing up" None = HARD.
Proof.
  assert (H1 : Py.lower "Showing up" = "s" ++ "how" ++ "ing up") by reflexivity.
  assert (H2 : In "how" hard_keywords) by (simpl; auto 10).
  assert (H3 : ~ matches expert_keywords "Showing up")
    by (apply any_not_matches; reflexivity).
  split; [exact H1|]. split; [exact H2|]. split; [exact H3|].
  exact (proj1 (proj2 (keyword_matches_inside_words "Showing up" None _ _ _ H1)) H2 H3).
Defined.

(** ** Running computations *)

Lemma quiet_ret {A} (a : A) : quiet (ret a).
Proof. now intros w. Qed.

Lemma quiet_raise {A} (e : exn) : quiet (@raise A e).
Proof. now intros w. Qed.

Lemma quiet_lift {A} (r : result A) : quiet (lift r).
Proof. now intros w. Qed.

Lemma quiet_bind {A B} (m : M A) (k : A -> M B) :
  quiet m -> (forall a, quiet (k a)) -> quiet (bind m k).
Proof.
  intros Hm Hk w. unfold bind. specialize (Hm w).
  destruct (m w) as [[a|e] w1]; simpl in *; [|exact Hm].
  destruct (Hk a w1) as [H1 H2]. destruct Hm as [H3 H4]. split; congruence.
Qed.

Lemma quiet_get_request r : quiet (get_request r).
Proof. now intros w. Qed.

Lemma quiet_put_request r q : quiet (put_request r q).
Proof. now intros w. Qed.

Lemma quiet_now out : quiet (now out).
Proof. now intros w. Qed.

Lemma quiet_json_of b : quiet (json_of b).
Proof. destruct b; [apply quiet_raise | apply quiet_ret]. Qed.

Lemma quiet_parse_timeout t : quiet (parse_timeout t).
Proof.
  unfold parse_timeout. destruct (Py.float _); [apply quiet_ret | apply quiet_raise].
Qed.

Create HintDb quiet.

#[local] Hint Resolve quiet_ret quiet_raise quiet_lift quiet_get_request
  quiet_put_request quiet_now quiet_json_of quiet_parse_timeout : quiet.

Ltac quiet_steps :=
  repeat first
    [ solve [auto with quiet]
    | apply quiet_bind; [|intros]
    | match goal with
      | |- quiet (match ?x with _ => _ end) => destruct x
      end ].

Lemma quiet_set_difficulty r d : quiet (set_difficulty r d).
Proof. unfold set_difficulty. quiet_steps. Qed.

Lemma quiet_set_stream r : quiet (set_stream r).
Proof. unfold set_stream. quiet_steps. Qed.

#[local] Hint Resolve quiet_set_difficulty quiet_set_stream : quiet.

Lemma quiet_resolve_difficulty r : quiet (resolve_difficulty r).
Proof. unfold resolve_difficulty. quiet_steps. Qed.

Lemma quiet_get_inference_params self d : quiet (_get_inference_params self d).
Proof. unfold _get_inference_params. quiet_steps. Qed.

#[local] Hint Resolve quiet_resolve_difficulty quiet_get_inference_params : quiet.

Lemma backoff_step ev k attempt :
  (1 <= k)%nat ->
  backoff ev (S k) attempt = ev :: Sleep (2 ^ attempt) :: backoff ev k (attempt + 1).
Proof. destruct k; [lia | reflexivity]. Qed.

(** ** The retry loop *)

Section Retry.

Variable self : OvershootInferenceWorker.
Variable out : Outside.
Variables (request : ref) (json : payload) (p : params) (start_time retries : Z).
Variable timeout : pyfloat.
Hypothesis timeout_ok : Py.float (remove_char "s" (params_timeout p)) = Some timeout.

Let ev := Post "/v1/inference" (Single json) timeout.

Lemma infer_attempts_retry n attempt last w e :
  on_call out (calls w) ev = Failed e -> (attempt <? retries - 1)%Z = true ->
  infer_attempts self out request json p start_time retries (S n) attempt last w
  = infer_attempts self out request json p start_time retries n (attempt + 1) (Some e)
      (snd (sleep (2 ^ attempt) (snd (call out ev w)))).
Proof.
  intros Hreply Hlt. cbn [infer_attempts]. unfold parse_timeout.
  rewrite timeout_ok. unfold bind, call, ret. fold ev. rewrite Hreply, Hlt.
  reflexivity.
Qed.

Lemma infer_attempts_give_up n attempt last w e :
  on_call out (calls w) ev = Failed e -> (attempt <? retries - 1)%Z = false ->
  infer_attempts self out request json p start_time retries (S n) attempt last w
  = (Raised (Exn HTTPError e), snd (call out ev w)).
Proof.
  intros Hreply Hlt. cbn [infer_attempts]. unfold parse_timeout.
  rewrite timeout_ok. unfold bind, call, ret. fold ev. rewrite Hreply, Hlt.
  reflexivity.
Qed.

Lemma infer_attempts_replied n attempt last w b :
  on_call out (calls w) ev = Replied b ->
  exists m : M InferenceResponse,
    quiet m
    /\ infer_attempts self out request json p start_time retries (S n) attempt last w
       = m (snd (call out ev w)).
Proof.
  intros Hreply. cbn [infer_attempts]. unfold parse_timeout.
  rewrite timeout_ok. unfold bind at 1. cbn [ret]. unfold bind at 1.
  unfold call at 1. fold ev. rewrite Hreply.
  eexists. split; [|reflexivity].
  quiet_steps.
Qed.

Lemma infer_attempts_backoff n : forall attempt last w,
  Z.of_nat n = (retries - attempt)%Z -> (1 <= n)%nat ->
  exists k,
    (1 <= k <= n)%nat
    /\ trace (snd (infer_attempts self out request json p start_time retries n attempt last w))
       = (trace w ++ backoff ev k attempt)%list
    /\ calls (snd (infer_attempts self out request json p start_time retries n attempt last w))
       = (calls w + k)%nat
    /\ ((forall i e', exists e, on_call out i e' = Failed e) ->
        k = n
        /\ exists e,
            fst (infer_attempts self out request json p start_time retries n attempt last w)
            = Raised (Exn HTTPError e)
            /\ on_call out (calls w + n - 1) ev = Failed e).
Proof.
  induction n as [|n IH]; intros attempt last w Hn Hpos; [lia|].
  destruct (on_call out (calls w) ev) as [e|b] eqn:Hreply.
  - destruct (attempt <? retries - 1)%Z eqn:Hlt.
    + rewrite (infer_attempts_retry _ _ _ _ _ Hreply Hlt).
      apply Z.ltb_lt in Hlt.
      destruct (IH (attempt + 1)%Z (Some e)
                  (snd (sleep (2 ^ attempt) (snd (call out ev w)))))
        as (k & Hk & Ht & Hc & Hall); [lia | lia |].
      exists (S k). split; [lia|]. split; [|split].
      * rewrite Ht, backoff_step by lia. cbn [sleep emit call snd trace].
        rewrite <- !app_assoc. reflexivity.
      * rewrite Hc. cbn [sleep emit call snd calls]. lia.
      * intros Hfail. destruct (Hall Hfail) as (-> & e2 & Hr & Hlast).
        split; [reflexivity|]. exists e2. split; [exact Hr|].
        cbn [sleep emit call snd calls] in Hlast.
        replace (calls w + S n - 1)%nat with (S (calls w) + n - 1)%nat by lia.
        exact Hlast.
    + rewrite (infer_attempts_give_up _ _ _ _ _ Hreply Hlt).
      apply Z.ltb_ge in Hlt. assert (n = O) by lia. subst n.
      exists 1%nat. cbn [call fst snd trace calls]. split; [lia|].
      split; [reflexivity|]. split; [lia|].
      intros _. split; [reflexivity|]. exists e. split; [reflexivity|].
      replace (calls w + 1 - 1)%nat with (calls w) by lia. exact Hreply.
  - destruct (infer_attempts_replied n attempt last w b Hreply) as (m & Hq & ->).
    destruct (Hq (snd (call out ev w))) as [Ht Hc].
    exists 1%nat. split; [lia|]. split; [|split].
    + rewrite Ht. reflexivity.
    + rewrite Hc. cbn [call snd calls]. lia.
    + intros Hfail. destruct (Hfail (calls w) ev) as [e He]. congruence.
Qed.

End Retry.

(** ** Resolving the difficulty *)

Lemma resolve_difficulty_fst r w :
  fst (resolve_difficulty r w) = Ok (resolved (heap w r)).
Proof.
  unfold resolve_difficulty, resolved, bind, get_request, set_difficulty,
    put_request, ret.
  destruct (difficulty (heap w r)); reflexivity.
Qed.

Lemma resolve_difficulty_eq r w :
  resolve_difficulty r w
  = (Ok (resolved (heap w r)), snd (resolve_difficulty r w)).
Proof. rewrite <- resolve_difficulty_fst. now destruct (resolve_difficulty r w). Qed.

(** After resolution the request holds its resolved difficulty; nothing else
    about it, and no other request, has changed. *)
Lemma resolve_difficulty_heap r w :
  let w' := snd (resolve_difficulty r w) in
  difficulty (heap w' r) = Some (resolved (heap w r))
  /\ resolved (heap w' r) = resolved (heap w r)
  /\ prompt (heap w' r) = prompt (heap w r)
  /\ context (heap w' r) = context (heap w r)
  /\ stream (heap w' r) = stream (heap w r)
  /\ temperature (heap w' r) = temperature (heap w r)
  /\ max_tokens (heap w' r) = max_tokens (heap w r)
  /\ session_id (heap w' r) = session_id (heap w r)
  /\ user_id (heap w' r) = user_id (heap w r)
  /\ (forall r', r' <> r -> heap w' r' = heap w r')
  /\ ticks w' = ticks w /\ calls w' = calls w /\ trace w' = trace w.
Proof.
  unfold resolve_difficulty, resolved, bind, get_request, set_difficulty,
    put_request, ret.
  destruct (difficulty (heap w r)) eqn:E; cbn.
  - rewrite E. repeat split; reflexivity.
  - rewrite Nat.eqb_refl. cbn. repeat split; try reflexivity.
    intros r' Hne. apply Nat.eqb_neq in Hne. now rewrite Hne.
Qed.

(** [infer], one stage after the other. *)
Lemma infer_eq self out request retries w :
  infer self out request retries w
  = let w1 := snd (resolve_difficulty request w) in
    match find_tier (value (resolved (heap w request))) (difficulty_levels self) with
    | None =>
        (Raised (Exn KeyError (repr_str (value (resolved (heap w request))))), w1)
    | Some t =>
        let q := heap w1 request in
        let p := with_overrides q (tier_params t) in
        infer_attempts self out request (inference_payload self q p (stream q)) p
          (clock out (ticks w1)) retries (Z.to_nat retries) 0 None
          (snd (now out w1))
    end.
Proof.
  unfold infer. unfold bind at 1. rewrite resolve_difficulty_eq.
  unfold _get_inference_params.
  destruct (find_tier _ _); reflexivity.
Qed.

(** A timeout that cannot be read stops the first attempt before any call. *)
Lemma infer_attempts_bad_timeout self out request json p start_time retries n
    attempt last w :
  Py.float (remove_char "s" (params_timeout p)) = None ->
  infer_attempts self out request json p start_time retries (S n) attempt last w
  = (Raised (Exn ValueError ("could not convert string to float: "
                             ++ repr_str (remove_char "s" (params_timeout p)))), w).
Proof.
  intros H. cbn [infer_attempts]. unfold parse_timeout. rewrite H. reflexivity.
Qed.

(** ** The single dispatcher *)

(** C2: [infer] calls the service at most [retries] times; after a failed
    attempt [i] it waits [2^i] before attempt [i+1], and when the last
    attempt fails it raises that error with no wait after it. When every
    call fails there are exactly [retries] attempts. *)
Theorem infer_retries_with_backoff self out request retries w :
  (1 <= retries)%Z ->
  exists k json timeout,
    (k <= Z.to_nat retries)%nat
    /\ trace (snd (infer self out request retries w))
       = (trace w ++ backoff (Post "/v1/inference" (Single json) timeout) k 0)%list
    /\ calls (snd (infer self out request retries w)) = (calls w + k)%nat
    /\ (forall t tm,
          find_tier (value (resolved (heap w request))) (difficulty_levels self) = Some t ->
          Py.float (remove_char "s" (tier_timeout t)) = Some tm ->
          (forall i e', exists e, on_call out i e' = Failed e) ->
          k = Z.to_nat retries /\ timeout = tm
          /\ exists e, fst (infer self out request retries w) = Raised (Exn HTTPError e)).
Proof.
  intros Hretries. rewrite infer_eq. cbv zeta.
  destruct (resolve_difficulty_heap request w)
    as (_ & _ & _ & _ & _ & _ & _ & _ & _ & _ & Hticks & Hcalls & Htrace).
  set (w1 := snd (resolve_difficulty request w)) in *.
  set (dummy := inference_payload self (heap w1 request)
                  (with_overrides (heap w1 request)
                     (tier_params {| tier_temperature := 0; tier_max_tokens := 0;
                                     tier_num_passes := 0; tier_timeout := "" |}))
                  false).
  destruct (find_tier _ _) as [t|] eqn:Htier.
  - set (q := heap w1 request). set (p := with_overrides q (tier_params t)).
    destruct (Py.float (remove_char "s" (params_timeout p))) as [tm|] eqn:Hparse.
    + destruct (infer_attempts_backoff self out request
                  (inference_payload self q p (stream q)) p (clock out (ticks w1))
                  retries tm Hparse (Z.to_nat retries) 0%Z None (snd (now out w1)))
        as (k & Hk & Ht & Hc & Hall); [lia | lia |].
      exists k, (inference_payload self q p (stream q)), tm.
      split; [lia|]. split; [|split].
      * rewrite Ht. cbn [now snd trace]. now rewrite Htrace.
      * rewrite Hc. cbn [now snd calls]. now rewrite Hcalls.
      * intros t' tm' Ht' Hp' Hfail. inversion Ht'; subst t'.
        assert (tm' = tm) by (cbn in Hparse; congruence). subst tm'.
        destruct (Hall Hfail) as (-> & e & Hr & _).
        split; [reflexivity|]. split; [reflexivity|]. now exists e.
    + exists 0%nat, dummy, NaN.
      destruct (Z.to_nat retries) as [|n] eqn:En; [lia|].
      rewrite infer_attempts_bad_timeout by exact Hparse.
      cbn [now fst snd trace calls backoff]. rewrite app_nil_r, Nat.add_0_r.
      split; [lia|]. split; [exact Htrace|]. split; [exact Hcalls|].
      intros t' tm' Ht' Hp'. inversion Ht'; subst t'. cbn in Hparse. congruence.
  - exists 0%nat, dummy, NaN. cbn [fst snd backoff].
    rewrite app_nil_r, Nat.add_0_r.
    split; [lia|]. split; [exact Htrace|]. split; [exact Hcalls|].
    intros t' tm' Ht'. discriminate Ht'.
Qed.

Lemma infer_retries_with_backoff_witness :
  (1 <= 3)%Z
  /\ exists k json timeout,
       (k <= Z.to_nat 3)%nat
       /\ trace (snd (infer sample_worker unreachable 0%nat 3
                        (fresh (InferenceRequest_default "Explain gravity"))))
          = backoff (Post "/v1/inference" (Single json) timeout) k 0
       /\ k = 3%nat /\ timeout = Finite 30.
Proof.
  split; [lia|].
  destruct (infer_retries_with_backoff sample_worker unreachable 0%nat 3
              (fresh (InferenceRequest_default "Explain gravity")))
    as (k & json & timeout & Hk & Ht & _ & Hall); [lia|].
  exists k, json, timeout. split; [exact Hk|]. split; [exact Ht|].
  destruct (Hall {| tier_temperature := 3 # 10; tier_max_tokens := 512;
                    tier_num_passes := 1; tier_timeout := "30s" |} (Finite 30))
    as (H1 & H2 & _).
  - reflexivity.
  - reflexivity.
  - intros i e'. now exists "connection refused".
  - split; [exact H1 | exact H2].
Defined.

Lemma backoff_head ev k attempt :
  (1 <= k)%nat -> exists rest, backoff ev k attempt = ev :: rest.
Proof.
  destruct k as [|[|k]]; [lia | |]; intros _; eexists; reflexivity.
Qed.

(** ** Cluster status *)

(** C9, as the code has it: the status call returns the decoded body of a
    successful reply as it is, turns an [httpx.HTTPError] into a report
    holding the error text and an empty cluster list, and raises the
    decoding error when a successful reply carries a body that is not
    JSON. *)
Theorem get_cluster_status_outcomes out w :
  (forall v, on_call out (calls w) (Get "/v1/clusters/status") = Replied (Json v) ->
     fst (get_cluster_status out w) = Ok v)
  /\ (forall e, on_call out (calls w) (Get "/v1/clusters/status") = Failed e ->
     fst (get_cluster_status out w)
     = Ok (PDict [("error", PStr e); ("clusters", PList [])]))
  /\ (forall err, on_call out (calls w) (Get "/v1/clusters/status") = Replied (NotJson err) ->
     fst (get_cluster_status out w) = Raised (Exn JSONDecodeError err))
  /\ trace (snd (get_cluster_status out w)) = (trace w ++ [Get "/v1/clusters/status"])%list.
Proof.
  unfold get_cluster_status, bind, call. cbn [fst snd].
  split; [|split; [|split]].
  - intros v ->. reflexivity.
  - intros e ->. reflexivity.
  - intros err ->. reflexivity.
  - destruct (on_call out (calls w) _) as [e|[err|v]]; reflexivity.
Qed.

Lemma get_cluster_status_outcomes_witness :
  on_call unreachable 0 (Get "/v1/clusters/status") = Failed "connection refused"
  /\ fst (get_cluster_status unreachable (fresh (InferenceRequest_default "")))
     = Ok (PDict [("error", PStr "connection refused"); ("clusters", PList [])]).
Proof.
  split; [reflexivity|].
  exact (proj1 (proj2 (get_cluster_status_outcomes unreachable
                         (fresh (InferenceRequest_default ""))))
           "connection refused" eq_refl).
Defined.

(** C9 as stated fails: a successful reply whose body is not JSON makes the
    status call raise. *)
Lemma get_cluster_status_may_raise :
  ~ (forall out w, exists v, fst (get_cluster_status out w) = Ok v).
Proof.
  intros H.
  destruct (H garbling (fresh (InferenceRequest_default ""))) as [v Hv].
  discriminate Hv.
Qed.

(** ** The token stream *)

(** Reading [pre] and then [rest] is reading [pre] and, unless that raised,
    going on with [rest]. *)
Lemma stream_lines_app pre rest broken :
  stream_lines (pre ++ rest) broken
  = match stream_lines pre None with
    | (toks, Ok _) =>
        let (toks', r) := stream_lines rest broken in ((toks ++ toks')%list, r)
    | (toks, Raised e) => (toks, Raised e)
    end.
Proof.
  induction pre as [|l pre IH]; cbn [app stream_lines].
  - now destruct (stream_lines rest broken).
  - destruct l as [| raw | data]; try exact IH.
    destruct (member "token" data) as [[|]|e]; [| |reflexivity].
    + destruct (getitem data "token") as [tok|e]; [|reflexivity].
      rewrite IH. destruct (stream_lines pre None) as [toks [[]|e]];
        [|reflexivity].
      now destruct (stream_lines rest broken).
    + destruct (member "error" data) as [[|]|e]; [| exact IH |reflexivity].
      now destruct (getitem data "error").
Qed.

Lemma set_stream_heap r w :
  let w' := snd (set_stream r w) in
  resolved (heap w' r) = resolved (heap w r)
  /\ ticks w' = ticks w /\ calls w' = calls w /\ trace w' = trace w.
Proof.
  unfold set_stream, resolved, bind, get_request, put_request. cbn.
  rewrite Nat.eqb_refl. repeat split; reflexivity.
Qed.

(** [infer_stream], one stage after the other. *)
Lemma infer_stream_eq self out request w :
  infer_stream self out request w
  = let w1 := snd (resolve_difficulty request (snd (set_stream request w))) in
    match find_tier (value (resolved (heap w request))) (difficulty_levels self) with
    | None =>
        (([], Raised (Exn KeyError (repr_str (value (resolved (heap w request)))))), w1)
    | Some t =>
        match Py.float (remove_char "s" (tier_timeout t)) with
        | None =>
            (([], Raised (Exn ValueError
                            ("could not convert string to float: "
                             ++ repr_str (remove_char "s" (tier_timeout t))))), w1)
        | Some tm =>
            let ev := Stream "/v1/inference/stream"
                        (Single (inference_payload self (heap w1 request)
                                   (tier_params t) true)) tm in
            match on_stream out (calls w1) ev with
            | StreamFailed e =>
                (([], Raised (Exn Exception ("Stream inference failed: " ++ e))),
                 snd (call_stream out ev w1))
            | Lines ls broken => (stream_lines ls broken, snd (call_stream out ev w1))
            end
        end
    end.
Proof.
  destruct (set_stream_heap request w) as (Hres & _).
  unfold infer_stream. unfold bind at 1.
  replace (set_stream request w) with (Ok tt, snd (set_stream request w))
    by reflexivity.
  unfold bind at 1. rewrite resolve_difficulty_eq, Hres.
  unfold _get_inference_params.
  destruct (find_tier _ _) as [t|]; [|reflexivity].
  unfold bind at 1. cbn [ret]. unfold bind at 1. cbn [get_request].
  unfold parse_timeout. cbn [tier_params params_timeout].
  destruct (Py.float _) as [tm|]; [|reflexivity].
  unfold bind at 1. cbn [ret call_stream].
  destruct (on_stream out _ _); reflexivity.
Qed.

(** C7: a line that is not JSON is passed over and the lines after it are
    read as if it had not been there; a record with an "error" field and no
    "token" field ends the stream by raising an exception whose text holds
    the server's message; [infer_stream] makes at most one call and never
    waits, and hands out what the lines it received give. *)
Theorem stream_skips_garbage_and_stops_on_error :
  (forall pre raw post broken,
     stream_lines (pre ++ Garbage raw :: post) broken
     = stream_lines (pre ++ post) broken)
  /\ (forall pre fields err post broken toks,
        stream_lines pre None = (toks, Ok tt) ->
        lookup "token" fields = None -> lookup "error" fields = Some err ->
        stream_lines (pre ++ Record_ (PDict fields) :: post) broken
        = (toks, Raised (Exn Exception ("Stream error: " ++ str err))))
  /\ (forall self out request w,
        exists evs,
          trace (snd (infer_stream self out request w)) = (trace w ++ evs)%list
          /\ calls (snd (infer_stream self out request w)) = (calls w + length evs)%nat
          /\ (length evs <= 1)%nat
          /\ forall n, ~ In (Sleep n) evs)
  /\ (forall self out request w t tm ls broken,
        find_tier (value (resolved (heap w request))) (difficulty_levels self) = Some t ->
        Py.float (remove_char "s" (tier_timeout t)) = Some tm ->
        (forall ev, on_stream out (calls w) ev = Lines ls broken) ->
        fst (infer_stream self out request w) = stream_lines ls broken).
Proof.
  split; [|split; [|split]].
  - intros pre raw post broken. rewrite !stream_lines_app. reflexivity.
  - intros pre fields err post broken toks Hpre Htok Herr.
    rewrite stream_lines_app, Hpre. cbn [stream_lines member getitem].
    rewrite Htok, Herr. now rewrite app_nil_r.
  - intros self out request w. rewrite infer_stream_eq. cbv zeta.
    destruct (set_stream_heap request w) as (_ & _ & Hc0 & Ht0).
    destruct (resolve_difficulty_heap request (snd (set_stream request w)))
      as (_ & _ & _ & _ & _ & _ & _ & _ & _ & _ & _ & Hc1 & Ht1).
    set (w1 := snd (resolve_difficulty request (snd (set_stream request w)))) in *.
    assert (Hquiet : exists evs,
               trace w1 = (trace w ++ evs)%list
               /\ calls w1 = (calls w + length evs)%nat
               /\ (length evs <= 1)%nat /\ forall n, ~ In (Sleep n) evs).
    { exists []. rewrite app_nil_r, Nat.add_0_r.
      repeat split; [congruence | congruence | cbn; lia | intros n []]. }
    destruct (find_tier _ _) as [t|]; [|exact Hquiet].
    destruct (Py.float _) as [tm|]; [|exact Hquiet].
    match goal with
    | |- context [on_stream out _ ?e] => exists [e]
    end.
    assert (Hone : forall e' : event,
               match e' with Sleep _ => False | _ => True end ->
               forall n, ~ In (Sleep n) [e']).
    { intros e' He' n [E|[]]. subst e'. exact He'. }
    destruct (on_stream out _ _); cbn [fst snd call_stream trace calls length];
      (split; [congruence|]); (split; [lia|]); (split; [lia|]);
      apply Hone; exact I.
  - intros self out request w t tm ls broken Htier Hparse Hreply.
    rewrite infer_stream_eq, Htier, Hparse. cbv zeta.
    destruct (set_stream_heap request w) as (_ & _ & Hc0 & _).
    destruct (resolve_difficulty_heap request (snd (set_stream request w)))
      as (_ & _ & _ & _ & _ & _ & _ & _ & _ & _ & _ & Hc1 & _).
    rewrite Hc1, Hc0, Hreply. reflexivity.
Qed.

Lemma stream_skips_garbage_and_stops_on_error_witness :
  stream_lines [Record_ (PDict [("token", PStr "a")]); Garbage "not json"] None
  = ([PStr "a"], Ok tt)
  /\ stream_lines ([Record_ (PDict [("token", PStr "a")]); Garbage "not json"]
                   ++ Record_ (PDict [("error", PStr "x")])
                   :: [Record_ (PDict [("token", PStr "b")])]) None
     = ([PStr "a"], Raised (Exn Exception "Stream error: x")).
Proof.
  split; [reflexivity|].
  exact (proj1 (proj2 stream_skips_garbage_and_stops_on_error)
           [Record_ (PDict [("token", PStr "a")]); Garbage "not json"]
           [("error", PStr "x")] (PStr "x")
           [Record_ (PDict [("token", PStr "b")])] None [PStr "a"]
           eq_refl eq_refl eq_refl).
Defined.

(** ** Reading the timeout *)

(** C8: [infer] and [infer_stream] read the timeout of a call as
    [float(t.replace("s", ""))] of the timeout string [t] of the tier. "30s"
    reads as 30 and "30x" cannot be read; "3s0" and "30 s" read as 30 too.
    When the string can be read the call is made with the number read, the
    first call of [infer] and the call of [infer_stream] alike; when it
    cannot, the dispatch raises the ValueError of the conversion before any
    call is made. *)
Theorem timeout_string_resolution self out request retries w t :
  find_tier (value (resolved (heap w request))) (difficulty_levels self) = Some t ->
  (1 <= retries)%Z ->
  (Py.float (remove_char "s" "30s") = Some (Finite 30)
   /\ Py.float (remove_char "s" "30x") = None
   /\ Py.float (remove_char "s" "3s0") = Some (Finite 30)
   /\ Py.float (remove_char "s" "30 s") = Some (Finite 30))
  /\ (forall tm,
        Py.float (remove_char "s" (tier_timeout t)) = Some tm ->
        (exists json rest,
           trace (snd (infer self out request retries w))
           = (trace w ++ Post "/v1/inference" (Single json) tm :: rest)%list)
        /\ (exists json,
              trace (snd (infer_stream self out request w))
              = (trace w ++ [Stream "/v1/inference/stream" (Single json) tm])%list))
  /\ (Py.float (remove_char "s" (tier_timeout t)) = None ->
      (fst (infer self out request retries w)
       = Raised (Exn ValueError
                   ("could not convert string to float: "
                    ++ repr_str (remove_char "s" (tier_timeout t))))
       /\ trace (snd (infer self out request retries w)) = trace w
       /\ calls (snd (infer self out request retries w)) = calls w)
      /\ (fst (infer_stream self out request w)
          = ([], Raised (Exn ValueError
                           ("could not convert string to float: "
                            ++ repr_str (remove_char "s" (tier_timeout t)))))
          /\ trace (snd (infer_stream self out request w)) = trace w
          /\ calls (snd (infer_stream self out request w)) = calls w)).
Proof.
  intros Htier Hretries.
  split; [repeat split; reflexivity|].
  destruct (resolve_difficulty_heap request w)
    as (_ & _ & _ & _ & _ & _ & _ & _ & _ & _ & Hticks & Hcalls & Htrace).
  destruct (set_stream_heap request w) as (_ & _ & Hc0 & Ht0).
  destruct (resolve_difficulty_heap request (snd (set_stream request w)))
    as (_ & _ & _ & _ & _ & _ & _ & _ & _ & _ & _ & Hc1 & Ht1).
  rewrite infer_eq, infer_stream_eq, Htier. cbv zeta.
  set (w1 := snd (resolve_difficulty request w)) in *.
  set (w2 := snd (resolve_difficulty request (snd (set_stream request w)))) in *.
  set (q := heap w1 request). set (p := with_overrides q (tier_params t)).
  assert (Hp : params_timeout p = tier_timeout t) by reflexivity.
  split.
  - intros tm Hparse. split.
    + assert (Hparse' : Py.float (remove_char "s" (params_timeout p)) = Some tm)
        by (rewrite Hp; exact Hparse).
      destruct (infer_attempts_backoff self out request
                  (inference_payload self q p (stream q)) p (clock out (ticks w1))
                  retries tm Hparse' (Z.to_nat retries) 0%Z None
                  (snd (now out w1)))
        as (k & Hk & Ht & _); [lia | lia |].
      destruct (backoff_head (Post "/v1/inference"
                                (Single (inference_payload self q p (stream q)))
                                tm) k 0) as [rest Hrest]; [lia|].
      exists (inference_payload self q p (stream q)), rest.
      rewrite Ht, Hrest. cbn [now snd trace]. now rewrite Htrace.
    + rewrite Hparse.
      exists (inference_payload self (heap w2 request) (tier_params t) true).
      destruct (on_stream out _ _); cbn [snd call_stream trace]; congruence.
  - intros Hparse. split.
    + assert (Hparse' : Py.float (remove_char "s" (params_timeout p)) = None)
        by (rewrite Hp; exact Hparse).
      destruct (Z.to_nat retries) as [|n] eqn:En; [lia|].
      rewrite infer_attempts_bad_timeout by exact Hparse'.
      cbn [now fst snd trace calls]. rewrite Hp.
      split; [reflexivity|]. split; assumption.
    + rewrite Hparse. cbn [fst snd].
      split; [reflexivity|]. split; congruence.
Qed.

Lemma timeout_string_resolution_witness :
  (exists json rest,
     trace (snd (infer sample_worker unreachable 0%nat 3
                   (fresh (InferenceRequest_default "Explain gravity"))))
     = Post "/v1/inference" (Single json) (Finite 30) :: rest)
  /\ fst (infer misconfigured_worker unreachable 0%nat 3
            (fresh (InferenceRequest_default "Explain gravity")))
     = Raised (Exn ValueError "could not convert string to float: '30x'")
  /\ trace (snd (infer misconfigured_worker unreachable 0%nat 3
                   (fresh (InferenceRequest_default "Explain gravity")))) = [].
Proof.
  split.
  - refine (proj1 (proj1 (proj2
      (timeout_string_resolution sample_worker unreachable 0%nat 3
         (fresh (InferenceRequest_default "Explain gravity"))
         {| tier_temperature := 3 # 10; tier_max_tokens := 512;
            tier_num_passes := 1; tier_timeout := "30s" |} _ _))
      (Finite 30) _)); [reflexivity | lia | reflexivity].
  - refine ((fun H => conj (proj1 H) (proj1 (proj2 H)))
      (proj1 (proj2 (proj2
        (timeout_string_resolution misconfigured_worker unreachable 0%nat 3
           (fresh (InferenceRequest_default "Explain gravity"))
           {| tier_temperature := 3 # 10; tier_max_tokens := 512;
              tier_num_passes := 1; tier_timeout := "30x" |} _ _)) _)));
      [reflexivity | lia | reflexivity].
Defined.

(** It is not so that every timeout string other than a number followed by
    "s" stops [infer] before the call: the letter is taken out wherever it
    stands, so with "3s0" for the medium tier the call is made (under the
    timeout 30) and its answer returned. *)
Lemma malformed_timeout_still_dispatches :
  ~ (forall self out request retries w t,
       find_tier (value (resolved (heap w request))) (difficulty_levels self)
       = Some t ->
       (1 <= retries)%Z ->
       (forall num, tier_timeout t = num ++ "s" -> Py.float num = None) ->
       exists e,
         fst (infer self out request retries w) = Raised e
         /\ trace (snd (infer self out request retries w)) = trace w).
Proof.
  intros H.
  destruct (H misplaced_unit_worker
              (flaky 0 (PDict [("text", PStr "9.8 m/s^2")])) 0%nat 3%Z
              (fresh (InferenceRequest_default "Explain gravity"))
              {| tier_temperature := 3 # 10; tier_max_tokens := 512;
                 tier_num_passes := 1; tier_timeout := "3s0" |})
    as (e & Hraised & _).
  - reflexivity.
  - lia.
  - intros num Hnum. cbn [tier_timeout] in Hnum.
    destruct num as [|a [|b [|c [|d num]]]]; cbn in Hnum; discriminate.
  - vm_compute in Hraised. discriminate Hraised.
Qed.

(** ** What dispatching does to the request objects *)

Lemma keeps_refl q : keeps q q.
Proof. unfold keeps. auto 10. Qed.

Lemma keeps_trans q1 q2 q3 : keeps q1 q2 -> keeps q2 q3 -> keeps q1 q3.
Proof.
  unfold keeps.
  intros (Hp & Hc & Hs & Hu & Ht & Hm & Hd) (Hp' & Hc' & Hs' & Hu' & Ht' & Hm' & Hd').
  repeat (split; [congruence|]).
  destruct Hd as [Hd|[Hn Hd]], Hd' as [Hd'|[Hn' Hd']].
  - left; congruence.
  - right. split; [congruence|]. rewrite Hd', Hp, Hc. reflexivity.
  - right. split; [exact Hn|congruence].
  - congruence.
Qed.

Lemma keeps_resolved q q' : keeps q q' -> resolved q' = resolved q.
Proof.
  unfold keeps, resolved. intros (Hp & Hc & _ & _ & _ & _ & [Hd|[Hn Hd]]).
  - rewrite Hd, Hp, Hc. reflexivity.
  - rewrite Hd, Hn. reflexivity.
Qed.

Lemma keeps_some q q' d : keeps q q' -> difficulty q = Some d -> difficulty q' = Some d.
Proof. unfold keeps. intros (_ & _ & _ & _ & _ & _ & [Hd|[Hn Hd]]); congruence. Qed.

Lemma evolves_refl w : evolves w w.
Proof. intros r. apply keeps_refl. Qed.

Lemma evolves_trans w1 w2 w3 : evolves w1 w2 -> evolves w2 w3 -> evolves w1 w3.
Proof. intros H1 H2 r. eapply keeps_trans; eauto. Qed.

Lemma evolves_same_heap w w' : heap w' = heap w -> evolves w w'.
Proof. intros H r. rewrite H. apply keeps_refl. Qed.

Lemma ready_evolves w w' rs : evolves w w' -> ready w rs -> ready w' rs.
Proof.
  intros He Hr r Hin. specialize (Hr r Hin).
  destruct (difficulty (heap w r)) as [d|] eqn:E; [|contradiction].
  rewrite (keeps_some _ _ d (He r) E). discriminate.
Qed.

Lemma stable_ret {A} (a : A) : stable (ret a).
Proof. intros w. apply evolves_refl. Qed.

Lemma stable_raise {A} (e : exn) : stable (@raise A e).
Proof. intros w. apply evolves_refl. Qed.

Lemma stable_lift {A} (r : result A) : stable (lift r).
Proof. intros w. apply evolves_refl. Qed.

Lemma stable_bind {A B} (m : M A) (k : A -> M B) :
  stable m -> (forall a, stable (k a)) -> stable (bind m k).
Proof.
  intros Hm Hk w. unfold bind. specialize (Hm w).
  destruct (m w) as [[a|e] w1]; cbn [snd] in *; [|exact Hm].
  eapply evolves_trans; [exact Hm | apply Hk].
Qed.

Lemma stable_catch {A} (m : M A) (h : exn -> M A) :
  stable m -> (forall e, stable (h e)) -> stable (catch m h).
Proof.
  intros Hm Hh w. unfold catch. specialize (Hm w).
  destruct (m w) as [[a|e] w1]; cbn [snd] in *; [exact Hm|].
  eapply evolves_trans; [exact Hm | apply Hh].
Qed.

Lemma stable_get_request r : stable (get_request r).
Proof. intros w. apply evolves_refl. Qed.

Lemma stable_emit e : stable (emit e).
Proof. intros w. now apply evolves_same_heap. Qed.

Lemma stable_sleep n : stable (sleep n).
Proof. apply stable_emit. Qed.

Lemma stable_now out : stable (now out).
Proof. intros w. now apply evolves_same_heap. Qed.

Lemma stable_call out e : stable (call out e).
Proof. intros w. now apply evolves_same_heap. Qed.

Lemma stable_json_of b : stable (json_of b).
Proof. destruct b; [apply stable_raise | apply stable_ret]. Qed.

Lemma stable_parse_timeout t : stable (parse_timeout t).
Proof.
  unfold parse_timeout. destruct (Py.float _); [apply stable_ret | apply stable_raise].
Qed.

Lemma stable_set_stream r : stable (set_stream r).
Proof.
  intros w r'. unfold set_stream, bind, get_request, put_request. cbn.
  destruct (Nat.eqb_spec r' r) as [->|_]; [|apply keeps_refl].
  unfold keeps. cbn. auto 10.
Qed.

Lemma stable_resolve_difficulty r : stable (resolve_difficulty r).
Proof.
  intros w r'.
  unfold resolve_difficulty, bind, get_request, set_difficulty, put_request, ret.
  destruct (difficulty (heap w r)) eqn:E; cbn; [apply keeps_refl|].
  destruct (Nat.eqb_spec r' r) as [->|_]; [|apply keeps_refl].
  unfold keeps. cbn. auto 10.
Qed.

Lemma stable_get_inference_params self d : stable (_get_inference_params self d).
Proof.
  unfold _get_inference_params.
  destruct (find_tier _ _); [apply stable_ret | apply stable_raise].
Qed.

Create HintDb stable.

#[local] Hint Resolve stable_ret stable_raise stable_lift stable_get_request
  stable_emit stable_sleep stable_now stable_call stable_json_of
  stable_parse_timeout stable_set_stream stable_resolve_difficulty
  stable_get_inference_params : stable.

Ltac stable_steps :=
  repeat first
    [ solve [auto with stable]
    | apply stable_bind; [|intros]
    | apply stable_catch; [|intros]
    | match goal with
      | |- stable (match ?x with _ => _ end) => destruct x
      end ].

Lemma stable_infer_attempts self out request json p start_time retries n :
  forall attempt last,
    stable (infer_attempts self out request json p start_time retries n attempt last).
Proof.
  induction n as [|n IH]; intros attempt last; cbn [infer_attempts].
  - apply stable_raise.
  - stable_steps.
Qed.

Lemma stable_infer self out request retries : stable (infer self out request retries).
Proof. unfold infer. stable_steps; apply stable_infer_attempts. Qed.

#[local] Hint Resolve stable_infer : stable.

Lemma evolves_infer_stream self out request w :
  evolves w (snd (infer_stream self out request w)).
Proof.
  rewrite infer_stream_eq. cbv zeta.
  assert (H : evolves w (snd (resolve_difficulty request (snd (set_stream request w))))).
  { eapply evolves_trans; [apply stable_set_stream | apply stable_resolve_difficulty]. }
  destruct (find_tier _ _); [|exact H].
  destruct (Py.float _); [|exact H].
  destruct (on_stream out _ _); cbn [snd];
    (eapply evolves_trans; [exact H | now apply evolves_same_heap]).
Qed.

Lemma evolves_settles w w' rs :
  evolves w w' ->
  (forall r, In r rs -> difficulty (heap w' r) = Some (resolved (heap w r))) ->
  settles rs w w'.
Proof.
  intros He Hr. split; [|split].
  - intros r Hin Hnone. rewrite (Hr r Hin). unfold resolved. now rewrite Hnone.
  - intros r d Hd. exact (keeps_some _ _ d (He r) Hd).
  - intros r. destruct (He r) as (Hp & Hc & _). split; assumption.
Qed.

(** ** Grouping and chunking *)

Lemma members_group_append grouped k req :
  length (members (group_append grouped k req)) = S (length (members grouped))
  /\ forall r, In r (members (group_append grouped k req))
               <-> r = req \/ In r (members grouped).
Proof.
  unfold members. induction grouped as [|[k' g] rest [IHl IHi]]; cbn.
  - split; [reflexivity|]. intros r. intuition congruence.
  - destruct (String.eqb k k'); cbn.
    + rewrite !length_app. cbn. split; [lia|].
      intros r. rewrite !in_app_iff. cbn. intuition congruence.
    + rewrite !length_app, IHl. split; [lia|].
      intros r. rewrite !in_app_iff, IHi. intuition.
Qed.

Lemma group_requests_run requests : forall grouped w,
  exists grouped',
    fst (group_requests requests grouped w) = Ok grouped'
    /\ length (members grouped') = (length (members grouped) + length requests)%nat
    /\ (forall r, In r (members grouped') -> In r (members grouped) \/ In r requests)
    /\ (forall r, In r requests ->
          difficulty (heap (snd (group_requests requests grouped w)) r)
          = Some (resolved (heap w r)))
    /\ evolves w (snd (group_requests requests grouped w))
    /\ trace (snd (group_requests requests grouped w)) = trace w
    /\ calls (snd (group_requests requests grouped w)) = calls w.
Proof.
  induction requests as [|req rest IH]; intros grouped w; cbn [group_requests].
  - exists grouped. cbn. rewrite Nat.add_0_r.
    repeat split; auto using evolves_refl. intros r [].
  - unfold bind. rewrite resolve_difficulty_eq.
    destruct (resolve_difficulty_heap req w)
      as (Hd & _ & _ & _ & _ & _ & _ & _ & _ & _ & _ & Hc & Ht).
    pose proof (stable_resolve_difficulty req w) as He.
    set (w1 := snd (resolve_difficulty req w)) in *.
    destruct (IH (group_append grouped (value (resolved (heap w req))) req) w1)
      as (g' & Hok & Hlen & Hin & Hres & Hev & Htr & Hca).
    destruct (members_group_append grouped (value (resolved (heap w req))) req)
      as [Hl Hi].
    exists g'. split; [exact Hok|]. split; [|split; [|split; [|split; [|split]]]].
    + rewrite Hlen, Hl. cbn. lia.
    + intros r Hr. destruct (Hin r Hr) as [H|H]; [|right; now right].
      apply Hi in H as [->|H]; [right; now left | now left].
    + intros r [<-|Hr].
      * exact (keeps_some _ _ _ (Hev req) Hd).
      * rewrite (Hres r Hr). f_equal. apply keeps_resolved, He.
    + eapply evolves_trans; eassumption.
    + congruence.
    + congruence.
Qed.

Lemma in_slice {A} (l : list A) i j x : In x (slice l i j) -> In x l.
Proof.
  unfold slice. intros H.
  rewrite <- (firstn_skipn i l). apply in_or_app. right.
  rewrite <- (firstn_skipn (j - i) (skipn i l)). apply in_or_app. now left.
Qed.

(** Slices of width [k] taken at [0, k, 2k, ...] put end to end give the
    list back. *)
Lemma chunks_cover {A} (k : nat) : (1 <= k)%nat -> forall n (l : list A),
  (length l <= n * k)%nat ->
  concat (map (fun i => slice l i (i + k)) (map (fun q => q * k)%nat (seq 0 n))) = l.
Proof.
  intros Hk. induction n as [|n IH]; intros l Hlen.
  - destruct l; [reflexivity | cbn in Hlen; lia].
  - cbn [seq map concat]. rewrite <- seq_shift, !map_map.
    unfold slice at 1. cbn [Nat.mul Nat.add skipn].
    replace (k - 0)%nat with k by lia.
    transitivity (firstn k l ++ skipn k l)%list; [|apply firstn_skipn].
    f_equal. rewrite <- (IH (skipn k l)) at 1.
    + rewrite map_map. f_equal. apply map_ext. intros q. unfold slice.
      rewrite skipn_skipn. f_equal; [lia|]. f_equal. lia.
    + rewrite length_skipn. cbn in Hlen. lia.
Qed.

Lemma range_step_cover {A} (l : list A) (size : Z) starts :
  (0 < size)%Z -> range_step (length l) size = Some starts ->
  concat (map (fun i => slice l i (i + Z.to_nat size)) starts) = l.
Proof.
  intros Hpos. unfold range_step.
  destruct (Z.eqb_spec size 0) as [E0|_]; [lia|].
  destruct (Z.ltb_spec size 0) as [E1|_]; [lia|].
  intros Heq. inversion Heq; subst starts. clear Heq.
  apply chunks_cover; [lia|].
  set (k := Z.to_nat size). assert (Hk : (1 <= k)%nat) by lia.
  pose proof (Nat.div_mod_eq (length l + k - 1) k) as Hdm.
  pose proof (Nat.mod_upper_bound (length l + k - 1) k) as Hub. nia.
Qed.

(** ** The batch dispatcher, step by step *)

Lemma yields_bind out n1 n2 acc w (m : M (list InferenceResponse))
    (k : list InferenceResponse -> M (list InferenceResponse)) :
  yields out n1 acc w (m w) ->
  (forall acc' w', evolves w w' -> yields out n2 acc' w' (k acc' w')) ->
  yields out (n1 + n2) acc w (bind m k w).
Proof.
  intros (rs & Hfst & Hlen & Hdeg & Hev) Hk. unfold bind.
  destruct (m w) as [[a|e] w1]; cbn [fst snd] in *; [|discriminate].
  inversion Hfst; subst a.
  destruct (Hk (acc ++ rs)%list w1 Hev) as (rs2 & Hfst2 & Hlen2 & Hdeg2 & Hev2).
  exists (rs ++ rs2)%list. split; [|split; [|split]].
  - rewrite Hfst2, app_assoc. reflexivity.
  - rewrite length_app. lia.
  - intros Hfail. apply Forall_app. split; auto.
  - eapply evolves_trans; eassumption.
Qed.

Lemma yields_ret out acc w : yields out 0 acc w (ret acc w).
Proof.
  exists []. cbn. rewrite app_nil_r.
  repeat split; auto using evolves_refl.
Qed.

Lemma batch_entries_run self batch w :
  tiers_complete self -> ready w batch ->
  exists items,
    batch_entries self batch w = (Ok items, w) /\ length items = length batch.
Proof.
  intros Htiers. induction batch as [|req rest IH]; intros Hready.
  - exists []. split; reflexivity.
  - destruct IH as (items & Hrun & Hlen).
    { intros r Hr. apply Hready. now right. }
    assert (Hd : difficulty (heap w req) <> None) by (apply Hready; now left).
    cbn [batch_entries]. unfold bind at 1. unfold batch_entry.
    unfold bind at 1. cbn [get_request].
    destruct (difficulty (heap w req)) as [d|]; [|contradiction].
    unfold bind at 1. cbn [ret]. unfold _get_inference_params.
    specialize (Htiers d). destruct (find_tier _ _) as [t|]; [|contradiction].
    unfold bind. cbn [ret]. rewrite Hrun.
    eexists. split; [reflexivity|]. cbn. now rewrite Hlen.
Qed.

Lemma get_dict fields k default :
  exists x, Py.get (PDict fields) k default = Ok x.
Proof. cbn. destruct (lookup k fields); eexists; reflexivity. Qed.

Lemma batch_results_run self out batch results : forall j acc w,
  Forall (fun r => exists fs t, r = PDict fs /\ lookup "text" fs = Some t) results ->
  (j + length results <= length batch)%nat ->
  exists rs,
    fst (batch_results self out batch j results acc w) = Ok (acc ++ rs)%list
    /\ length rs = length results
    /\ heap (snd (batch_results self out batch j results acc w)) = heap w.
Proof.
  induction results as [|result_ rest IH]; intros j acc w Hall Hlen.
  - exists []. cbn. now rewrite app_nil_r.
  - inversion Hall as [|? ? (fs & t & -> & Htext) Hrest]; subst.
    cbn [length] in Hlen.
    destruct (nth_error batch j) as [req|] eqn:Hnth.
    2:{ apply nth_error_None in Hnth. lia. }
    destruct (get_dict fs "model" (PStr (self_model self))) as [x1 H1].
    destruct (get_dict fs "cluster_id" (PStr "unknown")) as [x2 H2].
    destruct (get_dict fs "latency_ms" (PInt 0)) as [x3 H3].
    destruct (get_dict fs "tokens_generated" (PInt 0)) as [x4 H4].
    assert (Hstep : exists resp w',
               heap w' = heap w
               /\ batch_results self out batch j (PDict fs :: rest) acc w
                  = batch_results self out batch (S j) rest (acc ++ [resp])%list w').
    { cbn [batch_results]. unfold bind, lift. cbn [getitem].
      rewrite Htext, H1, H2, H3, H4, Hnth. cbn [get_request now].
      eexists _, _. split; [|reflexivity]. reflexivity. }
    destruct Hstep as (resp & w' & Hheap & ->).
    destruct (IH (S j) (acc ++ [resp])%list w' Hrest) as (rs & Hfst & Hl & Hh); [lia|].
    exists (resp :: rs). split; [|split].
    + rewrite Hfst, <- app_assoc. reflexivity.
    + cbn. now rewrite Hl.
    + congruence.
Qed.

(** When no call succeeds the single dispatcher raises. *)
Lemma infer_all_fail self out request w :
  all_fail out -> exists e, fst (infer self out request 3 w) = Raised e.
Proof.
  intros Hfail. rewrite infer_eq. cbv zeta.
  destruct (find_tier _ _) as [t|]; [|eexists; reflexivity].
  match goal with
  | |- context [infer_attempts _ _ _ ?j ?p ?st _ _ _ _ ?w'] =>
      destruct (Py.float (remove_char "s" (params_timeout p))) as [tm|] eqn:Hparse;
      [ destruct (infer_attempts_backoff self out request j p st 3 tm Hparse
                    (Z.to_nat 3) 0%Z None w') as (k & _ & _ & _ & Hall);
        [reflexivity | cbn; lia |];
        destruct (Hall Hfail) as (_ & e & Hr & _); eexists; exact Hr
      | change (Z.to_nat 3) with 3%nat;
        rewrite infer_attempts_bad_timeout by exact Hparse;
        eexists; reflexivity ]
  end.
Qed.

(** One request of a failed chunk always gets a response. *)
Lemma fallback_item self out req w :
  exists resp w1,
    catch (infer_default self out req)
      (fun e2 => bind (get_request req) (fun q =>
                 bind (now out) (fun stamp =>
                 ret (error_response self q e2 stamp)))) w
    = (Ok resp, w1)
    /\ evolves w w1 /\ (all_fail out -> degraded resp).
Proof.
  unfold catch, infer_default.
  pose proof (stable_infer self out req 3 w) as Hev.
  destruct (infer self out req 3 w) as [[resp|e2] w1] eqn:E; cbn [snd] in Hev.
  - exists resp, w1. split; [reflexivity|]. split; [exact Hev|].
    intros Hfail. destruct (infer_all_fail self out req w Hfail) as [e He].
    rewrite E in He. discriminate He.
  - unfold bind, get_request, now, ret.
    eexists _, _. split; [reflexivity|]. split.
    + eapply evolves_trans; [exact Hev|]. now apply evolves_same_heap.
    + intros _. unfold degraded, error_response. cbn.
      split; [now exists (msg e2)|]. auto.
Qed.

Lemma fallback_run self out batch : forall acc w,
  yields out (length batch) acc w (fallback self out batch acc w).
Proof.
  induction batch as [|req rest IH]; intros acc w; cbn [fallback length].
  - apply yields_ret.
  - destruct (fallback_item self out req w) as (resp & w1 & Hrun & Hev & Hdeg).
    unfold bind at 1. rewrite Hrun.
    destruct (IH (acc ++ [resp])%list w1) as (rs & Hfst & Hlen & Hd & He).
    exists (resp :: rs). split; [|split; [|split]].
    + rewrite Hfst, <- app_assoc. reflexivity.
    + cbn. now rewrite Hlen.
    + intros Hfail. constructor; auto.
    + eapply evolves_trans; eassumption.
Qed.

Lemma batch_chunk_run self out batch acc w :
  tiers_complete self -> batch_replies_aligned out -> ready w batch ->
  yields out (length batch) acc w (batch_chunk self out batch acc w).
Proof.
  intros Htiers Haligned Hready.
  destruct (batch_entries_run self batch w Htiers Hready) as (items & Hrun & Hlen).
  unfold batch_chunk. unfold bind at 1. rewrite Hrun.
  unfold bind at 1. cbn [call].
  set (w1 := {| heap := heap w; calls := S (calls w); ticks := ticks w;
                trace := _ |}).
  assert (Hw1 : evolves w w1) by now apply evolves_same_heap.
  destruct (Haligned (calls w) "/v1/inference/batch"
              {| bp_model := self_model self; bp_requests := items |} (Finite 60))
    as [[e He]|(v & Hv & fields & results & -> & Hres & Hn & Hall)].
  - rewrite He.
    destruct (fallback_run self out batch acc w1) as (rs & Hfst & Hl & Hd & Hev).
    exists rs. split; [exact Hfst|]. split; [exact Hl|]. split; [exact Hd|].
    exact (evolves_trans _ _ _ Hw1 Hev).
  - rewrite Hv. cbn [json_of]. unfold bind at 1. cbn [ret].
    unfold bind at 1, lift at 1. cbn [getitem]. rewrite Hres.
    unfold bind at 1, lift at 1. cbn [iter].
    cbn [bp_requests] in Hn.
    destruct (batch_results_run self out batch results 0 acc w1 Hall)
      as (rs & Hfst & Hl & Hh); [cbn; lia|].
    exists rs. split; [exact Hfst|]. split; [congruence|]. split.
    + intros Hfail. destruct (Hfail (calls w)
        (Post "/v1/inference/batch"
           (Batch {| bp_model := self_model self; bp_requests := items |})
           (Finite 60))) as [e He].
      rewrite Hv in He. discriminate He.
    + eapply evolves_trans; [exact Hw1|]. now apply evolves_same_heap.
Qed.

Lemma batch_chunks_run self out req_group size : forall starts acc w,
  tiers_complete self -> batch_replies_aligned out -> ready w req_group ->
  yields out
    (length (concat (map (fun i => slice req_group i (i + Z.to_nat size)) starts)))
    acc w (batch_chunks self out req_group starts size acc w).
Proof.
  induction starts as [|i rest IH]; intros acc w Htiers Haligned Hready;
    cbn [batch_chunks map concat].
  - apply yields_ret.
  - rewrite length_app. apply yields_bind.
    + apply batch_chunk_run; auto.
      intros r Hr. apply Hready. eapply in_slice, Hr.
    + intros acc' w' Hev. apply IH; auto. eapply ready_evolves; eassumption.
Qed.

Lemma batch_groups_run self out : forall grouped acc w,
  tiers_complete self -> batch_replies_aligned out -> (0 < batch_size self)%Z ->
  ready w (members grouped) ->
  yields out (length (members grouped)) acc w (batch_groups self out grouped acc w).
Proof.
  induction grouped as [|[k req_group] rest IH];
    intros acc w Htiers Haligned Hsize Hready; cbn [batch_groups].
  - apply yields_ret.
  - unfold members in *. cbn [map concat snd] in *. rewrite length_app.
    destruct (range_step (length req_group) (batch_size self)) as [starts|] eqn:Hr.
    2:{ unfold range_step in Hr.
        destruct (Z.eqb_spec (batch_size self) 0) as [E|_]; [lia|].
        destruct (batch_size self <? 0)%Z; discriminate Hr. }
    unfold bind at 1. cbn [ret].
    rewrite <- (range_step_cover req_group (batch_size self) starts Hsize Hr) at 1.
    apply yields_bind.
    + apply batch_chunks_run; auto.
      intros r Hin. apply Hready, in_or_app. now left.
    + intros acc' w' Hev. apply IH; auto.
      eapply ready_evolves; [exact Hev|].
      intros r Hin. apply Hready, in_or_app. now right.
Qed.

Lemma stable_batch_entries self batch : stable (batch_entries self batch).
Proof.
  induction batch as [|req rest IH]; cbn [batch_entries]; [apply stable_ret|].
  unfold batch_entry. stable_steps.
Qed.

Lemma stable_batch_results self out batch results : forall j acc,
  stable (batch_results self out batch j results acc).
Proof.
  induction results as [|r rest IH]; intros j acc; cbn [batch_results];
    stable_steps.
Qed.

Lemma stable_fallback self out batch : forall acc, stable (fallback self out batch acc).
Proof.
  induction batch as [|req rest IH]; intros acc; cbn [fallback]; stable_steps.
Qed.

#[local] Hint Resolve stable_batch_entries stable_batch_results stable_fallback
  : stable.

Lemma stable_batch_chunk self out batch acc : stable (batch_chunk self out batch acc).
Proof. unfold batch_chunk. stable_steps. Qed.

#[local] Hint Resolve stable_batch_chunk : stable.

Lemma stable_batch_chunks self out req_group size starts : forall acc,
  stable (batch_chunks self out req_group starts size acc).
Proof.
  induction starts as [|i rest IH]; intros acc; cbn [batch_chunks]; stable_steps.
Qed.

#[local] Hint Resolve stable_batch_chunks : stable.

Lemma stable_batch_groups self out grouped : forall acc,
  stable (batch_groups self out grouped acc).
Proof.
  induction grouped as [|[k g] rest IH]; intros acc; cbn [batch_groups];
    stable_steps.
Qed.

(** ** Batch dispatch *)

(** C1, as the code has it: when the table has an entry for every
    difficulty, the chunk size is positive and every batch call either fails
    or is answered with one result holding a text per request of the chunk,
    [batch_infer] returns one response per request and does not raise; a
    chunk whose batch call fails is handed, request by request, to the
    single dispatcher, a request whose single call raises gets an error
    response, and when no call succeeds every response is such a one, with
    cluster id "error" and zero latency and tokens. *)
Theorem batch_infer_one_response_each self out requests w :
  tiers_complete self -> (0 < batch_size self)%Z -> batch_replies_aligned out ->
  (exists responses,
     fst (batch_infer self out requests w) = Ok responses
     /\ length responses = length requests
     /\ (all_fail out -> Forall degraded responses))
  /\ (forall batch acc w' items e,
        batch_entries self batch w' = (Ok items, w') ->
        on_call out (calls w')
          (Post "/v1/inference/batch"
             (Batch {| bp_model := self_model self; bp_requests := items |})
             (Finite 60)) = Failed e ->
        exists w'', batch_chunk self out batch acc w' = fallback self out batch acc w'')
  /\ (forall req rest acc w' e2 w'',
        infer self out req 3 w' = (Raised e2, w'') ->
        fallback self out (req :: rest) acc w'
        = fallback self out rest
            (acc ++ [error_response self (heap w'' req) e2 (clock out (ticks w''))])
            (snd (now out w''))).
Proof.
  intros Htiers Hsize Haligned. split; [|split].
  - unfold batch_infer, bind.
    destruct (group_requests_run requests [] w)
      as (grouped & Hok & Hlen & Hin & Hres & Hev & _).
    destruct (group_requests requests [] w) as [[g|e] w1]; cbn [fst snd] in *;
      [|discriminate].
    inversion Hok; subst g.
    destruct (batch_groups_run self out grouped [] w1 Htiers Haligned Hsize)
      as (rs & Hfst & Hl & Hd & _).
    { intros r Hr. destruct (Hin r Hr) as [[]|Hreq].
      rewrite (Hres r Hreq). discriminate. }
    exists rs. split; [exact Hfst|]. split; [|exact Hd].
    rewrite Hl, Hlen. reflexivity.
  - intros batch acc w' items e Hrun He.
    unfold batch_chunk. unfold bind at 1. rewrite Hrun.
    unfold bind at 1. cbn [call]. rewrite He. eexists. reflexivity.
  - intros req rest acc w' e2 w'' Hrun.
    cbn [fallback]. unfold bind at 1, catch, infer_default. rewrite Hrun.
    reflexivity.
Qed.

Lemma batch_infer_one_response_each_witness :
  tiers_complete sample_worker /\ (0 < batch_size sample_worker)%Z
  /\ batch_replies_aligned unreachable /\ all_fail unreachable
  /\ exists responses,
       fst (batch_infer sample_worker unreachable [0; 1; 2]%nat
              (fresh (InferenceRequest_default "Explain gravity"))) = Ok responses
       /\ length responses = 3%nat
       /\ Forall degraded responses.
Proof.
  assert (H1 : tiers_complete sample_worker) by (intros []; discriminate).
  assert (H2 : (0 < batch_size sample_worker)%Z) by reflexivity.
  assert (H3 : batch_replies_aligned unreachable).
  { intros i path b t. left. now exists "connection refused". }
  assert (H4 : all_fail unreachable).
  { intros i ev. now exists "connection refused". }
  split; [exact H1|]. split; [exact H2|]. split; [exact H3|]. split; [exact H4|].
  destruct (proj1 (batch_infer_one_response_each sample_worker unreachable
                     [0; 1; 2]%nat
                     (fresh (InferenceRequest_default "Explain gravity"))
                     H1 H2 H3)) as (responses & Hok & Hlen & Hdeg).
  exists responses. split; [exact Hok|]. split; [exact Hlen|]. exact (Hdeg H4).
Defined.

(** C1 as stated fails: a batch call answered with fewer results than
    requests leaves requests without a response. *)
Lemma batch_infer_may_drop_requests :
  ~ (forall self out requests w,
       exists responses,
         fst (batch_infer self out requests w) = Ok responses
         /\ length responses = length requests).
Proof.
  intros H.
  destruct (H sample_worker forgetful [0%nat]
              (fresh (InferenceRequest_default "Explain gravity")))
    as (responses & Hok & Hlen).
  vm_compute in Hok. inversion Hok; subst responses. discriminate Hlen.
Qed.

(** ** Resolving a difficulty once *)

Lemma infer_difficulty self out request retries w :
  difficulty (heap (snd (infer self out request retries w)) request)
  = Some (resolved (heap w request)).
Proof.
  destruct (resolve_difficulty_heap request w) as (Hd & _).
  rewrite infer_eq. cbv zeta.
  destruct (find_tier _ _) as [t|]; [|exact Hd].
  match goal with
  | |- context [infer_attempts _ _ _ ?j ?p ?st ?r ?n ?a ?l ?w'] =>
      exact (keeps_some _ _ _
               (stable_infer_attempts self out request j p st r n a l w' request) Hd)
  end.
Qed.

Lemma infer_stream_difficulty self out request w :
  difficulty (heap (snd (infer_stream self out request w)) request)
  = Some (resolved (heap w request)).
Proof.
  destruct (set_stream_heap request w) as (Hres & _).
  destruct (resolve_difficulty_heap request (snd (set_stream request w))) as (Hd & _).
  rewrite Hres in Hd.
  rewrite infer_stream_eq. cbv zeta.
  destruct (find_tier _ _) as [t|]; [|exact Hd].
  destruct (Py.float _) as [tm|]; [|exact Hd].
  destruct (on_stream out _ _); exact Hd.
Qed.

Lemma stable_batch_infer self out requests : stable (batch_infer self out requests).
Proof.
  unfold batch_infer. apply stable_bind.
  - intros w. destruct (group_requests_run requests [] w)
      as (grouped & _ & _ & _ & _ & Hev & _). exact Hev.
  - intros grouped. apply stable_batch_groups.
Qed.

Lemma batch_infer_difficulty self out requests w r :
  In r requests ->
  difficulty (heap (snd (batch_infer self out requests w)) r)
  = Some (resolved (heap w r)).
Proof.
  intros Hin. unfold batch_infer, bind.
  destruct (group_requests_run requests [] w)
    as (grouped & Hok & _ & _ & Hres & _).
  specialize (Hres r Hin).
  destruct (group_requests requests [] w) as [[g|e] w1]; cbn [fst snd] in *;
    [|discriminate].
  exact (keeps_some _ _ _ (stable_batch_groups self out g [] w1 r) Hres).
Qed.

(** A request that holds no difficulty when it is dispatched is classified by
    the first dispatch, single, streamed or batched, and the result is
    stored on the request; a difficulty a request holds is never replaced,
    so dispatching the same request again leaves it as it is. *)
Lemma difficulty_resolved_once self out w :
  (forall request retries,
     settles [request] w (snd (infer self out request retries w)))
  /\ (forall request,
        settles [request] w (snd (infer_stream self out request w)))
  /\ (forall requests,
        settles requests w (snd (batch_infer self out requests w)))
  /\ (forall request retries retries',
        difficulty (heap (snd (infer self out request retries'
                                 (snd (infer self out request retries w)))) request)
        = difficulty (heap (snd (infer self out request retries w)) request)).
Proof.
  split; [|split; [|split]].
  - intros request retries. apply evolves_settles; [apply stable_infer|].
    intros r [<-|[]]. apply infer_difficulty.
  - intros request. apply evolves_settles; [apply evolves_infer_stream|].
    intros r [<-|[]]. apply infer_stream_difficulty.
  - intros requests. apply evolves_settles; [apply stable_batch_infer|].
    intros r Hin. now apply batch_infer_difficulty.
  - intros request retries retries'.
    rewrite !infer_difficulty. unfold resolved at 1.
    now rewrite infer_difficulty.
Qed.

Example unclassified_request_is_classified :
  difficulty
    (heap (snd (infer sample_worker unreachable 0%nat 3
                  (fresh (unclassified_request "Prove the theorem")))) 0%nat)
  = Some EXPERT.
Proof.
  exact (proj1 (proj1 (difficulty_resolved_once sample_worker unreachable
                         (fresh (unclassified_request "Prove the theorem")))
                  0%nat 3%Z)
           0%nat (or_introl eq_refl) eq_refl).
Qed.

(** C3 at a request built without a difficulty, [InferenceRequest(prompt=p)]
    with [p] an expert prompt: the dataclass default has already set the
    difficulty to medium, so no dispatch path classifies the prompt and the
    request is sent, and stays, medium. *)
Theorem default_request_is_not_classified :
  let q := InferenceRequest_default "Prove the theorem" in
  difficulty q = Some MEDIUM
  /\ _determine_difficulty (prompt q) (context q) = EXPERT
  /\ difficulty (heap (snd (infer sample_worker unreachable 0%nat 3 (fresh q))) 0%nat)
     = Some MEDIUM
  /\ difficulty (heap (snd (infer_stream sample_worker unreachable 0%nat (fresh q))) 0%nat)
     = Some MEDIUM
  /\ difficulty (heap (snd (batch_infer sample_worker unreachable [0%nat] (fresh q))) 0%nat)
     = Some MEDIUM
  /\ nth_error (trace (snd (infer sample_worker unreachable 0%nat 3 (fresh q)))) 0
     = Some (Post "/v1/inference"
               (Single {| p_model := "overshoot-default";
                          p_prompt := "Prove the theorem";
                          p_temperature := 3 # 10; p_max_tokens := 512;
                          p_stream := false; p_num_passes := 1; p_context := [];
                          p_session_id := None; p_user_id := None |})
               (Finite 30)).
Proof.
  cbv zeta. split; [reflexivity|]. split; [reflexivity|].
  rewrite infer_difficulty, infer_stream_difficulty.
  rewrite batch_infer_difficulty by (now left).
  repeat (split; [reflexivity|]). vm_compute. reflexivity.
Qed.

(** ** Overrides *)

(** C4 at a request that sets its own temperature (0.9) and token budget
    (64) against an easy tier of 0.1 and 256: [infer] sends the request's
    values, while [batch_infer] and [infer_stream] send the tier's; the batch
    call carries no pass count and runs under the fixed timeout 60. *)
Theorem overrides_reach_only_the_single_call :
  nth_error (trace (snd (infer sample_worker unreachable 0%nat 3
                           (fresh overriding_request)))) 0
  = Some (Post "/v1/inference"
            (Single {| p_model := "overshoot-default"; p_prompt := "Hello";
                       p_temperature := 9 # 10; p_max_tokens := 64;
                       p_stream := false; p_num_passes := 1; p_context := [];
                       p_session_id := None; p_user_id := None |})
            (Finite 10))
  /\ nth_error (trace (snd (batch_infer sample_worker unreachable [0%nat]
                              (fresh overriding_request)))) 0
     = Some (Post "/v1/inference/batch"
               (Batch {| bp_model := "overshoot-default";
                         bp_requests :=
                           [{| b_prompt := "Hello"; b_temperature := 1 # 10;
                               b_max_tokens := 256; b_context := [];
                               b_session_id := None; b_user_id := None |}] |})
               (Finite 60))
  /\ trace (snd (infer_stream sample_worker unreachable 0%nat
                   (fresh overriding_request)))
     = [Stream "/v1/inference/stream"
          (Single {| p_model := "overshoot-default"; p_prompt := "Hello";
                     p_temperature := 1 # 10; p_max_tokens := 256;
                     p_stream := true; p_num_passes := 1; p_context := [];
                     p_session_id := None; p_user_id := None |})
          (Finite 10)].
Proof. split; [|split]; vm_compute; reflexivity. Qed.

(** ** More on the single dispatcher *)

(** An attempt that is answered with an object holding a text ends the loop
    with a response. *)
Lemma infer_attempts_answered self out request json p start_time retries tm
    fields txt n attempt last w :
  Py.float (remove_char "s" (params_timeout p)) = Some tm ->
  lookup "text" fields = Some txt ->
  on_call out (calls w) (Post "/v1/inference" (Single json) tm)
  = Replied (Json (PDict fields)) ->
  infer_attempts self out request json p start_time retries (S n) attempt last w
  = (Ok {| text := txt;
           model := field_or fields "model" (PStr (self_model self));
           cluster_id := field_or fields "cluster_id" (PStr "unknown");
           latency_ms := Elapsed start_time (clock out (ticks w));
           tokens_generated := field_or fields "tokens_generated" (PInt 0);
           difficulty_used := difficulty (heap w request);
           timestamp := clock out (S (ticks w)) |},
     {| heap := heap w; calls := S (calls w); ticks := S (S (ticks w));
        trace := (trace w ++ [Post "/v1/inference" (Single json) tm])%list |}).
Proof.
  intros Hparse Htext Hok.
  cbn [infer_attempts]. unfold parse_timeout. rewrite Hparse.
  unfold bind at 1. cbn [ret]. unfold bind at 1. cbn [call]. rewrite Hok.
  unfold bind, json_of, ret, now, lift, get_request. cbn.
  rewrite Htext. unfold field_or.
  destruct (lookup "model" fields), (lookup "cluster_id" fields),
    (lookup "tokens_generated" fields); reflexivity.
Qed.

(** After [k] failed attempts an attempt that is answered with an object
    holding a text ends the loop with a response. *)
Lemma infer_attempts_recovers self out request json p start_time retries tm
    fields txt :
  Py.float (remove_char "s" (params_timeout p)) = Some tm ->
  lookup "text" fields = Some txt ->
  forall k n attempt last w,
    (k < n)%nat -> Z.of_nat n = (retries - attempt)%Z ->
    (forall i, (i < k)%nat ->
       exists e, on_call out (calls w + i)
                   (Post "/v1/inference" (Single json) tm) = Failed e) ->
    on_call out (calls w + k) (Post "/v1/inference" (Single json) tm)
    = Replied (Json (PDict fields)) ->
    let x := infer_attempts self out request json p start_time retries n attempt
               last w in
    fst x = Ok {| text := txt;
                  model := field_or fields "model" (PStr (self_model self));
                  cluster_id := field_or fields "cluster_id" (PStr "unknown");
                  latency_ms := Elapsed start_time (clock out (ticks w));
                  tokens_generated := field_or fields "tokens_generated" (PInt 0);
                  difficulty_used := difficulty (heap w request);
                  timestamp := clock out (S (ticks w)) |}
    /\ trace (snd x)
       = (trace w ++ backoff (Post "/v1/inference" (Single json) tm) (S k) attempt)%list
    /\ calls (snd x) = (calls w + S k)%nat.
Proof.
  intros Hparse Htext. induction k as [|k IH]; intros n attempt last w Hk Hn Hfail Hok.
  - destruct n as [|n]; [lia|]. rewrite Nat.add_0_r in Hok.
    cbv zeta.
    rewrite (infer_attempts_answered self out request json p start_time retries tm
               fields txt n attempt last w Hparse Htext Hok).
    cbn [fst snd trace calls backoff]. split; [reflexivity|].
    split; [reflexivity|lia].
  - destruct n as [|n]; [lia|].
    destruct (Hfail 0%nat) as [e He]; [lia|]. rewrite Nat.add_0_r in He.
    assert (Hlt : (attempt <? retries - 1)%Z = true) by (apply Z.ltb_lt; lia).
    cbv zeta.
    rewrite (infer_attempts_retry self out request json p start_time retries tm
               Hparse n attempt last w e He Hlt).
    set (w2 := snd (sleep (2 ^ attempt) (snd (call out _ w)))).
    assert (Hc2 : calls w2 = S (calls w)) by reflexivity.
    assert (Ht2 : trace w2
                  = (trace w ++ [Post "/v1/inference" (Single json) tm;
                                 Sleep (2 ^ attempt)])%list).
    { subst w2. cbn [sleep emit call snd trace]. now rewrite <- app_assoc. }
    assert (Hh2 : heap w2 = heap w) by reflexivity.
    assert (Hk2 : ticks w2 = ticks w) by reflexivity.
    destruct (IH n (attempt + 1)%Z (Some e) w2) as (Hr & Ht & Hc); [lia | lia | |  |].
    + intros i Hi. rewrite Hc2.
      replace (S (calls w) + i)%nat with (calls w + S i)%nat by lia.
      apply Hfail. lia.
    + rewrite Hc2.
      replace (S (calls w) + k)%nat with (calls w + S k)%nat by lia. exact Hok.
    + rewrite Hh2, Hk2 in Hr. split; [exact Hr|]. split.
      * rewrite Ht, Ht2, (backoff_step _ (S k)) by lia.
        rewrite <- app_assoc. reflexivity.
      * rewrite Hc, Hc2. lia.
Qed.

(** An attempt that is answered with a body that is not JSON, or with an
    object without a text, raises at once. *)
Lemma infer_attempts_bad_body self out request json p start_time retries tm
    n attempt last w b :
  Py.float (remove_char "s" (params_timeout p)) = Some tm ->
  on_call out (calls w) (Post "/v1/inference" (Single json) tm) = Replied b ->
  (forall err, b = NotJson err ->
     fst (infer_attempts self out request json p start_time retries (S n) attempt
            last w) = Raised (Exn JSONDecodeError err))
  /\ (forall fields, b = Json (PDict fields) -> lookup "text" fields = None ->
     fst (infer_attempts self out request json p start_time retries (S n) attempt
            last w) = Raised (Exn KeyError "'text'")).
Proof.
  intros Hparse Hok.
  split; [intros err Hb | intros fields Hb Htext]; subst b;
    cbn [infer_attempts]; unfold parse_timeout; rewrite Hparse;
    unfold bind at 1; cbn [ret]; unfold bind at 1; cbn [call]; rewrite Hok.
  - reflexivity.
  - unfold bind, json_of, ret, now, lift, get_request. cbn.
    rewrite Htext. reflexivity.
Qed.

Lemma slept_backoff path body tm k : forall a,
  (1 <= k)%nat -> (0 <= a)%Z ->
  slept (backoff (Post path body tm) k a) = (2 ^ a * (2 ^ (Z.of_nat k - 1) - 1))%Z.
Proof.
  induction k as [|k IH]; intros a Hk Ha; [lia|].
  destruct k as [|k].
  - cbn. lia.
  - rewrite backoff_step by lia. cbn [slept]. rewrite IH by lia.
    replace (Z.of_nat (S (S k)) - 1)%Z with (Z.succ (Z.of_nat (S k) - 1)) by lia.
    replace (a + 1)%Z with (Z.succ a) by lia.
    rewrite !Z.pow_succ_r by lia. ring.
Qed.

(** X1: when the first [k < retries] calls of [infer] fail and the next one
    is answered with an object holding a text, [infer] returns a response
    with that text; a model, cluster id or token count missing from the
    answer is replaced by the worker's model, "unknown" and 0; the response
    records the request's difficulty and the time from before the first
    attempt to the answer; [k + 1] calls were made with the waits between
    them. *)
Theorem infer_recovers_after_failures self out request retries w t tm k fields txt :
  find_tier (value (resolved (heap w request))) (difficulty_levels self) = Some t ->
  Py.float (remove_char "s" (tier_timeout t)) = Some tm ->
  (Z.of_nat k < retries)%Z ->
  (forall i ev, (i < k)%nat -> exists e, on_call out (calls w + i) ev = Failed e) ->
  (forall ev, on_call out (calls w + k) ev = Replied (Json (PDict fields))) ->
  lookup "text" fields = Some txt ->
  exists json,
    fst (infer self out request retries w)
    = Ok {| text := txt;
            model := field_or fields "model" (PStr (self_model self));
            cluster_id := field_or fields "cluster_id" (PStr "unknown");
            latency_ms := Elapsed (clock out (ticks w)) (clock out (S (ticks w)));
            tokens_generated := field_or fields "tokens_generated" (PInt 0);
            difficulty_used := Some (resolved (heap w request));
            timestamp := clock out (S (S (ticks w))) |}
    /\ trace (snd (infer self out request retries w))
       = (trace w ++ backoff (Post "/v1/inference" (Single json) tm) (S k) 0)%list.
Proof.
  intros Htier Hparse Hk Hfail Hok Htext.
  destruct (resolve_difficulty_heap request w)
    as (Hd & _ & _ & _ & _ & _ & _ & _ & _ & _ & Hticks & Hcalls & Htrace).
  rewrite infer_eq, Htier. cbv zeta.
  set (w1 := snd (resolve_difficulty request w)) in *.
  set (q := heap w1 request). set (p := with_overrides q (tier_params t)).
  set (json := inference_payload self q p (stream q)).
  exists json.
  destruct (infer_attempts_recovers self out request json p (clock out (ticks w1))
              retries tm fields txt Hparse Htext k (Z.to_nat retries) 0%Z None
              (snd (now out w1))) as (Hr & Ht & _).
  - lia.
  - lia.
  - intros i Hi. cbn [now snd calls]. rewrite Hcalls. now apply Hfail.
  - cbn [now snd calls]. rewrite Hcalls. apply Hok.
  - cbn [now snd ticks heap trace] in *. fold q in Hr.
    rewrite Hr, Ht, Hticks, Htrace. subst q. rewrite Hd. split; reflexivity.
Qed.

Lemma infer_recovers_after_failures_witness :
  exists json,
    fst (infer sample_worker (flaky 2 (PDict [("text", PStr "42")])) 0%nat 3
           (fresh (InferenceRequest_default "Explain gravity")))
    = Ok {| text := PStr "42";
            model := PStr "overshoot-default";
            cluster_id := PStr "unknown";
            latency_ms := Elapsed 0 1000;
            tokens_generated := PInt 0;
            difficulty_used := Some MEDIUM;
            timestamp := 2000 |}
    /\ trace (snd (infer sample_worker (flaky 2 (PDict [("text", PStr "42")])) 0%nat 3
                     (fresh (InferenceRequest_default "Explain gravity"))))
       = [Post "/v1/inference" (Single json) (Finite 30); Sleep 1;
          Post "/v1/inference" (Single json) (Finite 30); Sleep 2;
          Post "/v1/inference" (Single json) (Finite 30)].
Proof.
  refine (infer_recovers_after_failures sample_worker
            (flaky 2 (PDict [("text", PStr "42")])) 0%nat 3
            (fresh (InferenceRequest_default "Explain gravity"))
            {| tier_temperature := 3 # 10; tier_max_tokens := 512;
               tier_num_passes := 1; tier_timeout := "30s" |}
            (Finite 30) 2 [("text", PStr "42")] (PStr "42") _ _ _ _ _ _);
    try reflexivity.
  intros [|[|i]] ev Hi; [now exists "read timeout" | now exists "read timeout" | lia].
Defined.

(** X2: only [httpx.HTTPError] is retried: when the first call of [infer] is
    answered, whatever the body, no second call and no wait follow; a body
    that is not JSON raises the decoding error and an object without a text
    raises [KeyError]. *)
Theorem infer_does_not_retry_bad_replies self out request retries w t tm b :
  find_tier (value (resolved (heap w request))) (difficulty_levels self) = Some t ->
  Py.float (remove_char "s" (tier_timeout t)) = Some tm ->
  (1 <= retries)%Z ->
  (forall ev, on_call out (calls w) ev = Replied b) ->
  (exists json,
     trace (snd (infer self out request retries w))
     = (trace w ++ [Post "/v1/inference" (Single json) tm])%list)
  /\ (forall err, b = NotJson err ->
        fst (infer self out request retries w) = Raised (Exn JSONDecodeError err))
  /\ (forall fields, b = Json (PDict fields) -> lookup "text" fields = None ->
        fst (infer self out request retries w) = Raised (Exn KeyError "'text'")).
Proof.
  intros Htier Hparse Hretries Hok.
  destruct (resolve_difficulty_heap request w)
    as (_ & _ & _ & _ & _ & _ & _ & _ & _ & _ & Hticks & Hcalls & Htrace).
  rewrite infer_eq, Htier. cbv zeta.
  set (w1 := snd (resolve_difficulty request w)) in *.
  set (q := heap w1 request). set (p := with_overrides q (tier_params t)).
  set (json := inference_payload self q p (stream q)).
  destruct (Z.to_nat retries) as [|n] eqn:En; [lia|].
  assert (Hok' : on_call out (calls (snd (now out w1)))
                   (Post "/v1/inference" (Single json) tm) = Replied b)
    by (cbn [now snd calls]; rewrite Hcalls; apply Hok).
  split; [|exact (infer_attempts_bad_body self out request json p
                    (clock out (ticks w1)) retries tm n 0%Z None
                    (snd (now out w1)) b Hparse Hok')].
  exists json.
  destruct (infer_attempts_replied self out request json p (clock out (ticks w1))
              retries tm Hparse n 0%Z None (snd (now out w1)) b Hok')
    as (m & Hq & ->).
  destruct (Hq (snd (call out (Post "/v1/inference" (Single json) tm)
                       (snd (now out w1))))) as [Ht _].
  rewrite Ht. cbn [call now snd trace]. now rewrite Htrace.
Qed.

Lemma infer_does_not_retry_bad_replies_witness :
  fst (infer sample_worker garbling 0%nat 3
         (fresh (InferenceRequest_default "Explain gravity")))
  = Raised (Exn JSONDecodeError "Expecting value: line 1 column 1 (char 0)").
Proof.
  refine (proj1 (proj2
            (infer_does_not_retry_bad_replies sample_worker garbling 0%nat 3
               (fresh (InferenceRequest_default "Explain gravity"))
               {| tier_temperature := 3 # 10; tier_max_tokens := 512;
                  tier_num_passes := 1; tier_timeout := "30s" |}
               (Finite 30) (NotJson "Expecting value: line 1 column 1 (char 0)")
               _ _ _ _)) _ eq_refl);
    first [reflexivity | lia].
Defined.

Lemma set_stream_flag r w :
  stream (heap (snd (set_stream r w)) r) = true.
Proof.
  unfold set_stream, bind, get_request, put_request. cbn.
  now rewrite Nat.eqb_refl.
Qed.

(** X3: a difficulty without an entry in the table makes [infer] and
    [infer_stream] raise [KeyError] before any call is made; by then the
    request already holds its resolved difficulty, and [infer_stream] has
    set its stream flag. *)
Theorem missing_tier_raises_before_any_call self out request w :
  find_tier (value (resolved (heap w request))) (difficulty_levels self) = None ->
  (forall retries,
     fst (infer self out request retries w)
     = Raised (Exn KeyError (repr_str (value (resolved (heap w request)))))
     /\ trace (snd (infer self out request retries w)) = trace w
     /\ calls (snd (infer self out request retries w)) = calls w
     /\ difficulty (heap (snd (infer self out request retries w)) request)
        = Some (resolved (heap w request)))
  /\ fst (infer_stream self out request w)
     = ([], Raised (Exn KeyError (repr_str (value (resolved (heap w request))))))
  /\ trace (snd (infer_stream self out request w)) = trace w
  /\ calls (snd (infer_stream self out request w)) = calls w
  /\ stream (heap (snd (infer_stream self out request w)) request) = true.
Proof.
  intros Htier. split.
  - intros retries. rewrite infer_eq, Htier. cbv zeta. cbn [fst snd].
    destruct (resolve_difficulty_heap request w)
      as (Hd & _ & _ & _ & _ & _ & _ & _ & _ & _ & _ & Hcalls & Htrace).
    auto.
  - rewrite infer_stream_eq, Htier. cbv zeta. cbn [fst snd].
    destruct (set_stream_heap request w) as (_ & _ & Hc0 & Ht0).
    destruct (resolve_difficulty_heap request (snd (set_stream request w)))
      as (_ & _ & _ & _ & Hs & _ & _ & _ & _ & _ & _ & Hc1 & Ht1).
    split; [reflexivity|]. split; [congruence|]. split; [congruence|].
    rewrite Hs. apply set_stream_flag.
Qed.

Lemma missing_tier_raises_before_any_call_witness :
  fst (infer partial_worker unreachable 0%nat 3
         (fresh (InferenceRequest_default "Explain gravity")))
  = Raised (Exn KeyError "'medium'")
  /\ trace (snd (infer partial_worker unreachable 0%nat 3
                   (fresh (InferenceRequest_default "Explain gravity")))) = [].
Proof.
  destruct (proj1 (missing_tier_raises_before_any_call partial_worker unreachable
                     0%nat (fresh (InferenceRequest_default "Explain gravity"))
                     eq_refl) 3%Z) as (H1 & H2 & _).
  split; [exact H1 | exact H2].
Defined.

(** X4: with [retries] zero or negative [infer] makes no attempt at all and
    raises the exception that follows the loop, whose text names the number
    of attempts and no error. *)
Theorem infer_without_attempts self out request retries w t :
  (retries <= 0)%Z ->
  find_tier (value (resolved (heap w request))) (difficulty_levels self) = Some t ->
  fst (infer self out request retries w)
  = Raised (Exn Exception
              ("Inference failed after " ++ str_int retries ++ " attempts: None"))
  /\ trace (snd (infer self out request retries w)) = trace w
  /\ calls (snd (infer self out request retries w)) = calls w.
Proof.
  intros Hretries Htier. rewrite infer_eq, Htier. cbv zeta.
  replace (Z.to_nat retries) with 0%nat by lia.
  cbn [infer_attempts raise fst snd now trace calls option_str].
  destruct (resolve_difficulty_heap request w)
    as (_ & _ & _ & _ & _ & _ & _ & _ & _ & _ & _ & Hcalls & Htrace).
  auto.
Qed.

Lemma infer_without_attempts_witness :
  fst (infer sample_worker unreachable 0%nat 0
         (fresh (InferenceRequest_default "Explain gravity")))
  = Raised (Exn Exception "Inference failed after 0 attempts: None")
  /\ trace (snd (infer sample_worker unreachable 0%nat 0
                   (fresh (InferenceRequest_default "Explain gravity")))) = [].
Proof.
  destruct (infer_without_attempts sample_worker unreachable 0%nat 0
              (fresh (InferenceRequest_default "Explain gravity"))
              {| tier_temperature := 3 # 10; tier_max_tokens := 512;
                 tier_num_passes := 1; tier_timeout := "30s" |})
    as (H1 & H2 & _); [lia | reflexivity |].
  split; [exact H1 | exact H2].
Defined.

(** X5: when every call fails, [infer] with [retries >= 1] has waited
    [2^(retries-1) - 1] seconds in all by the time it gives up (3 seconds
    for the default of three attempts). *)
Theorem infer_total_wait self out request retries w t tm :
  find_tier (value (resolved (heap w request))) (difficulty_levels self) = Some t ->
  Py.float (remove_char "s" (tier_timeout t)) = Some tm ->
  (1 <= retries)%Z ->
  all_fail out ->
  exists evs,
    trace (snd (infer self out request retries w)) = (trace w ++ evs)%list
    /\ slept evs = (2 ^ (retries - 1) - 1)%Z.
Proof.
  intros Htier Hparse Hretries Hfail.
  destruct (resolve_difficulty_heap request w)
    as (_ & _ & _ & _ & _ & _ & _ & _ & _ & _ & _ & _ & Htrace).
  rewrite infer_eq, Htier. cbv zeta.
  set (w1 := snd (resolve_difficulty request w)) in *.
  set (q := heap w1 request). set (p := with_overrides q (tier_params t)).
  set (json := inference_payload self q p (stream q)).
  destruct (infer_attempts_backoff self out request json p (clock out (ticks w1))
              retries tm Hparse (Z.to_nat retries) 0%Z None (snd (now out w1)))
    as (k & Hk & Ht & _ & Hall); [lia | lia |].
  destruct (Hall Hfail) as (-> & _).
  exists (backoff (Post "/v1/inference" (Single json) tm) (Z.to_nat retries) 0).
  split.
  - rewrite Ht. cbn [now snd trace]. now rewrite Htrace.
  - rewrite slept_backoff by lia. rewrite Z2Nat.id by lia. cbn [Z.pow]. lia.
Qed.

Lemma infer_total_wait_witness :
  exists evs,
    trace (snd (infer sample_worker unreachable 0%nat 3
                  (fresh (InferenceRequest_default "Explain gravity")))) = evs
    /\ slept evs = 3%Z.
Proof.
  destruct (infer_total_wait sample_worker unreachable 0%nat 3
              (fresh (InferenceRequest_default "Explain gravity"))
              {| tier_temperature := 3 # 10; tier_max_tokens := 512;
                 tier_num_passes := 1; tier_timeout := "30s" |} (Finite 30))
    as (evs & H1 & H2); [reflexivity | reflexivity | lia | |].
  - intros i ev. now exists "connection refused".
  - exists evs. split; [exact H1 | exact H2].
Defined.

(** X6: every call [infer] makes carries the request's own temperature and
    token budget where the request sets them and the tier's otherwise; the
    pass count and the timeout are the tier's, and prompt, model, stream
    flag, context and identifiers are the request's and the worker's. *)
Theorem infer_payload_parameters self out request retries w t :
  find_tier (value (resolved (heap w request))) (difficulty_levels self) = Some t ->
  exists k json tm,
    trace (snd (infer self out request retries w))
    = (trace w ++ backoff (Post "/v1/inference" (Single json) tm) k 0)%list
    /\ ((1 <= k)%nat -> Py.float (remove_char "s" (tier_timeout t)) = Some tm)
    /\ p_temperature json
       = match temperature (heap w request) with
         | Some x => x
         | None => tier_temperature t
         end
    /\ p_max_tokens json
       = match max_tokens (heap w request) with
         | Some x => x
         | None => tier_max_tokens t
         end
    /\ p_num_passes json = tier_num_passes t
    /\ p_model json = self_model self
    /\ p_prompt json = prompt (heap w request)
    /\ p_stream json = stream (heap w request)
    /\ p_context json = or_empty (context (heap w request))
    /\ p_session_id json = session_id (heap w request)
    /\ p_user_id json = user_id (heap w request).
Proof.
  intros Htier.
  destruct (resolve_difficulty_heap request w)
    as (_ & _ & Hp & Hc & Hs & Hte & Hm & Hsi & Hu & _ & _ & _ & Htrace).
  rewrite infer_eq, Htier. cbv zeta.
  set (w1 := snd (resolve_difficulty request w)) in *.
  set (q := heap w1 request) in *. set (p := with_overrides q (tier_params t)).
  set (json := inference_payload self q p (stream q)).
  assert (Hfields :
            p_temperature json
            = match temperature (heap w request) with
              | Some x => x
              | None => tier_temperature t
              end
            /\ p_max_tokens json
               = match max_tokens (heap w request) with
                 | Some x => x
                 | None => tier_max_tokens t
                 end
            /\ p_num_passes json = tier_num_passes t
            /\ p_model json = self_model self
            /\ p_prompt json = prompt (heap w request)
            /\ p_stream json = stream (heap w request)
            /\ p_context json = or_empty (context (heap w request))
            /\ p_session_id json = session_id (heap w request)
            /\ p_user_id json = user_id (heap w request)).
  { subst json p. cbn. rewrite Hte, Hm, Hp, Hs, Hc, Hsi, Hu. auto 10. }
  destruct (Py.float (remove_char "s" (tier_timeout t))) as [tm|] eqn:Hparse.
  - destruct (Z.to_nat retries) as [|n] eqn:En.
    + exists 0%nat, json, tm. cbn [infer_attempts raise snd now trace backoff].
      rewrite app_nil_r. split; [exact Htrace|]. split; [lia|exact Hfields].
    + destruct (infer_attempts_backoff self out request json p (clock out (ticks w1))
                  retries tm Hparse (S n) (retries - Z.of_nat (S n))%Z None
                  (snd (now out w1)))
        as (k & Hk & Ht & _); [lia | lia |].
      replace (retries - Z.of_nat (S n))%Z with 0%Z in * by lia.
      exists k, json, tm. split; [|split; [reflexivity|exact Hfields]].
      rewrite Ht. cbn [now snd trace]. now rewrite Htrace.
  - exists 0%nat, json, NaN. split; [|split; [lia|exact Hfields]].
    cbn [backoff]. rewrite app_nil_r.
    destruct (Z.to_nat retries) as [|n]; [exact Htrace|].
    rewrite infer_attempts_bad_timeout by exact Hparse.
    cbn [snd now trace]. exact Htrace.
Qed.

Lemma infer_payload_parameters_witness :
  exists k json tm,
    trace (snd (infer sample_worker unreachable 0%nat 3 (fresh overriding_request)))
    = backoff (Post "/v1/inference" (Single json) tm) k 0
    /\ p_temperature json = 9 # 10 /\ p_max_tokens json = 64%Z
    /\ p_num_passes json = 1%Z.
Proof.
  destruct (infer_payload_parameters sample_worker unreachable 0%nat 3
              (fresh overriding_request)
              {| tier_temperature := 1 # 10; tier_max_tokens := 256;
                 tier_num_passes := 1; tier_timeout := "10s" |} eq_refl)
    as (k & json & tm & H1 & _ & H2 & H3 & H4 & _).
  exists k, json, tm. split; [exact H1|]. split; [exact H2|]. split; [exact H3|exact H4].
Defined.

(** ** The requests a dispatch leaves alone *)

Lemma confined_weaken {A} (rs rs' : list ref) (m : M A) :
  incl rs rs' -> confined rs m -> confined rs' m.
Proof.
  intros Hincl Hm w r. destruct (Hm w r) as [H1 H2]. split; [|exact H2].
  intros Hr. apply H1. intros Hin. apply Hr, Hincl, Hin.
Qed.

Lemma confined_same_heap {A} (rs : list ref) (m : M A) :
  (forall w, heap (snd (m w)) = heap w) -> confined rs m.
Proof. intros H w r. rewrite H. auto. Qed.

Lemma confined_bind {A B} (rs : list ref) (m : M A) (k : A -> M B) :
  confined rs m -> (forall a w, fst (m w) = Ok a -> confined rs (k a)) ->
  confined rs (bind m k).
Proof.
  intros Hm Hk w r. unfold bind. specialize (Hm w r). specialize (Hk).
  destruct (m w) as [[a|e] w1] eqn:E; cbn [snd] in *; [|exact Hm].
  assert (Ha : fst (m w) = Ok a) by now rewrite E.
  destruct (Hk a w Ha w1 r) as [H1 H2]. destruct Hm as [H3 H4].
  split; [|congruence]. intros Hr. rewrite H1, H3; auto.
Qed.

Lemma confined_catch {A} (rs : list ref) (m : M A) (h : exn -> M A) :
  confined rs m -> (forall e, confined rs (h e)) -> confined rs (catch m h).
Proof.
  intros Hm Hh w r. unfold catch. specialize (Hm w r).
  destruct (m w) as [[a|e] w1]; cbn [snd] in *; [exact Hm|].
  destruct (Hh e w1 r) as [H1 H2]. destruct Hm as [H3 H4].
  split; [|congruence]. intros Hr. rewrite H1, H3; auto.
Qed.

Lemma confined_ret {A} rs (a : A) : confined rs (ret a).
Proof. now apply confined_same_heap. Qed.

Lemma confined_raise {A} rs (e : exn) : confined rs (@raise A e).
Proof. now apply confined_same_heap. Qed.

Lemma confined_lift {A} rs (r : result A) : confined rs (lift r).
Proof. now apply confined_same_heap. Qed.

Lemma confined_get_request rs r : confined rs (get_request r).
Proof. now apply confined_same_heap. Qed.

Lemma confined_sleep rs n : confined rs (sleep n).
Proof. now apply confined_same_heap. Qed.

Lemma confined_now rs out : confined rs (now out).
Proof. now apply confined_same_heap. Qed.

Lemma confined_call rs out e : confined rs (call out e).
Proof. now apply confined_same_heap. Qed.

Lemma confined_json_of rs b : confined rs (json_of b).
Proof. destruct b; now apply confined_same_heap. Qed.

Lemma confined_parse_timeout rs t : confined rs (parse_timeout t).
Proof. unfold parse_timeout. destruct (Py.float _); now apply confined_same_heap. Qed.

Lemma confined_get_inference_params rs self d :
  confined rs (_get_inference_params self d).
Proof.
  unfold _get_inference_params. destruct (find_tier _ _); now apply confined_same_heap.
Qed.

Lemma confined_resolve_difficulty rs r :
  In r rs -> confined rs (resolve_difficulty r).
Proof.
  intros Hin w r'.
  destruct (resolve_difficulty_heap r w)
    as (_ & _ & _ & _ & Hs & _ & _ & _ & _ & Hother & _).
  destruct (Nat.eq_dec r' r) as [->|Hne].
  - split; [intros Hr; contradiction | exact Hs].
  - rewrite (Hother r' Hne). auto.
Qed.

Create HintDb confined.

#[local] Hint Resolve confined_ret confined_raise confined_lift
  confined_get_request confined_sleep confined_now confined_call
  confined_json_of confined_parse_timeout confined_get_inference_params
  : confined.

Ltac confined_steps :=
  repeat first
    [ solve [auto with confined]
    | apply confined_bind; [|intros ? ? _]
    | apply confined_catch; [|intros]
    | match goal with
      | |- confined _ (match ?x with _ => _ end) => destruct x
      end ].

Lemma confined_infer_attempts rs self out request json p start_time retries n :
  forall attempt last,
    confined rs (infer_attempts self out request json p start_time retries n
                   attempt last).
Proof.
  induction n as [|n IH]; intros attempt last; cbn [infer_attempts];
    confined_steps.
Qed.

Lemma confined_infer rs self out request retries :
  In request rs -> confined rs (infer self out request retries).
Proof.
  intros Hin. unfold infer. apply confined_bind.
  - now apply confined_resolve_difficulty.
  - intros d w _. confined_steps. apply confined_infer_attempts.
Qed.

Lemma confined_batch_entries rs self batch : confined rs (batch_entries self batch).
Proof.
  induction batch as [|req rest IH]; cbn [batch_entries]; [apply confined_ret|].
  unfold batch_entry. confined_steps.
Qed.

Lemma confined_batch_results rs self out batch results : forall j acc,
  confined rs (batch_results self out batch j results acc).
Proof.
  induction results as [|r rest IH]; intros j acc; cbn [batch_results];
    confined_steps.
Qed.

Lemma confined_fallback rs self out batch : incl batch rs -> forall acc,
  confined rs (fallback self out batch acc).
Proof.
  induction batch as [|req rest IH]; intros Hincl acc; cbn [fallback];
    [apply confined_ret|].
  apply confined_bind.
  - apply confined_catch; [|intros; confined_steps].
    apply confined_infer, Hincl. now left.
  - intros resp w _. apply IH. intros r Hr. apply Hincl. now right.
Qed.

Lemma confined_batch_chunk rs self out batch acc :
  incl batch rs -> confined rs (batch_chunk self out batch acc).
Proof.
  intros Hincl. unfold batch_chunk.
  apply confined_bind; [apply confined_batch_entries|]. intros items w _.
  apply confined_bind; [apply confined_call|]. intros [e|b] w' _.
  - now apply confined_fallback.
  - confined_steps. apply confined_batch_results.
Qed.

Lemma confined_batch_chunks rs self out req_group size starts :
  incl req_group rs -> forall acc,
  confined rs (batch_chunks self out req_group starts size acc).
Proof.
  intros Hincl. induction starts as [|i rest IH]; intros acc; cbn [batch_chunks];
    [apply confined_ret|].
  apply confined_bind; [|intros; apply IH].
  apply confined_batch_chunk. intros r Hr. eapply Hincl, in_slice, Hr.
Qed.

Lemma confined_batch_groups rs self out grouped :
  incl (members grouped) rs -> forall acc,
  confined rs (batch_groups self out grouped acc).
Proof.
  induction grouped as [|[k g] rest IH]; intros Hincl acc; cbn [batch_groups];
    [apply confined_ret|].
  unfold members in Hincl. cbn [map concat snd] in Hincl.
  apply confined_bind; [confined_steps|]. intros starts w _.
  apply confined_bind.
  - apply confined_batch_chunks. intros r Hr. apply Hincl, in_or_app. now left.
  - intros acc' w' _. apply IH. intros r Hr. apply Hincl, in_or_app. now right.
Qed.

Lemma confined_group_requests requests : forall rs grouped,
  incl requests rs -> confined rs (group_requests requests grouped).
Proof.
  induction requests as [|req rest IH]; intros rs grouped Hincl;
    cbn [group_requests]; [apply confined_ret|].
  apply confined_bind.
  - apply confined_resolve_difficulty, Hincl. now left.
  - intros d w _. apply IH. intros r Hr. apply Hincl. now right.
Qed.

Lemma confined_batch_infer self out requests :
  confined requests (batch_infer self out requests).
Proof.
  unfold batch_infer. apply confined_bind.
  - apply confined_group_requests, incl_refl.
  - intros grouped w Hok. apply confined_batch_groups.
    destruct (group_requests_run requests [] w) as (g & Hg & _ & Hin & _).
    rewrite Hok in Hg. inversion Hg; subst g.
    intros r Hr. destruct (Hin r Hr) as [[]|H]. exact H.
Qed.

Lemma keeps_same_but_difficulty q q' :
  keeps q q' -> stream q' = stream q -> same_but_difficulty q q'.
Proof.
  unfold keeps, same_but_difficulty.
  intros (H1 & H2 & H3 & H4 & H5 & H6 & _) H7. auto 10.
Qed.

(** X7: a dispatch changes nothing of a request but the difficulty it holds
    (and, for [infer_stream], the stream flag, which it sets), and it changes
    no request other than those it was given. *)
Theorem dispatch_touches_only_its_requests self out w :
  (forall request retries,
     let w' := snd (infer self out request retries w) in
     same_but_difficulty (heap w request) (heap w' request)
     /\ forall r, r <> request -> heap w' r = heap w r)
  /\ (forall request,
        let w' := snd (infer_stream self out request w) in
        keeps (heap w request) (heap w' request)
        /\ stream (heap w' request) = true
        /\ forall r, r <> request -> heap w' r = heap w r)
  /\ (forall requests,
        let w' := snd (batch_infer self out requests w) in
        (forall r, same_but_difficulty (heap w r) (heap w' r))
        /\ forall r, ~ In r requests -> heap w' r = heap w r).
Proof.
  split; [|split].
  - intros request retries w'. subst w'.
    pose proof (confined_infer [request] self out request retries
                  (or_introl eq_refl) w) as Hc.
    split.
    + apply keeps_same_but_difficulty; [apply stable_infer | apply Hc].
    + intros r Hne. apply Hc. intros [Heq|[]]. now apply Hne.
  - intros request w'. subst w'.
    split; [apply evolves_infer_stream|].
    rewrite infer_stream_eq. cbv zeta.
    set (w0 := snd (set_stream request w)).
    set (w1 := snd (resolve_difficulty request w0)).
    assert (H1 : stream (heap w1 request) = true
                 /\ forall r, r <> request -> heap w1 r = heap w r).
    { destruct (resolve_difficulty_heap request w0)
        as (_ & _ & _ & _ & Hs & _ & _ & _ & _ & Hother & _).
      fold w1 in Hs, Hother. split.
      - rewrite Hs. apply set_stream_flag.
      - intros r Hne. rewrite (Hother r Hne). subst w0.
        unfold set_stream, bind, get_request, put_request. cbn.
        apply Nat.eqb_neq in Hne. now rewrite Hne. }
    destruct (find_tier _ _); [|exact H1].
    destruct (Py.float _); [|exact H1].
    destruct (on_stream out _ _); exact H1.
  - intros requests w'. subst w'.
    pose proof (confined_batch_infer self out requests w) as Hc.
    split.
    + intros r. apply keeps_same_but_difficulty;
        [apply stable_batch_infer | apply Hc].
    + intros r Hr. now apply Hc.
Qed.

Lemma dispatch_touches_only_its_requests_witness :
  heap (snd (infer sample_worker unreachable 0%nat 3
               (fresh (unclassified_request "Prove the theorem")))) 1%nat
  = unclassified_request "Prove the theorem".
Proof.
  refine (proj2 (proj1 (dispatch_touches_only_its_requests sample_worker unreachable
                          (fresh (unclassified_request "Prove the theorem")))
                   0%nat 3%Z) 1%nat _).
  discriminate.
Defined.

(** ** Grouping by difficulty *)

Lemma group_of_append grouped k req k' :
  group_of k' (group_append grouped k req)
  = if String.eqb k' k then (group_of k grouped ++ [req])%list
    else group_of k' grouped.
Proof.
  induction grouped as [|[k0 g] rest IH]; cbn [group_append group_of].
  - now destruct (String.eqb k' k).
  - destruct (String.eqb_spec k k0) as [->|Hne]; cbn [group_of].
    + rewrite ?String.eqb_refl. now destruct (String.eqb k' k0).
    + destruct (String.eqb_spec k' k0) as [E|Hne'].
      * subst k'. destruct (String.eqb_spec k0 k) as [E|_]; [|reflexivity].
        subst k0. contradiction.
      * exact IH.
Qed.

Lemma keys_group_append grouped k req :
  map fst (group_append grouped k req)
  = if existsb (String.eqb k) (map fst grouped) then map fst grouped
    else (map fst grouped ++ [k])%list.
Proof.
  induction grouped as [|[k0 g] rest IH]; cbn [group_append map fst existsb];
    [reflexivity|].
  destruct (String.eqb k k0); cbn [map fst orb]; [reflexivity|].
  rewrite IH. now destruct (existsb _ _).
Qed.

Lemma nonempty_group_append grouped k req :
  (forall k' g, In (k', g) grouped -> g <> []) ->
  forall k' g, In (k', g) (group_append grouped k req) -> g <> [].
Proof.
  induction grouped as [|[k0 g0] rest IH]; intros Hne k' g; cbn [group_append].
  - intros [H|[]]. inversion H. discriminate.
  - destruct (String.eqb k k0).
    + intros [H|H].
      * inversion H. now destruct g0.
      * apply (Hne k' g). now right.
    + intros [H|H].
      * apply (Hne k' g). now left.
      * apply (IH (fun k1 g1 H1 => Hne k1 g1 (or_intror H1)) k' g H).
Qed.

Lemma members_append_perm grouped k req :
  Permutation (members (group_append grouped k req)) (members grouped ++ [req]).
Proof.
  unfold members. induction grouped as [|[k0 g] rest IH]; cbn [group_append].
  - reflexivity.
  - destruct (String.eqb k k0); cbn [map concat snd].
    + rewrite <- !app_assoc. apply Permutation_app_head, Permutation_app_comm.
    + rewrite <- app_assoc. now apply Permutation_app_head.
Qed.

Lemma in_group_of grouped k g :
  NoDup (map fst grouped) -> In (k, g) grouped -> group_of k grouped = g.
Proof.
  induction grouped as [|[k0 g0] rest IH]; intros Hnd; [intros []|].
  cbn [map fst] in Hnd. inversion Hnd as [|? ? Hnotin Hnd']; subst.
  intros [H|H]; cbn [group_of].
  - inversion H; subst. now rewrite String.eqb_refl.
  - destruct (String.eqb_spec k k0) as [->|_]; [|now apply IH].
    exfalso. apply Hnotin. apply (in_map fst) in H. exact H.
Qed.

(** What the first loop of [batch_infer] keeps true of the groups built from
    the requests seen so far. *)
Lemma group_requests_invariant w0 rest : forall grouped seen w,
  evolves w0 w ->
  NoDup (map fst grouped) ->
  (forall k, group_of k grouped
             = filter (fun r => String.eqb (key_of w0 r) k) seen) ->
  (forall k g, In (k, g) grouped -> g <> []) ->
  Permutation (members grouped) seen ->
  exists grouped',
    fst (group_requests rest grouped w) = Ok grouped'
    /\ NoDup (map fst grouped')
    /\ (forall k, group_of k grouped'
                  = filter (fun r => String.eqb (key_of w0 r) k) (seen ++ rest))
    /\ (forall k g, In (k, g) grouped' -> g <> [])
    /\ Permutation (members grouped') (seen ++ rest).
Proof.
  induction rest as [|req rest IH]; intros grouped seen w Hev Hnd Hgrp Hne Hperm.
  - exists grouped. rewrite app_nil_r. cbn. auto.
  - cbn [group_requests]. unfold bind. rewrite resolve_difficulty_eq.
    rewrite (keeps_resolved _ _ (Hev req)). fold (key_of w0 req).
    replace (seen ++ req :: rest)%list with ((seen ++ [req]) ++ rest)%list
      by (rewrite <- app_assoc; reflexivity).
    apply IH.
    + eapply evolves_trans; [exact Hev | apply stable_resolve_difficulty].
    + rewrite keys_group_append.
      destruct (existsb _ _) eqn:E; [exact Hnd|].
      apply NoDup_app; [exact Hnd | repeat constructor; intros [] |].
      intros k Hk [<-|[]].
      assert (existsb (String.eqb (key_of w0 req)) (map fst grouped) = true).
      { apply existsb_exists. exists (key_of w0 req). split; [exact Hk|].
        apply String.eqb_refl. }
      congruence.
    + intros k. rewrite group_of_append, filter_app, Hgrp. cbn [filter].
      rewrite (String.eqb_sym (key_of w0 req) k).
      destruct (String.eqb_spec k (key_of w0 req)) as [->|_];
        [reflexivity | now rewrite app_nil_r].
    + now apply nonempty_group_append.
    + rewrite members_append_perm. now apply Permutation_app_tail.
Qed.

(** X8: the first loop of [batch_infer] splits the requests into one group
    per difficulty that occurs: the keys are distinct, each group is not
    empty and holds exactly the requests of its difficulty in the order they
    were given, and the groups together are a rearrangement of the
    requests. *)
Theorem group_requests_partitions requests w :
  exists grouped,
    fst (group_requests requests [] w) = Ok grouped
    /\ NoDup (map fst grouped)
    /\ (forall k g, In (k, g) grouped ->
          g <> [] /\ g = filter (fun r => String.eqb (key_of w r) k) requests)
    /\ Permutation (members grouped) requests.
Proof.
  destruct (group_requests_invariant w requests [] [] w (evolves_refl w))
    as (grouped & Hok & Hnd & Hgrp & Hne & Hperm).
  - constructor.
  - reflexivity.
  - intros k g [].
  - reflexivity.
  - exists grouped. split; [exact Hok|]. split; [exact Hnd|].
    split; [|exact Hperm].
    intros k g Hin. split; [exact (Hne k g Hin)|].
    rewrite <- (in_group_of grouped k g Hnd Hin). apply Hgrp.
Qed.

Lemma group_requests_partitions_witness :
  exists grouped,
    fst (group_requests [0; 1; 2]%nat []
           (fresh (InferenceRequest_default "Explain gravity"))) = Ok grouped
    /\ In ("medium", [0; 1; 2]%nat) grouped
    /\ [0; 1; 2]%nat <> [].
Proof.
  destruct (group_requests_partitions [0; 1; 2]%nat
              (fresh (InferenceRequest_default "Explain gravity")))
    as (grouped & Hok & _ & Hgrp & _).
  exists grouped. split; [exact Hok|].
  assert (Hin : In ("medium", [0; 1; 2]%nat) grouped).
  { vm_compute in Hok. inversion Hok. now left. }
  split; [exact Hin|]. exact (proj1 (Hgrp _ _ Hin)).
Defined.

(** ** The calls a batch dispatch makes *)

Lemma emits_quiet {A} P (m : M A) : quiet m -> emits P m.
Proof.
  intros Hq w. exists []. rewrite app_nil_r. split; [apply Hq | constructor].
Qed.

Lemma emits_bind {A B} P (m : M A) (k : A -> M B) :
  emits P m -> (forall a w, fst (m w) = Ok a -> emits P (k a)) ->
  emits P (bind m k).
Proof.
  intros Hm Hk w. unfold bind. destruct (Hm w) as (evs & Ht & Hp).
  destruct (m w) as [[a|e] w1] eqn:E; cbn [snd] in *; [|now exists evs].
  assert (Ha : fst (m w) = Ok a) by now rewrite E.
  destruct (Hk a w Ha w1) as (evs' & Ht' & Hp').
  exists (evs ++ evs')%list. split.
  - rewrite Ht', Ht, app_assoc. reflexivity.
  - apply Forall_app. auto.
Qed.

Lemma emits_catch {A} P (m : M A) (h : exn -> M A) :
  emits P m -> (forall e, emits P (h e)) -> emits P (catch m h).
Proof.
  intros Hm Hh w. unfold catch. destruct (Hm w) as (evs & Ht & Hp).
  destruct (m w) as [[a|e] w1]; cbn [snd] in *; [now exists evs|].
  destruct (Hh e w1) as (evs' & Ht' & Hp').
  exists (evs ++ evs')%list. split.
  - rewrite Ht', Ht, app_assoc. reflexivity.
  - apply Forall_app. auto.
Qed.

Lemma emits_ret_bind {A B} P (a : A) (k : A -> M B) :
  emits P (k a) -> emits P (bind (ret a) k).
Proof. intros H w. exact (H w). Qed.

Lemma emits_call P out e : P e -> emits P (call out e).
Proof. intros He w. exists [e]. split; [reflexivity | now constructor]. Qed.

Lemma backoff_forall (P : event -> Prop) ev k : forall a,
  P ev -> (forall n, P (Sleep n)) -> Forall P (backoff ev k a).
Proof.
  intros a Hev Hs. revert a. induction k as [|k IH]; intros a; [constructor|].
  destruct k as [|k]; [now repeat constructor|].
  rewrite backoff_step by lia. repeat constructor; auto.
Qed.

(** The events of [infer] are attempts at the single endpoint and waits. *)
Lemma infer_events self out request retries w :
  exists k json tm,
    trace (snd (infer self out request retries w))
    = (trace w ++ backoff (Post "/v1/inference" (Single json) tm) k 0)%list.
Proof.
  destruct (resolve_difficulty_heap request w)
    as (_ & _ & _ & _ & _ & _ & _ & _ & _ & _ & _ & _ & Htrace).
  rewrite infer_eq. cbv zeta.
  set (w1 := snd (resolve_difficulty request w)) in *.
  set (dummy := inference_payload self (heap w1 request)
                  (tier_params {| tier_temperature := 0; tier_max_tokens := 0;
                                  tier_num_passes := 0; tier_timeout := "" |})
                  false).
  destruct (find_tier _ _) as [t|].
  2:{ exists 0%nat, dummy, NaN. cbn [snd backoff]. now rewrite app_nil_r. }
  set (q := heap w1 request). set (p := with_overrides q (tier_params t)).
  set (json := inference_payload self q p (stream q)).
  destruct (Z.to_nat retries) as [|n] eqn:En.
  { exists 0%nat, dummy, NaN. cbn [infer_attempts raise snd now trace backoff].
    now rewrite app_nil_r. }
  destruct (Py.float (remove_char "s" (params_timeout p))) as [tm|] eqn:Hparse.
  - destruct (infer_attempts_backoff self out request json p (clock out (ticks w1))
                retries tm Hparse (S n) (retries - Z.of_nat (S n))%Z None
                (snd (now out w1)))
      as (k & _ & Ht & _); [lia | lia |].
    replace (retries - Z.of_nat (S n))%Z with 0%Z in * by lia.
    exists k, json, tm. rewrite Ht. cbn [now snd trace]. now rewrite Htrace.
  - exists 0%nat, dummy, NaN.
    rewrite infer_attempts_bad_timeout by exact Hparse.
    cbn [snd now trace backoff]. now rewrite app_nil_r.
Qed.

(** Each of them carries the worker's model and the timeout read from a
    tier of its table. *)
Lemma emits_infer self out request retries :
  emits (chunk_sized self) (infer self out request retries).
Proof.
  intros w.
  destruct (resolve_difficulty_heap request w)
    as (_ & _ & _ & _ & _ & _ & _ & _ & _ & _ & _ & _ & Htrace).
  rewrite infer_eq. cbv zeta.
  set (w1 := snd (resolve_difficulty request w)) in *.
  destruct (find_tier _ _) as [t|] eqn:Htier.
  2:{ exists []. cbn [snd]. rewrite app_nil_r. split; [exact Htrace|constructor]. }
  set (q := heap w1 request). set (p := with_overrides q (tier_params t)).
  set (json := inference_payload self q p (stream q)).
  destruct (Z.to_nat retries) as [|n] eqn:En.
  { exists []. cbn [infer_attempts raise snd now trace].
    rewrite app_nil_r. split; [exact Htrace|constructor]. }
  destruct (Py.float (remove_char "s" (params_timeout p))) as [tm|] eqn:Hparse.
  - destruct (infer_attempts_backoff self out request json p (clock out (ticks w1))
                retries tm Hparse (S n) (retries - Z.of_nat (S n))%Z None
                (snd (now out w1)))
      as (k & _ & Ht & _); [lia | lia |].
    replace (retries - Z.of_nat (S n))%Z with 0%Z in * by lia.
    eexists. split; [rewrite Ht; cbn [now snd trace]; now rewrite Htrace|].
    apply backoff_forall; [|intros m; exact I].
    cbn. split; [reflexivity|]. split; [reflexivity|].
    exists (resolved (heap w request)), t. split; [exact Htier|exact Hparse].
  - exists []. rewrite infer_attempts_bad_timeout by exact Hparse.
    cbn [snd now trace]. rewrite app_nil_r. split; [exact Htrace|constructor].
Qed.

Lemma quiet_batch_entries self batch : quiet (batch_entries self batch).
Proof.
  induction batch as [|req rest IH]; cbn [batch_entries]; [apply quiet_ret|].
  unfold batch_entry. quiet_steps.
Qed.

Lemma quiet_batch_results self out batch results : forall j acc,
  quiet (batch_results self out batch j results acc).
Proof.
  induction results as [|r rest IH]; intros j acc; cbn [batch_results];
    quiet_steps.
Qed.

(** The payload has one entry per request of the chunk. *)
Lemma batch_entries_length self batch : forall w items,
  fst (batch_entries self batch w) = Ok items -> length items = length batch.
Proof.
  induction batch as [|req rest IH]; intros w items; cbn [batch_entries].
  - cbn. intros H. now inversion H.
  - unfold bind at 1.
    destruct (batch_entry self req w) as [[item|e] w1]; cbn [fst];
      [|discriminate].
    unfold bind at 1. specialize (IH w1).
    destruct (batch_entries self rest w1) as [[items'|e] w2]; cbn [fst] in *;
      [|discriminate].
    cbn. intros H. inversion H. cbn. now rewrite (IH items' eq_refl).
Qed.

Lemma emits_fallback self out batch : forall acc,
  emits (chunk_sized self) (fallback self out batch acc).
Proof.
  induction batch as [|req rest IH]; intros acc; cbn [fallback].
  - apply emits_quiet, quiet_ret.
  - apply emits_bind; [|intros; apply IH].
    apply emits_catch; [apply emits_infer|].
    intros e. apply emits_quiet. quiet_steps.
Qed.

Lemma emits_batch_chunk self out batch acc :
  (1 <= length batch <= Z.to_nat (batch_size self))%nat ->
  emits (chunk_sized self) (batch_chunk self out batch acc).
Proof.
  intros Hlen. unfold batch_chunk.
  apply emits_bind; [apply emits_quiet, quiet_batch_entries|].
  intros items w Hitems. apply batch_entries_length in Hitems.
  apply emits_bind.
  - apply emits_call. cbn. rewrite Hitems. auto.
  - intros [e|b] w' _; [apply emits_fallback|].
    apply emits_quiet. quiet_steps. apply quiet_batch_results.
Qed.

Lemma slice_length {A} (l : list A) i k :
  (1 <= k)%nat -> (i < length l)%nat ->
  (1 <= length (slice l i (i + k)) <= k)%nat.
Proof.
  intros Hk Hi. unfold slice. rewrite length_firstn, length_skipn. lia.
Qed.

Lemma emits_batch_chunks self out req_group starts :
  (0 < batch_size self)%Z ->
  Forall (fun i => (i < length req_group)%nat) starts ->
  forall acc,
    emits (chunk_sized self)
      (batch_chunks self out req_group starts (batch_size self) acc).
Proof.
  intros Hsize. induction starts as [|i rest IH]; intros Hstarts acc;
    cbn [batch_chunks]; [apply emits_quiet, quiet_ret|].
  inversion Hstarts; subst.
  apply emits_bind; [|intros; now apply IH].
  apply emits_batch_chunk, slice_length; [lia | assumption].
Qed.

Lemma range_step_starts (n : nat) (size : Z) starts :
  range_step n size = Some starts -> Forall (fun i => (i < n)%nat) starts.
Proof.
  unfold range_step.
  destruct (Z.eqb_spec size 0) as [_|Hne]; [discriminate|].
  destruct (Z.ltb_spec size 0) as [_|Hge]; intros H; inversion H; [constructor|].
  set (k := Z.to_nat size). assert (Hk : (1 <= k)%nat) by lia.
  apply Forall_forall. intros i Hi.
  apply in_map_iff in Hi as (q & <- & Hq). apply in_seq in Hq.
  pose proof (Nat.div_mod_eq (n + k - 1) k) as Hdm.
  pose proof (Nat.mod_upper_bound (n + k - 1) k) as Hub. nia.
Qed.

Lemma emits_batch_groups self out grouped : forall acc,
  emits (chunk_sized self) (batch_groups self out grouped acc).
Proof.
  induction grouped as [|[k g] rest IH]; intros acc; cbn [batch_groups];
    [apply emits_quiet, quiet_ret|].
  destruct (range_step (length g) (batch_size self)) as [starts|] eqn:Hr.
  2:{ intros w. exists []. rewrite app_nil_r. split; [reflexivity|constructor]. }
  apply emits_ret_bind.
  destruct (Z.ltb_spec 0 (batch_size self)) as [Hpos|Hneg].
  - apply emits_bind; [|intros; apply IH].
    apply emits_batch_chunks; [exact Hpos|]. now apply range_step_starts in Hr.
  - assert (starts = []).
    { unfold range_step in Hr.
      destruct (Z.eqb_spec (batch_size self) 0); [discriminate|].
      destruct (Z.ltb_spec (batch_size self) 0); [now inversion Hr | lia]. }
    subst starts. cbn [batch_chunks]. apply emits_bind; [|intros; apply IH].
    apply emits_quiet, quiet_ret.
Qed.

(** X9: whatever the service answers, every batch call [batch_infer] makes
    goes to the batch endpoint under the fixed timeout 60, with the worker's
    model and at least one and at most [batch_size] requests; the only other
    events of a batch dispatch are the calls and waits of the fallback: a
    call goes to the single endpoint "/v1/inference" with the worker's model
    and the timeout read from a tier of the table. *)
Theorem batch_calls_are_chunk_sized self out requests w :
  exists evs,
    trace (snd (batch_infer self out requests w)) = (trace w ++ evs)%list
    /\ Forall (chunk_sized self) evs.
Proof.
  apply (emits_bind (chunk_sized self) (group_requests requests [])
           (fun grouped => batch_groups self out grouped [])).
  - apply emits_quiet. intros w'.
    destruct (group_requests_run requests [] w')
      as (g & _ & _ & _ & _ & _ & Ht & Hc). auto.
  - intros grouped w' _. apply emits_batch_groups.
Qed.

(** ** Chunk sizes that are not positive *)

Lemma batch_groups_negative self out grouped : forall acc w,
  (batch_size self < 0)%Z ->
  batch_groups self out grouped acc w = (Ok acc, w).
Proof.
  induction grouped as [|[k g] rest IH]; intros acc w Hneg; cbn [batch_groups];
    [reflexivity|].
  unfold range_step.
  destruct (Z.eqb_spec (batch_size self) 0) as [E|_]; [lia|].
  destruct (Z.ltb_spec (batch_size self) 0) as [_|E]; [|lia].
  unfold bind. cbn [ret batch_chunks]. now apply IH.
Qed.

(** X10: a chunk size of zero makes [batch_infer] raise [ValueError] for any
    list that is not empty, and a negative one makes it return no response
    at all; in both cases no call is made, and the difficulties have already
    been written to the requests. *)
Theorem batch_infer_chunk_size_not_positive self out requests w :
  ((batch_size self = 0)%Z -> requests <> [] ->
     fst (batch_infer self out requests w)
     = Raised (Exn ValueError "range() arg 3 must not be zero"))
  /\ ((batch_size self < 0)%Z -> fst (batch_infer self out requests w) = Ok [])
  /\ ((batch_size self <= 0)%Z ->
      trace (snd (batch_infer self out requests w)) = trace w
      /\ forall r, In r requests ->
           difficulty (heap (snd (batch_infer self out requests w)) r)
           = Some (resolved (heap w r))).
Proof.
  destruct (group_requests_run requests [] w)
    as (grouped & Hok & Hlen & _ & Hres & _ & Htrace & _).
  assert (Hrun : group_requests requests [] w
                 = (Ok grouped, snd (group_requests requests [] w))).
  { rewrite <- Hok. now destruct (group_requests requests [] w). }
  set (w1 := snd (group_requests requests [] w)) in *.
  assert (Hzero : (batch_size self = 0)%Z -> grouped <> [] ->
                  batch_groups self out grouped [] w1
                  = (Raised (Exn ValueError "range() arg 3 must not be zero"), w1)).
  { intros Hz Hne. destruct grouped as [|[k g] rest]; [contradiction|].
    cbn [batch_groups]. unfold range_step. rewrite Hz. reflexivity. }
  assert (Hne : requests <> [] -> grouped <> []).
  { intros Hreq ->. cbn in Hlen. destruct requests; [contradiction|discriminate]. }
  split; [|split].
  - intros Hz Hreq. unfold batch_infer, bind. rewrite Hrun, Hzero; auto.
  - intros Hneg. unfold batch_infer, bind.
    rewrite Hrun, batch_groups_negative by exact Hneg. reflexivity.
  - intros Hle. unfold batch_infer, bind. rewrite Hrun.
    assert (Hw : snd (batch_groups self out grouped [] w1) = w1).
    { destruct (Z.eq_dec (batch_size self) 0) as [Hz|Hnz].
      - destruct grouped as [|[k g] rest]; [reflexivity|].
        rewrite Hzero by (auto; discriminate). reflexivity.
      - rewrite batch_groups_negative by lia. reflexivity. }
    rewrite Hw. split; [exact Htrace | exact Hres].
Qed.

Lemma batch_infer_chunk_size_not_positive_witness :
  fst (batch_infer (with_batch_size sample_worker 0) unreachable [0%nat]
         (fresh (InferenceRequest_default "Explain gravity")))
  = Raised (Exn ValueError "range() arg 3 must not be zero")
  /\ fst (batch_infer (with_batch_size sample_worker (-1)) unreachable [0%nat]
            (fresh (InferenceRequest_default "Explain gravity")))
     = Ok [].
Proof.
  split.
  - refine (proj1 (batch_infer_chunk_size_not_positive
                     (with_batch_size sample_worker 0) unreachable [0%nat]
                     (fresh (InferenceRequest_default "Explain gravity"))) eq_refl _).
    discriminate.
  - refine (proj1 (proj2 (batch_infer_chunk_size_not_positive
                            (with_batch_size sample_worker (-1)) unreachable [0%nat]
                            (fresh (InferenceRequest_default "Explain gravity")))) _).
    reflexivity.
Defined.

(** ** Responses and the requests they belong to *)

(** A response of the retry loop records the difficulty its request holds. *)
Lemma infer_attempts_ok self out request json p start_time retries n :
  forall attempt last w resp,
    fst (infer_attempts self out request json p start_time retries n attempt last w)
    = Ok resp ->
    difficulty_used resp = difficulty (heap w request).
Proof.
  induction n as [|n IH]; intros attempt last w resp; cbn [infer_attempts].
  - discriminate.
  - unfold parse_timeout. destruct (Py.float _) as [tm|]; [|discriminate].
    unfold bind at 1. cbn [ret]. unfold bind at 1. cbn [call].
    destruct (on_call out _ _) as [e|b].
    + destruct (attempt <? retries - 1)%Z; [|discriminate].
      unfold bind, sleep, emit. intros H. apply IH in H. exact H.
    + unfold bind, json_of, now, lift, get_request, ret, raise.
      destruct b as [err|v]; [discriminate|]. cbn [fst snd].
      destruct (getitem v "text"); [|discriminate].
      destruct (Py.get v "model" _); [|discriminate].
      destruct (Py.get v "cluster_id" _); [|discriminate].
      destruct (Py.get v "tokens_generated" _); [|discriminate].
      cbn. intros H. inversion H. reflexivity.
Qed.

Lemma infer_ok self out request retries w resp :
  fst (infer self out request retries w) = Ok resp ->
  difficulty_used resp = Some (resolved (heap w request)).
Proof.
  destruct (resolve_difficulty_heap request w) as (Hd & _).
  rewrite infer_eq. cbv zeta.
  destruct (find_tier _ _); [|discriminate].
  intros H. apply infer_attempts_ok in H. now rewrite H.
Qed.

Lemma batch_posts_app evs evs' :
  batch_posts (evs ++ evs') = (batch_posts evs ++ batch_posts evs')%list.
Proof.
  induction evs as [|[path [j|b] t|path j t|path|n] rest IH]; cbn; congruence.
Qed.

Lemma batch_posts_backoff path j t k : forall a,
  batch_posts (backoff (Post path (Single j) t) k a) = [].
Proof.
  induction k as [|k IH]; intros a; [reflexivity|].
  destruct k as [|k]; [reflexivity|].
  rewrite backoff_step by lia. cbn. apply IH.
Qed.

Lemma sent_as_keeps self q q' item :
  keeps q q' -> sent_as self q' item -> sent_as self q item.
Proof.
  intros Hk (t & Ht & ->). pose proof (keeps_resolved _ _ Hk) as Hr.
  destruct Hk as (Hp & Hc & Hs & Hu & _).
  exists t. rewrite <- Hr, <- Hp, <- Hc, <- Hs, <- Hu. auto.
Qed.

Lemma serves_ret self acc w : serves self [] [] acc w (ret acc w).
Proof.
  exists [], []. cbn. rewrite !app_nil_r.
  repeat split; auto using evolves_refl.
Qed.

Lemma serves_bind self a1 s1 a2 s2 acc w (m : M (list InferenceResponse))
    (k : list InferenceResponse -> M (list InferenceResponse)) :
  serves self a1 s1 acc w (m w) ->
  (forall acc' w', evolves w w' -> serves self a2 s2 acc' w' (k acc' w')) ->
  serves self (a1 ++ a2) (s1 ++ s2) acc w (bind m k w).
Proof.
  intros (rs & evs & Hfst & Hd & Ht & Hs & Hev) Hk. unfold bind.
  destruct (m w) as [[a|e] w1]; cbn [fst snd] in *; [|discriminate].
  inversion Hfst; subst a.
  destruct (Hk (acc ++ rs)%list w1 Hev) as (rs2 & evs2 & Hfst2 & Hd2 & Ht2 & Hs2 & Hev2).
  exists (rs ++ rs2)%list, (evs ++ evs2)%list. split; [|split; [|split; [|split]]].
  - rewrite Hfst2, app_assoc. reflexivity.
  - rewrite !map_app, Hd, Hd2. f_equal. apply map_ext.
    intros r. f_equal. apply keeps_resolved, Hev.
  - rewrite Ht2, Ht, app_assoc. reflexivity.
  - rewrite batch_posts_app, map_app, concat_app. apply Forall2_app; [exact Hs|].
    eapply Forall2_impl; [|exact Hs2]. intros r item.
    apply sent_as_keeps, Hev.
  - eapply evolves_trans; eassumption.
Qed.

Lemma fallback_serves self out batch : forall acc w,
  serves self batch [] acc w (fallback self out batch acc w).
Proof.
  induction batch as [|req rest IH]; intros acc w; cbn [fallback].
  - apply serves_ret.
  - unfold bind at 1, catch, infer_default.
    pose proof (stable_infer self out req 3 w) as Hev.
    pose proof (infer_ok self out req 3 w) as Hok.
    pose proof (infer_difficulty self out req 3 w) as Hd.
    destruct (infer_events self out req 3 w) as (k & json & tm & Ht).
    destruct (infer self out req 3 w) as [[resp|e2] w1]; cbn [fst snd] in *.
    + destruct (IH (acc ++ [resp])%list w1)
        as (rs & evs & Hfst & Hdu & Htr & Hs & Hev').
      exists (resp :: rs), (backoff (Post "/v1/inference" (Single json) tm) k 0 ++ evs)%list.
      split; [|split; [|split; [|split]]].
      * rewrite Hfst, <- app_assoc. reflexivity.
      * cbn [map]. rewrite (Hok resp eq_refl), Hdu. f_equal. apply map_ext.
        intros r. f_equal. apply keeps_resolved, Hev.
      * rewrite Htr, Ht, app_assoc. reflexivity.
      * rewrite batch_posts_app, batch_posts_backoff. cbn [app].
        inversion Hs. constructor.
      * eapply evolves_trans; eassumption.
    + unfold bind, get_request, now, ret. cbn [fst snd].
      match goal with
      | |- context [fallback self out rest ?a ?w'] =>
          destruct (IH a w') as (rs & evs & Hfst & Hdu & Htr & Hs & Hev');
          match a with
          | (acc ++ [?resp])%list =>
              exists (resp :: rs),
                (backoff (Post "/v1/inference" (Single json) tm) k 0 ++ evs)%list
          end
      end.
      cbn [heap trace] in *.
      split; [|split; [|split; [|split]]].
      * rewrite Hfst, <- app_assoc. reflexivity.
      * cbn [map error_response difficulty_used]. rewrite Hd, Hdu. f_equal.
        apply map_ext. intros r. f_equal. apply keeps_resolved, Hev.
      * rewrite Htr, Ht, app_assoc. reflexivity.
      * rewrite batch_posts_app, batch_posts_backoff. cbn [app].
        inversion Hs. constructor.
      * eapply evolves_trans; [exact Hev|]. exact Hev'.
Qed.

Lemma skipn_nth {A} (l : list A) : forall j x,
  nth_error l j = Some x -> skipn j l = x :: skipn (S j) l.
Proof.
  induction l as [|y l IH]; intros [|j] x H; try discriminate.
  - now inversion H.
  - cbn in H. rewrite (skipn_cons j y l), (IH j x H). reflexivity.
Qed.

(** Results are matched with the requests of the chunk by position. *)
Lemma batch_results_positional self out batch results : forall j acc w,
  Forall (fun r => exists fs t, r = PDict fs /\ lookup "text" fs = Some t) results ->
  (j + length results <= length batch)%nat ->
  exists rs,
    fst (batch_results self out batch j results acc w) = Ok (acc ++ rs)%list
    /\ Forall2 (answers self) results rs
    /\ map difficulty_used rs
       = map (fun r => difficulty (heap w r)) (firstn (length results) (skipn j batch))
    /\ heap (snd (batch_results self out batch j results acc w)) = heap w
    /\ trace (snd (batch_results self out batch j results acc w)) = trace w.
Proof.
  induction results as [|result_ rest IH]; intros j acc w Hall Hlen.
  - exists []. cbn. rewrite app_nil_r. repeat split; constructor.
  - inversion Hall as [|? ? (fs & t & -> & Htext) Hrest]; subst.
    cbn [length] in Hlen.
    destruct (nth_error batch j) as [req|] eqn:Hnth.
    2:{ apply nth_error_None in Hnth. lia. }
    pose (resp := {| text := t;
                     model := field_or fs "model" (PStr (self_model self));
                     cluster_id := field_or fs "cluster_id" (PStr "unknown");
                     latency_ms := Reported (field_or fs "latency_ms" (PInt 0));
                     tokens_generated := field_or fs "tokens_generated" (PInt 0);
                     difficulty_used := difficulty (heap w req);
                     timestamp := clock out (ticks w) |}).
    assert (Hstep : batch_results self out batch j (PDict fs :: rest) acc w
                    = batch_results self out batch (S j) rest
                        (acc ++ [resp])%list (snd (now out w))).
    { subst resp. cbn [batch_results]. unfold bind, lift, field_or.
      cbn [getitem Py.get]. rewrite Htext, Hnth. cbn [get_request now].
      destruct (lookup "model" fs), (lookup "cluster_id" fs),
        (lookup "latency_ms" fs), (lookup "tokens_generated" fs); reflexivity. }
    rewrite Hstep.
    destruct (IH (S j) (acc ++ [resp])%list (snd (now out w)) Hrest)
      as (rs & Hfst & Hans & Hdu & Hh & Ht); [lia|].
    exists (resp :: rs). split; [|split; [|split; [|split]]].
    + rewrite Hfst, <- app_assoc. reflexivity.
    + constructor; [|exact Hans]. exists fs, t. cbn. auto 10.
    + cbn [length]. rewrite (skipn_nth batch j req Hnth).
      cbn [firstn map difficulty_used resp]. f_equal. exact Hdu.
    + rewrite Hh. reflexivity.
    + rewrite Ht. reflexivity.
Qed.

Lemma batch_entries_sent self batch w :
  (forall r, In r batch ->
     difficulty (heap w r) <> None
     /\ find_tier (value (resolved (heap w r))) (difficulty_levels self) <> None) ->
  exists items,
    batch_entries self batch w = (Ok items, w)
    /\ Forall2 (fun r item => sent_as self (heap w r) item) batch items.
Proof.
  induction batch as [|req rest IH]; intros Hready.
  - exists []. split; [reflexivity|constructor].
  - destruct IH as (items & Hrun & Hsent).
    { intros r Hr. apply Hready. now right. }
    destruct (Hready req (or_introl eq_refl)) as [Hd Ht].
    cbn [batch_entries]. unfold bind at 1. unfold batch_entry.
    unfold bind at 1. cbn [get_request]. unfold resolved in Ht.
    destruct (difficulty (heap w req)) as [d|] eqn:Ed; [|contradiction].
    unfold bind at 1. cbn [ret]. unfold _get_inference_params.
    destruct (find_tier _ _) as [t|] eqn:Et; [|contradiction].
    unfold bind. cbn [ret]. rewrite Hrun.
    eexists. split; [reflexivity|]. constructor; [|exact Hsent].
    exists t. unfold resolved. rewrite Ed. split; [exact Et|reflexivity].
Qed.

Lemma forall2_nil_l {A B} (P : A -> B -> Prop) l : Forall2 P [] l -> l = [].
Proof. intros H. now inversion H. Qed.

Lemma batch_chunk_serves self out batch acc w :
  tiers_complete self -> batch_replies_aligned out -> ready w batch ->
  serves self batch batch acc w (batch_chunk self out batch acc w).
Proof.
  intros Htiers Haligned Hready.
  destruct (batch_entries_sent self batch w) as (items & Hrun & Hsent).
  { intros r Hr. split; [now apply Hready | apply Htiers]. }
  assert (Hlen : length items = length batch)
    by (symmetry; eapply Forall2_length; exact Hsent).
  assert (Hdiff : forall r, In r batch ->
                    difficulty (heap w r) = Some (resolved (heap w r))).
  { intros r Hr. specialize (Hready r Hr). unfold resolved.
    now destruct (difficulty (heap w r)). }
  unfold batch_chunk. unfold bind at 1. rewrite Hrun.
  unfold bind at 1. cbn [call].
  set (ev := Post "/v1/inference/batch"
               (Batch {| bp_model := self_model self; bp_requests := items |})
               (Finite 60)).
  set (w1 := {| heap := heap w; calls := S (calls w); ticks := ticks w;
                trace := (trace w ++ [ev])%list |}).
  assert (Hw1 : evolves w w1) by now apply evolves_same_heap.
  destruct (Haligned (calls w) "/v1/inference/batch"
              {| bp_model := self_model self; bp_requests := items |} (Finite 60))
    as [[e He]|(v & Hv & fields & results & -> & Hres & Hn & Hall)];
    fold ev in He || fold ev in Hv.
  - rewrite He.
    destruct (fallback_serves self out batch acc w1)
      as (rs & evs & Hfst & Hdu & Htr & Hs & Hev).
    apply forall2_nil_l in Hs.
    exists rs, (ev :: evs). split; [exact Hfst|]. split; [exact Hdu|].
    split; [|split].
    + rewrite Htr. subst w1. cbn [trace]. now rewrite <- app_assoc.
    + cbn [batch_posts ev map concat]. rewrite Hs, app_nil_r. exact Hsent.
    + exact (evolves_trans _ _ _ Hw1 Hev).
  - rewrite Hv. cbn [json_of]. unfold bind at 1. cbn [ret].
    unfold bind at 1, lift at 1. cbn [getitem]. rewrite Hres.
    unfold bind at 1, lift at 1. cbn [iter].
    cbn [bp_requests] in Hn.
    destruct (batch_results_positional self out batch results 0 acc w1 Hall)
      as (rs & Hfst & _ & Hdu & Hh & Ht); [cbn; lia|].
    exists rs, [ev]. split; [exact Hfst|]. split; [|split; [|split]].
    + rewrite Hdu, Hn, Hlen. cbn [skipn]. rewrite firstn_all.
      apply map_ext_in. intros r Hr. subst w1. cbn [heap]. now apply Hdiff.
    + rewrite Ht. reflexivity.
    + cbn [batch_posts ev map concat]. rewrite app_nil_r. exact Hsent.
    + eapply evolves_trans; [exact Hw1|]. now apply evolves_same_heap.
Qed.

Lemma batch_chunks_serves self out req_group size : forall starts acc w,
  tiers_complete self -> batch_replies_aligned out -> ready w req_group ->
  serves self
    (concat (map (fun i => slice req_group i (i + Z.to_nat size)) starts))
    (concat (map (fun i => slice req_group i (i + Z.to_nat size)) starts))
    acc w (batch_chunks self out req_group starts size acc w).
Proof.
  induction starts as [|i rest IH]; intros acc w Htiers Haligned Hready;
    cbn [batch_chunks map concat].
  - apply serves_ret.
  - apply serves_bind.
    + apply batch_chunk_serves; auto.
      intros r Hr. apply Hready. eapply in_slice, Hr.
    + intros acc' w' Hev. apply IH; auto. eapply ready_evolves; eassumption.
Qed.

Lemma batch_groups_serves self out : forall grouped acc w,
  tiers_complete self -> batch_replies_aligned out -> (0 < batch_size self)%Z ->
  ready w (members grouped) ->
  serves self (members grouped) (members grouped) acc w
    (batch_groups self out grouped acc w).
Proof.
  induction grouped as [|[k req_group] rest IH];
    intros acc w Htiers Haligned Hsize Hready; cbn [batch_groups].
  - apply serves_ret.
  - unfold members in *. cbn [map concat snd] in *.
    destruct (range_step (length req_group) (batch_size self)) as [starts|] eqn:Hr.
    2:{ unfold range_step in Hr.
        destruct (Z.eqb_spec (batch_size self) 0) as [E|_]; [lia|].
        destruct (batch_size self <? 0)%Z; discriminate Hr. }
    unfold bind at 1. cbn [ret].
    rewrite <- (range_step_cover req_group (batch_size self) starts Hsize Hr) at 1 2.
    apply serves_bind.
    + apply batch_chunks_serves; auto.
      intros r Hin. apply Hready, in_or_app. now left.
    + intros acc' w' Hev. apply IH; auto.
      eapply ready_evolves; [exact Hev|].
      intros r Hin. apply Hready, in_or_app. now right.
Qed.

(** X11: under the conditions in which [batch_infer] answers every request
    (a complete table, a positive chunk size, batch calls that fail or are
    answered in full), the responses come group after group, not in the
    order of the input: the difficulty each response records is that of the
    request at the same place in the groups laid end to end, and the batch
    calls together carry one entry per request in that same order, with the
    prompt, context and identifiers of the request and the temperature and
    token budget of its tier. *)
Theorem batch_responses_follow_the_groups self out requests w :
  tiers_complete self -> (0 < batch_size self)%Z -> batch_replies_aligned out ->
  exists grouped responses evs,
    fst (group_requests requests [] w) = Ok grouped
    /\ fst (batch_infer self out requests w) = Ok responses
    /\ map difficulty_used responses
       = map (fun r => Some (resolved (heap w r))) (members grouped)
    /\ trace (snd (batch_infer self out requests w)) = (trace w ++ evs)%list
    /\ Forall2 (fun r item => sent_as self (heap w r) item) (members grouped)
         (concat (map bp_requests (batch_posts evs))).
Proof.
  intros Htiers Hsize Haligned.
  destruct (group_requests_run requests [] w)
    as (grouped & Hok & _ & Hin & Hres & Hev & Htrace & _).
  unfold batch_infer, bind.
  destruct (group_requests requests [] w) as [[g|e] w1]; cbn [fst snd] in *;
    [|discriminate].
  inversion Hok; subst g.
  destruct (batch_groups_serves self out grouped [] w1 Htiers Haligned Hsize)
    as (rs & evs & Hfst & Hdu & Htr & Hs & _).
  { intros r Hr. destruct (Hin r Hr) as [[]|Hreq].
    rewrite (Hres r Hreq). discriminate. }
  exists grouped, rs, evs. split; [reflexivity|]. split; [exact Hfst|].
  split; [|split].
  - rewrite Hdu. apply map_ext. intros r. f_equal. apply keeps_resolved, Hev.
  - rewrite Htr, Htrace. reflexivity.
  - eapply Forall2_impl; [|exact Hs]. intros r item. apply sent_as_keeps, Hev.
Qed.

Lemma batch_responses_follow_the_groups_witness :
  exists grouped responses evs,
    fst (group_requests [0; 1; 2]%nat []
           (fresh (InferenceRequest_default "Explain gravity"))) = Ok grouped
    /\ fst (batch_infer sample_worker unreachable [0; 1; 2]%nat
              (fresh (InferenceRequest_default "Explain gravity"))) = Ok responses
    /\ map difficulty_used responses
       = map (fun r => Some (resolved (heap (fresh (InferenceRequest_default
                                                      "Explain gravity")) r)))
           (members grouped)
    /\ trace (snd (batch_infer sample_worker unreachable [0; 1; 2]%nat
                     (fresh (InferenceRequest_default "Explain gravity"))))
       = evs.
Proof.
  destruct (batch_responses_follow_the_groups sample_worker unreachable
              [0; 1; 2]%nat (fresh (InferenceRequest_default "Explain gravity")))
    as (grouped & responses & evs & H1 & H2 & H3 & H4 & _).
  - intros []; discriminate.
  - reflexivity.
  - intros i path b t. left. now exists "connection refused".
  - exists grouped, responses, evs. auto.
Defined.

(** ** One chunk and its results *)

Lemma batch_results_overflow self out batch results : forall j acc w,
  Forall has_text results ->
  (j <= length batch < j + length results)%nat ->
  fst (batch_results self out batch j results acc w)
  = Raised (Exn IndexError "list index out of range").
Proof.
  induction results as [|result_ rest IH]; intros j acc w Hall Hlen.
  - cbn [length] in Hlen. lia.
  - inversion Hall as [|? ? (fs & t & -> & Htext) Hrest]; subst.
    cbn [length] in Hlen.
    destruct (nth_error batch j) as [req|] eqn:Hnth.
    + assert (j < length batch)%nat by (apply nth_error_Some; congruence).
      destruct (batch_results_positional self out batch [PDict fs] j acc w)
        as (rs & _); [repeat constructor; now exists fs, t | cbn; lia |].
      assert (Hstep : exists resp w',
                 batch_results self out batch j (PDict fs :: rest) acc w
                 = batch_results self out batch (S j) rest (acc ++ [resp])%list w').
      { cbn [batch_results]. unfold bind, lift. cbn [getitem Py.get].
        rewrite Htext, Hnth. cbn [get_request now].
        destruct (lookup "model" fs), (lookup "cluster_id" fs),
          (lookup "latency_ms" fs), (lookup "tokens_generated" fs);
          eexists _, _; reflexivity. }
      destruct Hstep as (resp & w' & ->). apply IH; [exact Hrest | lia].
    + cbn [batch_results]. unfold bind, lift. cbn [getitem Py.get].
      rewrite Htext, Hnth.
      destruct (lookup "model" fs), (lookup "cluster_id" fs),
        (lookup "latency_ms" fs), (lookup "tokens_generated" fs); reflexivity.
Qed.

Lemma in_firstn {A} (l : list A) n x : In x (firstn n l) -> In x l.
Proof.
  intros H. rewrite <- (firstn_skipn n l). apply in_or_app. now left.
Qed.

Lemma filter_all {A} (f : A -> bool) (l : list A) :
  (forall x, In x l -> f x = true) -> filter f l = l.
Proof.
  induction l as [|x l IH]; intros H; [reflexivity|]. cbn.
  rewrite (H x (or_introl eq_refl)). f_equal. apply IH. intros y Hy. apply H. now right.
Qed.

Lemma filter_nonempty {A} (f : A -> bool) (l : list A) :
  filter f l <> [] -> exists x, In x l /\ f x = true.
Proof.
  intros H. destruct (filter f l) as [|x r] eqn:E; [contradiction|].
  exists x. apply filter_In. rewrite E. now left.
Qed.

(** Requests that all resolve to one difficulty make one group. *)
Lemma group_requests_one_group requests w d :
  requests <> [] ->
  (forall r, In r requests -> resolved (heap w r) = d) ->
  fst (group_requests requests [] w) = Ok [(value d, requests)].
Proof.
  intros Hne Hsame.
  destruct (group_requests_invariant w requests [] [] w (evolves_refl w))
    as (grouped & Hok & Hnd & Hgrp & Hnonempty & Hperm);
    [constructor | reflexivity | intros k g [] | reflexivity |].
  cbn [app] in *. rewrite Hok. f_equal.
  assert (Hkey : forall k g, In (k, g) grouped -> k = value d /\ g = requests).
  { intros k g Hin. pose proof (in_group_of grouped k g Hnd Hin) as Hg.
    rewrite Hgrp in Hg. pose proof (Hnonempty k g Hin) as Hgne.
    rewrite <- Hg in Hgne. apply filter_nonempty in Hgne as (r & Hr & Hk).
    apply String.eqb_eq in Hk. unfold key_of in Hk. rewrite (Hsame r Hr) in Hk.
    subst k. split; [reflexivity|]. rewrite <- Hg. apply filter_all.
    intros x Hx. unfold key_of. rewrite (Hsame x Hx). apply String.eqb_refl. }
  destruct grouped as [|[k1 g1] rest].
  - apply Permutation_nil in Hperm. now subst requests.
  - destruct (Hkey k1 g1 (or_introl eq_refl)) as [-> ->].
    destruct rest as [|[k2 g2] rest]; [reflexivity|].
    destruct (Hkey k2 g2 (or_intror (or_introl eq_refl))) as [-> _].
    cbn [map fst] in Hnd. inversion Hnd as [|? ? Hnotin _]; subst.
    exfalso. apply Hnotin. now left.
Qed.

Lemma range_step_single (n : nat) (size : Z) :
  (1 <= n <= Z.to_nat size)%nat -> range_step n size = Some [0%nat].
Proof.
  intros Hn. unfold range_step.
  destruct (Z.eqb_spec size 0) as [E|_]; [lia|].
  destruct (Z.ltb_spec size 0) as [E|_]; [lia|].
  set (k := Z.to_nat size) in *.
  replace ((n + k - 1) / k)%nat with 1%nat; [reflexivity|].
  apply (Nat.div_unique _ _ 1 (n - 1)); lia.
Qed.

Lemma bind_ret_same {A} (m : M A) w :
  bind m (fun a => ret a) w = m w.
Proof. unfold bind, ret. now destruct (m w) as [[a|e] w']. Qed.

(** [batch_infer] on requests of one difficulty that fit in one chunk is
    that chunk, after the grouping. *)
Lemma batch_infer_one_chunk self out requests w d :
  requests <> [] -> (length requests <= Z.to_nat (batch_size self))%nat ->
  (forall r, In r requests -> resolved (heap w r) = d) ->
  batch_infer self out requests w
  = batch_chunk self out requests [] (snd (group_requests requests [] w)).
Proof.
  intros Hne Hlen Hsame.
  pose proof (group_requests_one_group requests w d Hne Hsame) as Hg.
  unfold batch_infer. unfold bind at 1.
  destruct (group_requests requests [] w) as [[g|e] w1]; cbn [fst snd] in *;
    [|discriminate].
  inversion Hg; subst g. cbn [batch_groups].
  rewrite range_step_single.
  2:{ destruct requests; [contradiction | cbn [length] in *; lia]. }
  unfold bind at 1. cbn [ret batch_chunks].
  unfold slice. cbn [skipn Nat.add]. rewrite Nat.sub_0_r.
  rewrite firstn_all2 by exact Hlen.
  unfold bind at 1. cbn [batch_groups].
  rewrite (bind_ret_same (batch_chunk self out requests [])).
  now destruct (batch_chunk self out requests [] w1) as [[a|e] w'].
Qed.

(** X12: for requests of one difficulty that fit in one chunk, answered with
    a list of results each holding a text: the results are turned into
    responses by position; when there are fewer results than requests the
    later requests are left without a response, and when there are more
    [batch_infer] raises [IndexError]; either way one call was made. *)
Theorem batch_results_matched_by_position self out requests w d t fields results :
  requests <> [] -> (length requests <= Z.to_nat (batch_size self))%nat ->
  (forall r, In r requests -> resolved (heap w r) = d) ->
  find_tier (value d) (difficulty_levels self) = Some t ->
  (forall ev, on_call out (calls w) ev = Replied (Json (PDict fields))) ->
  lookup "results" fields = Some (PList results) ->
  Forall has_text results ->
  ((length results <= length requests)%nat ->
     exists responses,
       fst (batch_infer self out requests w) = Ok responses
       /\ Forall2 (answers self) results responses
       /\ Forall (fun resp => difficulty_used resp = Some d) responses)
  /\ ((length requests < length results)%nat ->
      fst (batch_infer self out requests w)
      = Raised (Exn IndexError "list index out of range"))
  /\ calls (snd (batch_infer self out requests w)) = S (calls w).
Proof.
  intros Hne Hlen Hsame Htier Hreply Hres Htexts.
  rewrite (batch_infer_one_chunk self out requests w d Hne Hlen Hsame).
  destruct (group_requests_run requests [] w)
    as (grouped & _ & _ & _ & Hdiff & Hev & _ & Hcalls).
  set (w1 := snd (group_requests requests [] w)) in *.
  destruct (batch_entries_sent self requests w1) as (items & Hrun & Hsent).
  { intros r Hr. rewrite (Hdiff r Hr). split; [discriminate|].
    rewrite (keeps_resolved _ _ (Hev r)), (Hsame r Hr), Htier. discriminate. }
  set (ev := Post "/v1/inference/batch"
               (Batch {| bp_model := self_model self; bp_requests := items |})
               (Finite 60)).
  assert (Hchunk : batch_chunk self out requests [] w1
                   = batch_results self out requests 0 results []
                       (snd (call out ev w1))).
  { unfold batch_chunk. unfold bind at 1. rewrite Hrun.
    unfold bind at 1. cbn [call]. fold ev. rewrite Hcalls, Hreply.
    cbn [json_of]. unfold bind at 1. cbn [ret].
    unfold bind at 1, lift at 1. cbn [getitem]. rewrite Hres.
    unfold bind at 1, lift at 1. cbn [iter]. rewrite <- Hcalls. reflexivity. }
  rewrite Hchunk. split; [|split].
  - intros Hfew.
    destruct (batch_results_positional self out requests results 0 []
                (snd (call out ev w1)) Htexts)
      as (rs & Hfst & Hans & Hdu & _); [cbn; lia|].
    exists rs. split; [exact Hfst|]. split; [exact Hans|].
    apply Forall_forall. intros resp Hresp.
    apply (in_map difficulty_used) in Hresp. rewrite Hdu in Hresp.
    apply in_map_iff in Hresp as (r & Hr & Hin).
    apply in_firstn in Hin. cbn [skipn call snd heap] in Hin, Hr.
    rewrite (Hdiff r Hin), (Hsame r Hin) in Hr. now symmetry.
  - intros Hmany. apply batch_results_overflow; [exact Htexts | cbn; lia].
  - destruct (quiet_batch_results self out requests results 0 []
                (snd (call out ev w1))) as [_ Hc].
    rewrite Hc. cbn [call snd calls]. now rewrite Hcalls.
Qed.

Lemma batch_results_matched_by_position_witness :
  (exists responses,
     fst (batch_infer sample_worker
            (answering [PDict [("text", PStr "a")]]) [0; 1]%nat
            (fresh (InferenceRequest_default "Explain gravity"))) = Ok responses
     /\ Forall2 (answers sample_worker) [PDict [("text", PStr "a")]] responses)
  /\ fst (batch_infer sample_worker
            (answering [PDict [("text", PStr "a")]; PDict [("text", PStr "b")]])
            [0%nat] (fresh (InferenceRequest_default "Explain gravity")))
     = Raised (Exn IndexError "list index out of range").
Proof.
  assert (Hone : forall v : pyvalue, (exists fs t, v = PDict fs /\ lookup "text" fs = Some t)
                                     -> has_text v) by (intros v H; exact H).
  split.
  - destruct (proj1 (batch_results_matched_by_position sample_worker
                       (answering [PDict [("text", PStr "a")]]) [0; 1]%nat
                       (fresh (InferenceRequest_default "Explain gravity"))
                       MEDIUM
                       {| tier_temperature := 3 # 10; tier_max_tokens := 512;
                          tier_num_passes := 1; tier_timeout := "30s" |}
                       [("results", PList [PDict [("text", PStr "a")]])]
                       [PDict [("text", PStr "a")]]
                       ltac:(discriminate) ltac:(cbn; lia)
                       ltac:(intros r _; reflexivity) eq_refl
                       ltac:(intros ev; reflexivity) eq_refl
                       ltac:(repeat constructor; now exists [("text", PStr "a")], (PStr "a"))))
      as (responses & H1 & H2 & _); [cbn; lia|].
    exists responses. split; [exact H1 | exact H2].
  - refine (proj1 (proj2 (batch_results_matched_by_position sample_worker
              (answering [PDict [("text", PStr "a")]; PDict [("text", PStr "b")]])
              [0%nat] (fresh (InferenceRequest_default "Explain gravity"))
              MEDIUM
              {| tier_temperature := 3 # 10; tier_max_tokens := 512;
                 tier_num_passes := 1; tier_timeout := "30s" |}
              [("results", PList [PDict [("text", PStr "a")]; PDict [("text", PStr "b")]])]
              [PDict [("text", PStr "a")]; PDict [("text", PStr "b")]]
              ltac:(discriminate) ltac:(cbn; lia)
              ltac:(intros r _; reflexivity) eq_refl
              ltac:(intros ev; reflexivity) eq_refl _)) _).
    + repeat constructor; [now exists [("text", PStr "a")], (PStr "a")
                          | now exists [("text", PStr "b")], (PStr "b")].
    + cbn. lia.
Defined.

(** ** More on the token stream *)

Lemma stream_lines_passing ls broken :
  Forall passes ls ->
  stream_lines ls broken
  = (flat_map token_of ls,
     match broken with
     | Some e => Raised (Exn Exception ("Stream inference failed: " ++ e))
     | None => Ok tt
     end).
Proof.
  induction ls as [|l ls IH]; intros Hall.
  - cbn. now destruct broken.
  - inversion Hall as [|? ? Hl Hrest]; subst. specialize (IH Hrest).
    destruct l as [| raw | [| | | | | |fs]]; cbn [passes] in Hl; try contradiction;
      cbn [stream_lines flat_map token_of app]; try exact IH.
    cbn [member getitem].
    destruct (lookup "token" fs) as [tok|] eqn:Etok.
    + rewrite IH. reflexivity.
    + destruct Hl as [Hl|Hl]; [contradiction|]. rewrite Hl. exact IH.
Qed.

(** X13: when the service streams lines none of which is an error record or
    a JSON value other than an object, [infer_stream] hands out exactly the
    token fields, in the order of the lines: empty and undecodable lines and
    objects without a token contribute nothing, and an object holding both
    a token and an error contributes its token; the stream then ends, or
    raises "Stream inference failed" if the transport broke; a stream that
    fails before its first line hands out nothing and raises the same. *)
Theorem stream_delivers_tokens_in_order self out request w t tm :
  find_tier (value (resolved (heap w request))) (difficulty_levels self) = Some t ->
  Py.float (remove_char "s" (tier_timeout t)) = Some tm ->
  (forall ls broken,
     (forall ev, on_stream out (calls w) ev = Lines ls broken) ->
     Forall passes ls ->
     fst (infer_stream self out request w)
     = (flat_map token_of ls,
        match broken with
        | Some e => Raised (Exn Exception ("Stream inference failed: " ++ e))
        | None => Ok tt
        end))
  /\ (forall e,
        (forall ev, on_stream out (calls w) ev = StreamFailed e) ->
        fst (infer_stream self out request w)
        = ([], Raised (Exn Exception ("Stream inference failed: " ++ e)))).
Proof.
  intros Htier Hparse.
  destruct (set_stream_heap request w) as (_ & _ & Hc0 & _).
  destruct (resolve_difficulty_heap request (snd (set_stream request w)))
    as (_ & _ & _ & _ & _ & _ & _ & _ & _ & _ & _ & Hc1 & _).
  split.
  - intros ls broken Hreply Hpass.
    rewrite infer_stream_eq, Htier, Hparse. cbv zeta.
    rewrite Hc1, Hc0, Hreply. cbn [fst]. now apply stream_lines_passing.
  - intros e Hreply.
    rewrite infer_stream_eq, Htier, Hparse. cbv zeta.
    rewrite Hc1, Hc0, Hreply. reflexivity.
Qed.

Lemma stream_delivers_tokens_in_order_witness :
  fst (infer_stream sample_worker
         (streaming [Record_ (PDict [("token", PStr "4")]); Blank;
                     Garbage "not json";
                     Record_ (PDict [("token", PStr "2"); ("error", PStr "late")]);
                     Record_ (PDict [("done", PBool true)])] (Some "read error"))
         0%nat (fresh (InferenceRequest_default "Explain gravity")))
  = ([PStr "4"; PStr "2"],
     Raised (Exn Exception "Stream inference failed: read error")).
Proof.
  refine (proj1 (stream_delivers_tokens_in_order sample_worker
                   (streaming [Record_ (PDict [("token", PStr "4")]); Blank;
                               Garbage "not json";
                               Record_ (PDict [("token", PStr "2");
                                               ("error", PStr "late")]);
                               Record_ (PDict [("done", PBool true)])]
                      (Some "read error"))
                   0%nat (fresh (InferenceRequest_default "Explain gravity"))
                   {| tier_temperature := 3 # 10; tier_max_tokens := 512;
                      tier_num_passes := 1; tier_timeout := "30s" |}
                   (Finite 30) eq_refl eq_refl) _ _ (fun ev => eq_refl) _).
  repeat (apply Forall_cons;
          [cbn; first [exact I | left; discriminate | right; reflexivity]|]).
  apply Forall_nil.
Defined.

(** X14: a line that decodes to something other than an object is not
    skipped like an undecodable one: a number, a boolean or null, and a
    string or list in which "token" is found, end the stream with a
    [TypeError], after the tokens of the lines before it. *)
Theorem stream_raises_on_non_object_line pre v post broken toks :
  stream_lines pre None = (toks, Ok tt) ->
  breaks_stream v ->
  exists text,
    stream_lines (pre ++ Record_ v :: post) broken
    = (toks, Raised (Exn TypeError text)).
Proof.
  intros Hpre Hv. rewrite stream_lines_app, Hpre.
  destruct v as [| b | z | r | s | items | fs]; cbn [breaks_stream] in Hv;
    try contradiction; cbn [stream_lines member getitem];
    rewrite ?Hv; eexists; rewrite app_nil_r; reflexivity.
Qed.

Lemma stream_raises_on_non_object_line_witness :
  exists text,
    stream_lines ([Record_ (PDict [("token", PStr "a")])]
                  ++ Record_ (PInt 5) :: [Record_ (PDict [("token", PStr "b")])]) None
    = ([PStr "a"], Raised (Exn TypeError text)).
Proof.
  exact (stream_raises_on_non_object_line
           [Record_ (PDict [("token", PStr "a")])] (PInt 5)
           [Record_ (PDict [("token", PStr "b")])] None [PStr "a"] eq_refl I).
Defined.

(** ** More on the classifier *)

Lemma lower_char_idempotent c :
  Py.lower_char (Py.lower_char c) = Py.lower_char c.
Proof.
  destruct c as [[] [] [] [] [] [] [] []]; vm_compute; reflexivity.
Qed.

Lemma lower_idempotent s : Py.lower (Py.lower s) = Py.lower s.
Proof.
  induction s as [|c s IH]; cbn; [reflexivity|].
  now rewrite lower_char_idempotent, IH.
Qed.

Lemma string_app_assoc (a b c : string) : (a ++ b) ++ c = a ++ b ++ c.
Proof. induction a as [|x a IH]; cbn; [reflexivity|]. now rewrite IH. Qed.

Lemma matches_inside kws pre a post :
  matches kws a -> matches kws (pre ++ a ++ post).
Proof.
  intros (kw & Hin & Hc). exists kw. split; [exact Hin|].
  apply contains_inv in Hc as (x & y & Hxy).
  rewrite !lower_app, Hxy.
  replace (Py.lower pre ++ (x ++ kw ++ y) ++ Py.lower post)
    with ((Py.lower pre ++ x) ++ kw ++ (y ++ Py.lower post)).
  - apply contains_app.
  - rewrite !string_app_assoc. reflexivity.
Qed.

(** The rank of a prompt, by the keywords it matches. *)
Lemma classify_rank prompt context :
  ((3 <= rank (_determine_difficulty prompt context))%nat
   <-> matches expert_keywords prompt)
  /\ ((2 <= rank (_determine_difficulty prompt context))%nat
      <-> matches expert_keywords prompt \/ matches hard_keywords prompt)
  /\ ((1 <= rank (_determine_difficulty prompt context))%nat
      <-> matches expert_keywords prompt \/ matches hard_keywords prompt
          \/ matches medium_keywords prompt).
Proof.
  unfold _determine_difficulty.
  destruct (Py.any _ expert_keywords) eqn:E1;
    [apply any_matches in E1 | apply any_not_matches in E1];
    [cbn [rank]; intuition lia|].
  destruct (Py.any _ hard_keywords) eqn:E2;
    [apply any_matches in E2 | apply any_not_matches in E2];
    [cbn [rank]; intuition lia|].
  destruct (Py.any _ medium_keywords) eqn:E3;
    [apply any_matches in E3 | apply any_not_matches in E3];
    cbn [rank]; intuition lia.
Qed.

(** X15: the classification does not depend on letter case, and text added
    before or after a prompt never moves it to a tier tested later: the
    prompt with the added text is ranked at least as high as the prompt
    alone. *)
Theorem classification_case_and_context prompt context :
  _determine_difficulty (Py.lower prompt) context
  = _determine_difficulty prompt context
  /\ forall pre post,
       (rank (_determine_difficulty prompt context)
        <= rank (_determine_difficulty (pre ++ prompt ++ post) context))%nat.
Proof.
  split.
  - unfold _determine_difficulty. now rewrite lower_idempotent.
  - intros pre post.
    destruct (classify_rank prompt context) as (H3 & H2 & H1).
    destruct (classify_rank (pre ++ prompt ++ post) context) as (H3' & H2' & H1').
    pose proof (matches_inside expert_keywords pre prompt post) as Me.
    pose proof (matches_inside hard_keywords pre prompt post) as Mh.
    pose proof (matches_inside medium_keywords pre prompt post) as Mm.
    assert (G3 : (3 <= rank (_determine_difficulty prompt context))%nat ->
                 (3 <= rank (_determine_difficulty (pre ++ prompt ++ post) context))%nat)
      by (intros H; apply H3', Me, H3, H).
    assert (G2 : (2 <= rank (_determine_difficulty prompt context))%nat ->
                 (2 <= rank (_determine_difficulty (pre ++ prompt ++ post) context))%nat)
      by (intros H; apply H2'; apply H2 in H; tauto).
    assert (G1 : (1 <= rank (_determine_difficulty prompt context))%nat ->
                 (1 <= rank (_determine_difficulty (pre ++ prompt ++ post) context))%nat)
      by (intros H; apply H1'; apply H1 in H; tauto).
    destruct (_determine_difficulty prompt context); cbn [rank] in *; lia.
Qed.

(** ** The compliance checker *)

Lemma severity_of_cases s sev :
  Kairo.severity_of s = Ok sev ->
  (sev = Kairo.LOW /\ s = "low") \/ (sev = Kairo.MEDIUM /\ s = "medium")
  \/ (sev = Kairo.HIGH /\ s = "high") \/ (sev = Kairo.CRITICAL /\ s = "critical").
Proof.
  unfold Kairo.severity_of.
  destruct (String.eqb s "low") eqn:E1.
  { apply String.eqb_eq in E1. intros [= <-]. now left. }
  destruct (String.eqb s "medium") eqn:E2.
  { apply String.eqb_eq in E2. intros [= <-]. right. now left. }
  destruct (String.eqb s "high") eqn:E3.
  { apply String.eqb_eq in E3. intros [= <-]. right. right. now left. }
  destruct (String.eqb s "critical") eqn:E4.
  { apply String.eqb_eq in E4. intros [= <-]. right. right. now right. }
  discriminate.
Qed.

Lemma severity_of_valid s :
  valid_severity s = true <-> exists sev, Kairo.severity_of s = Ok sev.
Proof.
  unfold valid_severity, Kairo.severity_of.
  destruct (String.eqb s "low"); [split; eauto|].
  destruct (String.eqb s "medium"); [split; eauto|].
  destruct (String.eqb s "high"); [split; eauto|].
  destruct (String.eqb s "critical"); [split; eauto|].
  cbn. split; [discriminate|]. intros [sev H]. discriminate.
Qed.

(** One turn of the loop: a rule that passes leaves the progress as it
    is; a rule that fails appends its record and escalates the action. *)
Lemma check_one_inv re rule u a ctx st st' :
  Kairo.check_one re rule u a ctx st = Ok st' ->
  (violates re u a ctx rule = false /\ st' = st)
  \/ (violates re u a ctx rule = true
      /\ exists v,
           recorded re u a ctx rule v
           /\ valid_severity (Kairo.v_severity v) = true
           /\ Kairo.so_far st' = (Kairo.so_far st ++ [v])%list
           /\ Kairo.current st' = escalate rule (Kairo.current st)).
Proof.
  unfold Kairo.check_one, violates.
  destruct (Kairo._check_rule re rule u a ctx) as [r|e] eqn:Hr; [|discriminate].
  destruct (Kairo.compliant r) eqn:Hc.
  { intros [= <-]. now left. }
  destruct (Kairo.id rule) as [rid|] eqn:Hid; [|discriminate].
  destruct (Kairo.name rule) as [rname|] eqn:Hname; [|discriminate].
  destruct (Kairo.severity rule) as [rsev|] eqn:Hsev; [|discriminate].
  destruct (Kairo.description rule) as [rdesc|] eqn:Hdesc; [|discriminate].
  cbn [Kairo.required].
  destruct (Kairo.severity_of rsev) as [sev|e] eqn:Hs; [|discriminate].
  intros [= <-]. right. split; [reflexivity|].
  exists {| Kairo.v_rule_id := rid; Kairo.v_rule_name := rname;
            Kairo.v_severity := rsev; Kairo.v_description := rdesc;
            Kairo.v_details := match Kairo.details r with
                               | Some d => d
                               | None => ""
                               end |}.
  split; [|split; [|split]].
  - unfold recorded. cbn. rewrite ?Hid, ?Hname, ?Hsev, ?Hdesc.
    do 4 (split; [reflexivity|]). exists r. split; [exact Hr|reflexivity].
  - cbn. apply severity_of_valid. eauto.
  - reflexivity.
  - cbn [Kairo.current]. unfold escalate, blocking, warning. rewrite Hsev.
    destruct (severity_of_cases _ _ Hs) as [[-> ->]|[[-> ->]|[[-> ->]|[-> ->]]]];
      cbn; destruct (Kairo.equals (Kairo.rule_action rule) "block");
      destruct (Kairo.equals (Kairo.rule_action rule) "warn");
      destruct (Kairo.current st); reflexivity.
Qed.

(** The action after the rules [rules], from the action [a0] before them. *)
Lemma escalate_block rule : escalate rule Kairo.BLOCK = Kairo.BLOCK.
Proof. unfold escalate. now destruct (blocking rule), (warning rule). Qed.

Lemma check_all_inv re rules u a ctx : forall st st',
  Kairo.check_all re rules u a ctx st = Ok st' ->
  Forall2 (recorded re u a ctx) (filter (violates re u a ctx) rules)
          (skipn (length (Kairo.so_far st)) (Kairo.so_far st'))
  /\ firstn (length (Kairo.so_far st)) (Kairo.so_far st') = Kairo.so_far st
  /\ Forall (fun v => valid_severity (Kairo.v_severity v) = true)
            (skipn (length (Kairo.so_far st)) (Kairo.so_far st'))
  /\ Kairo.current st'
     = fold_left (fun act rule => escalate rule act)
                 (filter (violates re u a ctx) rules) (Kairo.current st).
Proof.
  induction rules as [|rule rules IH]; intros st st'; cbn [Kairo.check_all].
  - intros [= <-]. rewrite skipn_all, firstn_all. cbn. repeat split; constructor.
  - destruct (Kairo.check_one re rule u a ctx st) as [st1|e] eqn:H1; [|discriminate].
    intros H. destruct (IH _ _ H) as (IHa & IHb & IHc & IHd).
    apply check_one_inv in H1 as [[Hv ->]|(Hv & v & Hrec & Hval & Hso & Hcur)];
      cbn [filter]; rewrite Hv.
    + repeat split; assumption.
    + rewrite Hso in IHa, IHb, IHc. rewrite length_app in IHa, IHb, IHc.
      cbn [length] in IHa, IHb, IHc.
      assert (Hsplit : Kairo.so_far st'
                       = (Kairo.so_far st ++ v
                            :: skipn (length (Kairo.so_far st) + 1) (Kairo.so_far st'))%list).
      { rewrite <- (firstn_skipn (length (Kairo.so_far st) + 1) (Kairo.so_far st')) at 1.
        rewrite IHb, <- app_assoc. reflexivity. }
      assert (Hsk : skipn (length (Kairo.so_far st)) (Kairo.so_far st')
                    = v :: skipn (length (Kairo.so_far st) + 1) (Kairo.so_far st')).
      { rewrite Hsplit at 1. rewrite skipn_app, Nat.sub_diag, skipn_all.
        reflexivity. }
      rewrite Hsk. split; [|split; [|split]].
      * constructor; assumption.
      * rewrite Hsplit. rewrite firstn_app, Nat.sub_diag, firstn_all.
        cbn. apply app_nil_r.
      * constructor; assumption.
      * cbn [fold_left]. rewrite <- Hcur. exact IHd.
Qed.

Lemma fold_escalate rules : forall a0,
  fold_left (fun act rule => escalate rule act) rules a0
  = if match a0 with Kairo.BLOCK => true | _ => false end || existsb blocking rules
    then Kairo.BLOCK
    else if match a0 with Kairo.WARN => true | _ => false end || existsb warning rules
    then Kairo.WARN
    else Kairo.ALLOW.
Proof.
  induction rules as [|rule rules IH]; intros a0; cbn [fold_left existsb].
  - destruct a0; reflexivity.
  - rewrite IH. unfold escalate.
    destruct (blocking rule), (warning rule), a0; cbn;
      try reflexivity; destruct (existsb blocking rules); reflexivity.
Qed.

Lemma existsb_filter {A} (p q : A -> bool) (l : list A) :
  existsb q (filter p l) = true <-> Exists (fun x => p x = true /\ q x = true) l.
Proof.
  rewrite existsb_exists, Exists_exists. split; intros (x & Hx & H).
  - apply filter_In in Hx as [Hin Hp]. now exists x.
  - destruct H as [Hp Hq]. exists x. split; [|exact Hq].
    apply filter_In. now split.
Qed.

(** What [check_compliance] returns, in terms of its first loop. *)
Lemma check_compliance_inv re rules u a ctx res :
  Kairo.check_compliance re rules u a ctx = Ok res ->
  Forall2 (recorded re u a ctx) (filter (violates re u a ctx) rules)
          (Kairo.violations res)
  /\ Forall (fun v => valid_severity (Kairo.v_severity v) = true)
            (Kairo.violations res)
  /\ Kairo.action res
     = fold_left (fun act rule => escalate rule act)
                 (filter (violates re u a ctx) rules) Kairo.ALLOW
  /\ Kairo.is_compliant res
     = match Kairo.violations res with [] => true | _ => false end
  /\ Kairo.confidence res = 1
  /\ match Kairo.violations res with
     | [] => Kairo.message res = None
     | v :: vs =>
         Kairo.find_message rules
           (Kairo.v_rule_id (Kairo.max_by Kairo.violation_priority v vs))
         = Ok (Kairo.message res)
     end.
Proof.
  unfold Kairo.check_compliance.
  destruct (Kairo.check_all re rules u a ctx _) as [st|e] eqn:Hall; [|discriminate].
  apply check_all_inv in Hall as (Ha & _ & Hb & Hc). cbn in Ha, Hb, Hc.
  destruct (Kairo.so_far st) as [|v vs] eqn:Hso.
  - intros [= <-]. cbn. repeat split; assumption.
  - destruct (Kairo.find_message rules _) as [msg|e] eqn:Hm; [|discriminate].
    intros [= <-]. cbn. repeat split; assumption.
Qed.

(** X16: the action of the verdict is BLOCK exactly when some violated rule
    of high or critical severity has the action "block"; it is WARN exactly
    when no such rule exists and some violated rule of medium severity has
    the action "warn"; in every other case, a violation of low severity
    included, it stays ALLOW. *)
Theorem compliance_action re rules u a ctx res :
  Kairo.check_compliance re rules u a ctx = Ok res ->
  let blocked :=
    Exists (fun rule => violates re u a ctx rule = true /\ blocking rule = true)
           rules in
  let warned :=
    Exists (fun rule => violates re u a ctx rule = true /\ warning rule = true)
           rules in
  (Kairo.action res = Kairo.BLOCK <-> blocked)
  /\ (Kairo.action res = Kairo.WARN <-> ~ blocked /\ warned)
  /\ (Kairo.action res = Kairo.ALLOW <-> ~ blocked /\ ~ warned).
Proof.
  intros H blocked warned.
  apply check_compliance_inv in H as (_ & _ & Hact & _).
  rewrite Hact, fold_escalate. cbn [orb].
  subst blocked warned. rewrite <- !existsb_filter.
  destruct (existsb blocking _), (existsb warning _);
    repeat split; try congruence; try (intros [? ?]; congruence);
    try (intros _; split; congruence).
Qed.

Lemma compliance_action_witness :
  let blocked :=
    Exists (fun rule => violates no_match "hi" "hello" None rule = true
                        /\ blocking rule = true) sample_rules in
  let warned :=
    Exists (fun rule => violates no_match "hi" "hello" None rule = true
                        /\ warning rule = true) sample_rules in
  (Kairo.action sample_verdict = Kairo.BLOCK <-> blocked)
  /\ (Kairo.action sample_verdict = Kairo.WARN <-> ~ blocked /\ warned)
  /\ (Kairo.action sample_verdict = Kairo.ALLOW <-> ~ blocked /\ ~ warned).
Proof.
  apply (compliance_action no_match sample_rules "hi" "hello" None sample_verdict).
  vm_compute. reflexivity.
Defined.

(** X17: the verdict lists one violation for each violated rule, in the
    order of the rule table, each with the id, name, severity and
    description of its rule and the details of the failed check; the
    exchange is compliant exactly when no rule is violated, and a compliant
    verdict has the action ALLOW and no message. *)
Theorem compliance_violations re rules u a ctx res :
  Kairo.check_compliance re rules u a ctx = Ok res ->
  Forall2 (recorded re u a ctx) (filter (violates re u a ctx) rules)
          (Kairo.violations res)
  /\ (Kairo.is_compliant res = true
      <-> Forall (fun rule => violates re u a ctx rule = false) rules)
  /\ (Kairo.is_compliant res = true ->
      Kairo.violations res = [] /\ Kairo.action res = Kairo.ALLOW
      /\ Kairo.message res = None).
Proof.
  intros H.
  apply check_compliance_inv in H as (Hrec & _ & Hact & Hc & _ & Hmsg).
  split; [exact Hrec|]. rewrite Hc.
  assert (Hnil : Kairo.violations res = []
                 <-> Forall (fun rule => violates re u a ctx rule = false) rules).
  { split.
    - intros E. rewrite E in Hrec. inversion Hrec as [Hf|]; subst.
      apply Forall_forall. intros rule Hin.
      destruct (violates re u a ctx rule) eqn:Hv; [|reflexivity].
      assert (Hin' : In rule (filter (violates re u a ctx) rules))
        by (apply filter_In; now split).
      rewrite <- Hf in Hin'. destruct Hin'.
    - intros Hall.
      assert (E : filter (violates re u a ctx) rules = []).
      { clear - Hall. induction Hall as [|rule l Hr _ IH]; cbn; [reflexivity|].
        now rewrite Hr. }
      rewrite E in Hrec. now inversion Hrec. }
  split.
  - rewrite <- Hnil. destruct (Kairo.violations res); split; congruence.
  - intros Hv. destruct (Kairo.violations res) eqn:E; [|discriminate].
    split; [reflexivity|]. split; [|exact Hmsg].
    rewrite Hact. apply Forall2_length in Hrec. cbn in Hrec.
    apply length_zero_iff_nil in Hrec. rewrite Hrec. reflexivity.
Qed.

Lemma compliance_violations_witness :
  Forall2 (recorded no_match "hi" "hello" None)
          (filter (violates no_match "hi" "hello" None) sample_rules)
          (Kairo.violations sample_verdict)
  /\ (Kairo.is_compliant sample_verdict = true
      <-> Forall (fun rule => violates no_match "hi" "hello" None rule = false)
                 sample_rules)
  /\ (Kairo.is_compliant sample_verdict = true ->
      Kairo.violations sample_verdict = []
      /\ Kairo.action sample_verdict = Kairo.ALLOW
      /\ Kairo.message sample_verdict = None).
Proof.
  apply (compliance_violations no_match sample_rules "hi" "hello" None
           sample_verdict).
  vm_compute. reflexivity.
Defined.

Lemma max_by_spec {A} (key : A -> Z) (l : list A) : forall best,
  exists pre post,
    best :: l = (pre ++ Kairo.max_by key best l :: post)%list
    /\ Forall (fun x => (key x < key (Kairo.max_by key best l))%Z) pre
    /\ Forall (fun x => (key x <= key (Kairo.max_by key best l))%Z) post.
Proof.
  induction l as [|x rest IH]; intros best; cbn [Kairo.max_by].
  - exists [], []. repeat split; constructor.
  - destruct (key best <? key x)%Z eqn:E.
    + apply Z.ltb_lt in E.
      destruct (IH x) as (pre & post & Heq & Hpre & Hpost).
      exists (best :: pre), post. rewrite Heq. split; [reflexivity|].
      split; [|exact Hpost]. constructor; [|exact Hpre].
      assert (Hx : (key x <= key (Kairo.max_by key x rest))%Z).
      { destruct pre as [|p pre].
        - cbn in Heq. injection Heq as <- _. lia.
        - cbn in Heq. injection Heq as <- _. inversion Hpre; subst. lia. }
      lia.
    + apply Z.ltb_ge in E.
      destruct (IH best) as (pre & post & Heq & Hpre & Hpost).
      destruct pre as [|p pre].
      * cbn in Heq. injection Heq as Hb Hr. subst post.
        exists [], (x :: rest). rewrite <- Hb.
        split; [reflexivity|]. split; [constructor|].
        rewrite <- Hb in Hpost. constructor; [exact E|exact Hpost].
      * cbn in Heq. injection Heq as <- Hr.
        exists (best :: x :: pre), post.
        split; [cbn [app]; do 2 f_equal; exact Hr|]. split; [|exact Hpost].
        inversion Hpre; subst. constructor; [assumption|].
        constructor; [lia|assumption].
Qed.

Lemma find_message_found rules rid : forall m,
  Kairo.find_message rules rid = Ok (Some m) ->
  exists before r0 after,
    rules = (before ++ r0 :: after)%list
    /\ Kairo.id r0 = Some rid
    /\ Forall (fun r => Kairo.id r <> Some rid) before
    /\ m = message_of r0.
Proof.
  induction rules as [|rule rules IH]; intros m; cbn [Kairo.find_message].
  - discriminate.
  - destruct (Kairo.id rule) as [x|] eqn:Hid; cbn [Kairo.required]; [|discriminate].
    destruct (String.eqb x rid) eqn:E.
    + apply String.eqb_eq in E. subst x. intros [= <-].
      exists [], rule, rules. repeat split; [exact Hid|constructor].
    + apply String.eqb_neq in E. intros H.
      destruct (IH _ H) as (before & r0 & after & -> & Hr0 & Hb & ->).
      exists (rule :: before), r0, after. repeat split; [exact Hr0|].
      constructor; [|exact Hb]. rewrite Hid. congruence.
Qed.

Lemma find_message_none rules rid :
  Kairo.find_message rules rid = Ok None ->
  Forall (fun r => Kairo.id r <> Some rid) rules.
Proof.
  induction rules as [|rule rules IH]; cbn [Kairo.find_message]; [constructor|].
  destruct (Kairo.id rule) as [x|] eqn:Hid; cbn [Kairo.required]; [|discriminate].
  destruct (String.eqb x rid) eqn:E; [discriminate|].
  apply String.eqb_neq in E. intros H. constructor; [|exact (IH H)].
  rewrite Hid. congruence.
Qed.

(** X18: when rules are violated, the message of the verdict is that of
    the first rule of the table whose id is the id of the first violation of
    the highest severity (the default text when that rule carries none);
    with violations the verdict always has a message. *)
Theorem compliance_message re rules u a ctx res :
  Kairo.check_compliance re rules u a ctx = Ok res ->
  Kairo.violations res <> [] ->
  exists pre top post before r0 after,
    Kairo.violations res = (pre ++ top :: post)%list
    /\ Forall (fun v => (Kairo.violation_priority v
                         < Kairo.violation_priority top)%Z) pre
    /\ Forall (fun v => (Kairo.violation_priority v
                         <= Kairo.violation_priority top)%Z) post
    /\ rules = (before ++ r0 :: after)%list
    /\ Kairo.id r0 = Some (Kairo.v_rule_id top)
    /\ Forall (fun r => Kairo.id r <> Some (Kairo.v_rule_id top)) before
    /\ Kairo.message res = Some (message_of r0).
Proof.
  intros H Hne.
  apply check_compliance_inv in H as (Hrec & _ & _ & _ & _ & Hmsg).
  destruct (Kairo.violations res) as [|v vs] eqn:Hv; [congruence|].
  destruct (max_by_spec Kairo.violation_priority vs v)
    as (pre & post & Heq & Hpre & Hpost).
  set (top := Kairo.max_by Kairo.violation_priority v vs) in *.
  destruct (Kairo.message res) as [m|] eqn:Hm.
  - apply find_message_found in Hmsg
      as (before & r0 & after & Hrules & Hid & Hb & ->).
    exists pre, top, post, before, r0, after. repeat split; assumption.
  - exfalso. apply find_message_none in Hmsg.
    assert (Hin : In top (v :: vs)).
    { rewrite Heq. apply in_or_app. right. now left. }
    clear - Hrec Hin Hmsg.
    remember (filter (violates re u a ctx) rules) as viol eqn:Hviol.
    assert (Hsub : forall r, In r viol -> In r rules).
    { intros r Hr. subst viol. apply filter_In in Hr. tauto. }
    clear Hviol.
    induction Hrec as [|r x l l' Hrx _ IH]; [destruct Hin|].
    destruct Hin as [->|Hin].
    + destruct Hrx as (Hid & _).
      rewrite Forall_forall in Hmsg.
      exact (Hmsg r (Hsub r (or_introl eq_refl)) Hid).
    + apply IH; [exact Hin|]. intros r' Hr'. apply Hsub. now right.
Qed.

Lemma compliance_message_witness :
  exists pre top post before r0 after,
    Kairo.violations sample_verdict = (pre ++ top :: post)%list
    /\ Forall (fun v => (Kairo.violation_priority v
                         < Kairo.violation_priority top)%Z) pre
    /\ Forall (fun v => (Kairo.violation_priority v
                         <= Kairo.violation_priority top)%Z) post
    /\ sample_rules = (before ++ r0 :: after)%list
    /\ Kairo.id r0 = Some (Kairo.v_rule_id top)
    /\ Forall (fun r => Kairo.id r <> Some (Kairo.v_rule_id top)) before
    /\ Kairo.message sample_verdict = Some (message_of r0).
Proof.
  apply (compliance_message no_match sample_rules "hi" "hello" None
           sample_verdict).
  - vm_compute. reflexivity.
  - discriminate.
Defined.

Lemma check_all_clean re rules u a ctx : forall st,
  Forall (fun rule => exists r,
            Kairo._check_rule re rule u a ctx = Ok r
            /\ Kairo.compliant r = true) rules ->
  Kairo.check_all re rules u a ctx st = Ok st.
Proof.
  intros st H. induction H as [|rule rules (r & Hr & Hc) _ IH];
    cbn [Kairo.check_all]; [reflexivity|].
  unfold Kairo.check_one. rewrite Hr, Hc. exact IH.
Qed.

(** X19: when the check of every rule passes, the verdict is the clean one
    (compliant, no violation, ALLOW, no message, confidence 1), whatever the
    rules hold as id, name, severity or description: these entries are read
    only for a rule that is violated. *)
Theorem compliance_clean re rules u a ctx :
  Forall (fun rule => exists r,
            Kairo._check_rule re rule u a ctx = Ok r
            /\ Kairo.compliant r = true) rules ->
  Kairo.check_compliance re rules u a ctx = Ok clean.
Proof.
  intros H. unfold Kairo.check_compliance.
  rewrite (check_all_clean _ _ _ _ _ _ H). reflexivity.
Qed.

Lemma compliance_clean_witness :
  Kairo.check_compliance no_match
    [bare_rule [length_check (Some 1%Z) None]; bare_rule []] "hi" "hello" None
  = Ok clean.
Proof.
  apply (compliance_clean no_match
           [bare_rule [length_check (Some 1%Z) None]; bare_rule []]
           "hi" "hello" None).
  repeat (apply Forall_cons; [exists Kairo.passed; split; reflexivity|]).
  apply Forall_nil.
Defined.

(** X20: a violated rule whose severity is none of "low", "medium", "high"
    and "critical" makes [check_compliance] raise ValueError, when the rules
    before it pass. *)
Theorem violated_rule_with_unknown_severity
    re pre rule post u a ctx rid rname s rdesc :
  Forall (fun rule => exists r,
            Kairo._check_rule re rule u a ctx = Ok r
            /\ Kairo.compliant r = true) pre ->
  violates re u a ctx rule = true ->
  Kairo.id rule = Some rid ->
  Kairo.name rule = Some rname ->
  Kairo.severity rule = Some s ->
  Kairo.description rule = Some rdesc ->
  valid_severity s = false ->
  Kairo.check_compliance re (pre ++ rule :: post) u a ctx
  = Raised (Exn ValueError (repr_str s ++ " is not a valid ViolationSeverity")).
Proof.
  intros Hpre Hv Hid Hname Hsev Hdesc Hs. unfold Kairo.check_compliance.
  set (st0 := {| Kairo.so_far := []; Kairo.highest_severity := None;
                 Kairo.current := Kairo.ALLOW |}).
  assert (E : Kairo.check_all re (pre ++ rule :: post) u a ctx st0
              = Raised (Exn ValueError
                          (repr_str s ++ " is not a valid ViolationSeverity"))).
  { induction Hpre as [|r0 pre (r & Hr & Hc) _ IH]; cbn [app Kairo.check_all].
    - unfold Kairo.check_one. unfold violates in Hv.
      destruct (Kairo._check_rule re rule u a ctx) as [r|e]; [|discriminate].
      destruct (Kairo.compliant r); [discriminate|].
      rewrite Hid, Hname, Hsev, Hdesc. cbn [Kairo.required].
      unfold valid_severity in Hs. unfold Kairo.severity_of.
      destruct (String.eqb s "low"); [discriminate|].
      destruct (String.eqb s "medium"); [discriminate|].
      destruct (String.eqb s "high"); [discriminate|].
      destruct (String.eqb s "critical"); [discriminate|]. reflexivity.
    - unfold Kairo.check_one at 1. rewrite Hr, Hc. exact IH. }
  rewrite E. reflexivity.
Qed.

Lemma violated_rule_with_unknown_severity_witness :
  Kairo.check_compliance no_match
    ([bare_rule []]
       ++ rule_with "short" "severe" (Some "block") None
            (length_check None (Some 3%Z))
       :: sample_rules) "hi" "hello" None
  = Raised (Exn ValueError "'severe' is not a valid ViolationSeverity").
Proof.
  apply (violated_rule_with_unknown_severity no_match [bare_rule []]
           (rule_with "short" "severe" (Some "block") None
              (length_check None (Some 3%Z)))
           sample_rules "hi" "hello" None "short" "short" "severe" "short");
    try reflexivity.
  apply Forall_cons; [exists Kairo.passed; split; reflexivity|apply Forall_nil].
Defined.

Lemma all_checks_fail_iff re u a ctx r :
  Kairo.compliant r = false ->
  forall cs,
    Kairo.all_checks re cs u a ctx = Ok r
    <-> exists pre c post,
          cs = (pre ++ c :: post)%list
          /\ Forall (check_passes re u a ctx) pre
          /\ Kairo._execute_check re c u a ctx = Ok r.
Proof.
  intros Hr. induction cs as [|c0 cs IH]; cbn [Kairo.all_checks].
  - split.
    + intros [= <-]. discriminate.
    + intros (pre & c & post & E & _). destruct pre; discriminate.
  - destruct (Kairo._execute_check re c0 u a ctx) as [r0|e] eqn:H0.
    + destruct (Kairo.compliant r0) eqn:Hc0.
      * rewrite IH. split.
        -- intros (pre & c & post & -> & Hpre & Hc).
           exists (c0 :: pre), c, post. repeat split; [|exact Hc].
           constructor; [|exact Hpre]. exists r0. now split.
        -- intros (pre & c & post & E & Hpre & Hc).
           destruct pre as [|p pre]; cbn in E; injection E as <- ->.
           ++ congruence.
           ++ exists pre, c, post. inversion Hpre; subst. now repeat split.
      * split.
        -- intros [= <-]. exists [], c0, cs. repeat split; [constructor|exact H0].
        -- intros (pre & c & post & E & Hpre & Hc).
           destruct pre as [|p pre]; cbn in E; injection E as <- ->.
           ++ congruence.
           ++ inversion Hpre as [|? ? (r1 & H1 & Hc1)]; subst. congruence.
    + split; [discriminate|].
      intros (pre & c & post & E & Hpre & Hc).
      destruct pre as [|p pre]; cbn in E; injection E as <- ->.
      * congruence.
      * inversion Hpre as [|? ? (r1 & H1 & Hc1)]; subst. congruence.
Qed.

(** X21: a rule without a single "check" fails with the result of the first
    of its "checks" that fails, and only then: the checks before it pass,
    and the checks after it are not run. *)
Theorem rule_fails_at_first_failing_check re rule u a ctx r :
  Kairo.check rule = None ->
  Kairo.compliant r = false ->
  Kairo._check_rule re rule u a ctx = Ok r
  <-> exists pre c post,
        Kairo.checks rule = (pre ++ c :: post)%list
        /\ Forall (check_passes re u a ctx) pre
        /\ Kairo._execute_check re c u a ctx = Ok r.
Proof.
  intros Hcheck Hr. unfold Kairo._check_rule. rewrite Hcheck.
  apply all_checks_fail_iff. exact Hr.
Qed.

Lemma rule_fails_at_first_failing_check_witness :
  Kairo._check_rule no_match
    (bare_rule [length_check (Some 1%Z) None; length_check None (Some 3%Z);
                patternless]) "hi" "hello" None
  = Ok (Kairo.failed "Output too long: 5 > 3").
Proof.
  apply (rule_fails_at_first_failing_check no_match
           (bare_rule [length_check (Some 1%Z) None;
                       length_check None (Some 3%Z); patternless])
           "hi" "hello" None (Kairo.failed "Output too long: 5 > 3"));
    [reflexivity|reflexivity|].
  exists [length_check (Some 1%Z) None], (length_check None (Some 3%Z)),
    [patternless].
  split; [reflexivity|]. split; [|reflexivity].
  apply Forall_cons; [exists Kairo.passed; split; reflexivity|apply Forall_nil].
Defined.

Lemma first_keyword_spec kws sensitive text :
  match Kairo.first_keyword kws sensitive text with
  | Some k =>
      In k kws /\ Py.contains (folded sensitive k) (folded sensitive text) = true
  | None =>
      forall k, In k kws ->
        Py.contains (folded sensitive k) (folded sensitive text) = false
  end.
Proof.
  induction kws as [|kw kws IH]; cbn [Kairo.first_keyword].
  - intros k [].
  - destruct sensitive; cbn [folded] in *.
    + destruct (Py.contains kw text) eqn:E.
      * split; [now left|exact E].
      * destruct (Kairo.first_keyword kws true text).
        -- destruct IH. split; [now right|assumption].
        -- intros k [<-|Hk]; [exact E|now apply IH].
    + destruct (Py.contains (Py.lower kw) (Py.lower text)) eqn:E.
      * split; [now left|exact E].
      * destruct (Kairo.first_keyword kws false text).
        -- destruct IH. split; [now right|assumption].
        -- intros k [<-|Hk]; [exact E|now apply IH].
Qed.

Lemma folded_app sensitive (x y : string) :
  folded sensitive (x ++ y) = folded sensitive x ++ folded sensitive y.
Proof. destruct sensitive; cbn [folded]; [reflexivity|apply lower_app]. Qed.

Lemma contains_left kw x y :
  Py.contains kw x = true -> Py.contains kw (x ++ y) = true.
Proof.
  intros H. apply contains_inv in H as (p & q & ->).
  rewrite !string_app_assoc. apply contains_app.
Qed.

Lemma contains_right kw x y :
  Py.contains kw y = true -> Py.contains kw (x ++ y) = true.
Proof.
  intros H. apply contains_inv in H as (p & q & ->).
  rewrite <- string_app_assoc. apply contains_app.
Qed.

(** X22: a keyword check fails exactly when one of its keywords occurs in
    the user's input, a space and the model's output joined together (all of
    it lower-cased when the check is not case sensitive; case sensitive is
    the default); so a keyword in the user's input alone, or in the output
    alone, fails the check. *)
Theorem keyword_check_reads_input_and_output re c u a ctx :
  Kairo.type_ c = Some "keyword" ->
  let kws := match Kairo.keywords c with Some l => l | None => [] end in
  let sensitive :=
    match Kairo.case_sensitive c with Some b => b | None => true end in
  exists r,
    Kairo._execute_check re c u a ctx = Ok r
    /\ (Kairo.compliant r = false
        <-> exists k, In k kws
                      /\ Py.contains (folded sensitive k)
                           (folded sensitive (u ++ " " ++ a)) = true)
    /\ (forall k, In k kws ->
          Py.contains (folded sensitive k) (folded sensitive u) = true
          \/ Py.contains (folded sensitive k) (folded sensitive a) = true ->
          Kairo.compliant r = false).
Proof.
  intros Ht kws sensitive.
  assert (E : Kairo._execute_check re c u a ctx
              = match Kairo.first_keyword kws sensitive (u ++ " " ++ a) with
                | Some keyword => Ok (Kairo.failed ("Keyword detected: " ++ keyword))
                | None => Ok Kairo.passed
                end).
  { unfold Kairo._execute_check. rewrite Ht. reflexivity. }
  pose proof (first_keyword_spec kws sensitive (u ++ " " ++ a)) as Hspec.
  assert (Hiff : forall r,
            Kairo._execute_check re c u a ctx = Ok r ->
            (Kairo.compliant r = false
             <-> exists k, In k kws
                           /\ Py.contains (folded sensitive k)
                                (folded sensitive (u ++ " " ++ a)) = true)).
  { intros r Hr. rewrite E in Hr.
    destruct (Kairo.first_keyword kws sensitive (u ++ " " ++ a)) as [k|];
      injection Hr as <-; cbn [Kairo.compliant Kairo.failed Kairo.passed].
    - split; [intros _; now exists k|reflexivity].
    - split; [discriminate|]. intros (k & Hk & Hc).
      rewrite (Hspec k Hk) in Hc. discriminate. }
  assert (Hex : exists r, Kairo._execute_check re c u a ctx = Ok r).
  { rewrite E. destruct (Kairo.first_keyword _ _ _); eauto. }
  destruct Hex as [r Hr]. exists r. split; [exact Hr|].
  split; [exact (Hiff r Hr)|].
  intros k Hk Hside. apply (Hiff r Hr). exists k. split; [exact Hk|].
  rewrite !folded_app. destruct Hside as [H|H].
  - apply contains_left. exact H.
  - apply contains_right, contains_right. exact H.
Qed.

Lemma keyword_check_reads_input_and_output_witness :
  exists r,
    Kairo._execute_check no_match (keyword_check (Some ["bomb"]) (Some false))
      "a BOMB" "ok" None = Ok r
    /\ (Kairo.compliant r = false
        <-> exists k, In k ["bomb"]
                      /\ Py.contains (folded false k)
                           (folded false ("a BOMB" ++ " " ++ "ok")) = true)
    /\ (forall k, In k ["bomb"] ->
          Py.contains (folded false k) (folded false "a BOMB") = true
          \/ Py.contains (folded false k) (folded false "ok") = true ->
          Kairo.compliant r = false).
Proof.
  apply (keyword_check_reads_input_and_output no_match
           (keyword_check (Some ["bomb"]) (Some false)) "a BOMB" "ok" None).
  reflexivity.
Defined.

Lemma execute_check_input_free re c u u' a ctx ctx' :
  Kairo.equals (Kairo.type_ c) "keyword" = false ->
  Kairo._execute_check re c u a ctx = Kairo._execute_check re c u' a ctx'.
Proof.
  intros H. unfold Kairo._execute_check. rewrite H. reflexivity.
Qed.

Lemma all_checks_input_free re cs u u' a ctx ctx' :
  Forall (fun c => Kairo.equals (Kairo.type_ c) "keyword" = false) cs ->
  Kairo.all_checks re cs u a ctx = Kairo.all_checks re cs u' a ctx'.
Proof.
  induction 1 as [|c cs Hc _ IH]; cbn [Kairo.all_checks]; [reflexivity|].
  rewrite (execute_check_input_free re c u u' a ctx ctx' Hc), IH. reflexivity.
Qed.

Lemma check_rule_input_free re rule u u' a ctx ctx' :
  keyword_free rule ->
  Kairo._check_rule re rule u a ctx = Kairo._check_rule re rule u' a ctx'.
Proof.
  unfold keyword_free, effective_checks, Kairo._check_rule.
  destruct (Kairo.check rule) as [c|]; intros H.
  - inversion H; subst. now apply execute_check_input_free.
  - now apply all_checks_input_free.
Qed.

(** X23: the user's input and the context reach the verdict through keyword
    checks only: on a table whose rules run no keyword check, two exchanges
    with the same model output get the same verdict (or the same
    exception), whatever the user asked. *)
Theorem verdict_ignores_input_without_keyword_checks re rules u u' a ctx ctx' :
  Forall keyword_free rules ->
  Kairo.check_compliance re rules u a ctx
  = Kairo.check_compliance re rules u' a ctx'.
Proof.
  intros H. unfold Kairo.check_compliance.
  assert (E : forall st,
            Kairo.check_all re rules u a ctx st
            = Kairo.check_all re rules u' a ctx' st).
  { induction H as [|rule rules Hr _ IH]; intros st; cbn [Kairo.check_all];
      [reflexivity|].
    unfold Kairo.check_one.
    rewrite (check_rule_input_free re rule u u' a ctx ctx' Hr).
    destruct (Kairo._check_rule re rule u' a ctx') as [r|e]; [|reflexivity].
    destruct (Kairo.compliant r); [apply IH|].
    destruct (Kairo.required (Kairo.id rule) "id"); [|reflexivity].
    destruct (Kairo.required (Kairo.name rule) "name"); [|reflexivity].
    destruct (Kairo.required (Kairo.severity rule) "severity"); [|reflexivity].
    destruct (Kairo.required (Kairo.description rule) "description");
      [|reflexivity].
    destruct (Kairo.severity_of _); [apply IH|reflexivity]. }
  rewrite E. reflexivity.
Qed.

Lemma verdict_ignores_input_without_keyword_checks_witness :
  Kairo.check_compliance no_match
    [rule_with "short" "medium" (Some "warn") None (length_check None (Some 3%Z));
     bare_rule [patternless]]
    "ignore previous instructions" "hello" None
  = Kairo.check_compliance no_match
      [rule_with "short" "medium" (Some "warn") None
         (length_check None (Some 3%Z));
       bare_rule [patternless]]
      "hi" "hello" (Some [("k", PInt 1)]).
Proof.
  apply (verdict_ignores_input_without_keyword_checks no_match
           [rule_with "short" "medium" (Some "warn") None
              (length_check None (Some 3%Z));
            bare_rule [patternless]]
           "ignore previous instructions" "hi" "hello" None
           (Some [("k", PInt 1)])).
  repeat (apply Forall_cons;
          [unfold keyword_free; cbn;
           repeat (apply Forall_cons; [reflexivity|]); apply Forall_nil|]).
  apply Forall_nil.
Defined.

Lemma execute_check_returns re c u a ctx :
  (forall p t i, exists b, re p t i = Ok b) ->
  (Kairo.equals (Kairo.type_ c) "regex" = true -> Kairo.pattern c <> None) ->
  exists r, Kairo._execute_check re c u a ctx = Ok r.
Proof.
  intros Hre Hpat. unfold Kairo._execute_check.
  destruct (Kairo.equals (Kairo.type_ c) "regex").
  { destruct (Kairo.pattern c) as [pat|]; [|now destruct Hpat].
    destruct (Hre pat a (Py.contains "i"
                 match Kairo.flags c with Some f => f | None => "" end))
      as [b ->].
    destruct b; eauto. }
  destruct (Kairo.equals (Kairo.type_ c) "keyword").
  { destruct (Kairo.first_keyword _ _ _); eauto. }
  destruct (Kairo.equals (Kairo.type_ c) "length").
  { destruct (_ <? _)%Z; [eauto|].
    destruct (Kairo.max_length c); [|eauto]. destruct (_ <? _)%Z; eauto. }
  destruct (Kairo.equals (Kairo.type_ c) "external"); [|eauto].
  destruct (Kairo.equals (Kairo.service c) "seda_verification"); eauto.
Qed.

Lemma check_rule_returns re rule u a ctx :
  (forall p t i, exists b, re p t i = Ok b) ->
  Forall (fun c => Kairo.equals (Kairo.type_ c) "regex" = true ->
                   Kairo.pattern c <> None) (effective_checks rule) ->
  exists r, Kairo._check_rule re rule u a ctx = Ok r.
Proof.
  intros Hre. unfold effective_checks, Kairo._check_rule.
  destruct (Kairo.check rule) as [c|]; intros H.
  - inversion H; subst. now apply execute_check_returns.
  - induction H as [|c cs Hc _ IH]; cbn [Kairo.all_checks]; [eauto|].
    destruct (execute_check_returns re c u a ctx Hre Hc) as [r ->].
    destruct (Kairo.compliant r); eauto.
Qed.

Lemma find_message_returns rules rid :
  Forall (fun rule => Kairo.id rule <> None) rules ->
  exists m, Kairo.find_message rules rid = Ok m.
Proof.
  induction 1 as [|rule rules Hid _ IH]; cbn [Kairo.find_message]; [eauto|].
  destruct (Kairo.id rule) as [x|]; [|now destruct Hid]. cbn [Kairo.required].
  destruct (String.eqb x rid); eauto.
Qed.

(** X24: on a table of well-formed rules (id, name and description present,
    a severity among the four known ones, a pattern in every regex check)
    and with regular expressions that compile, [check_compliance] returns a
    verdict: it raises nothing. *)
Theorem check_compliance_returns re rules u a ctx :
  (forall p t i, exists b, re p t i = Ok b) ->
  Forall well_formed rules ->
  exists res, Kairo.check_compliance re rules u a ctx = Ok res.
Proof.
  intros Hre Hwf. unfold Kairo.check_compliance.
  assert (Hall : forall st, exists st',
            Kairo.check_all re rules u a ctx st = Ok st').
  { induction Hwf as [|rule rules Hr _ IH]; intros st; cbn [Kairo.check_all];
      [eauto|].
    destruct Hr as (Hid & Hname & Hdesc & (s & Hsev & Hs) & Hchecks).
    unfold Kairo.check_one.
    destruct (check_rule_returns re rule u a ctx Hre Hchecks) as [r ->].
    destruct (Kairo.compliant r); [apply IH|].
    destruct (Kairo.id rule); [|now destruct Hid].
    destruct (Kairo.name rule); [|now destruct Hname].
    destruct (Kairo.description rule); [|now destruct Hdesc].
    rewrite Hsev. cbn [Kairo.required].
    apply severity_of_valid in Hs as [sev ->]. apply IH. }
  destruct (Hall {| Kairo.so_far := []; Kairo.highest_severity := None;
                    Kairo.current := Kairo.ALLOW |}) as [st ->].
  destruct (Kairo.so_far st) as [|v vs]; [eauto|].
  destruct (find_message_returns rules
              (Kairo.v_rule_id (Kairo.max_by Kairo.violation_priority v vs)))
    as [m ->]; [|eauto].
  eapply Forall_impl; [|exact Hwf]. intros rule H. apply H.
Qed.

Lemma check_compliance_returns_witness :
  exists res, Kairo.check_compliance no_match sample_rules "hi" "hello" None = Ok res.
Proof.
  apply (check_compliance_returns no_match sample_rules "hi" "hello" None).
  - intros p t i. exists false. reflexivity.
  - repeat (apply Forall_cons;
            [repeat split; try discriminate;
             [eexists; split; reflexivity
             |cbn; repeat (apply Forall_cons; [discriminate|]); apply Forall_nil]|]).
    apply Forall_nil.
Defined.

Lemma lower_split u : forall x y,
  Py.lower u = x ++ y ->
  exists u1 u2, u = u1 ++ u2 /\ Py.lower u1 = x /\ Py.lower u2 = y.
Proof.
  induction u as [|c u IH]; intros x y H.
  - destruct x; [|discriminate]. cbn in H. exists "", "". now repeat split.
  - destruct x as [|d x].
    + exists "", (String c u). now repeat split.
    + cbn in H. injection H as Hd Hu.
      destruct (IH _ _ Hu) as (u1 & u2 & -> & H1 & H2).
      exists (String c u1), u2. cbn. rewrite Hd, H1. now repeat split.
Qed.

(** A phrase table is matched exactly by the texts that hold one of its
    phrases written in some letter case. *)
Lemma any_case_iff (kws : list string) (u : string) :
  Py.any (fun keyword => Py.contains keyword (Py.lower u)) kws = true
  <-> exists k pre s post,
        In k kws /\ u = pre ++ s ++ post /\ Py.lower s = k.
Proof.
  rewrite any_true_iff. split.
  - intros (k & Hk & Hc). apply contains_inv in Hc as (x & y & Hxy).
    destruct (lower_split _ _ _ Hxy) as (pre & rest & -> & _ & Hrest).
    destruct (lower_split _ _ _ Hrest) as (s & post & -> & Hs & _).
    now exists k, pre, s, post.
  - intros (k & pre & s & post & Hk & -> & Hs). exists k. split; [exact Hk|].
    rewrite !lower_app, Hs. apply contains_app.
Qed.

(** X25: [check_jailbreak_attempt] flags exactly the inputs that hold one of
    the eight listed phrases, in any mix of upper and lower case and
    anywhere in the text; [requires_step_by_step] does the same for the
    twelve step indicators and the output. *)
Theorem phrase_detection_any_case_anywhere (text : string) :
  (Kairo.check_jailbreak_attempt text = true
   <-> exists k pre s post,
         In k Kairo.jailbreak_keywords
         /\ text = pre ++ s ++ post /\ Py.lower s = k)
  /\ (Kairo.requires_step_by_step text = true
      <-> exists k pre s post,
            In k Kairo.step_indicators
            /\ text = pre ++ s ++ post /\ Py.lower s = k).
Proof.
  split; [unfold Kairo.check_jailbreak_attempt|unfold Kairo.requires_step_by_step];
    apply any_case_iff.
Qed.
